(** * getALPAPR: the ALP base-APR query of the Amped integration

    A shallow embedding of
    [src/projects/amped/functions/liquidity/getALPAPR.ts], the proofs of the
    properties its specification states, and of further properties of how an
    invocation ends and of what it reports.

    The function is an [async] TypeScript function.  It talks to two
    collaborators handed in by the caller ([notify] and [getProvider]) and to
    two contracts through the provider; each of these calls may reject.  The
    embedding threads an explicit trace of the calls that were issued and models
    rejection as a thrown JavaScript value, so that [try]/[catch] and what
    escapes the function boundary can be stated.

    The arithmetic is the one of the source: [bigint] values are [Z],
    [BigInt] division truncates and throws on a zero divisor, [Number(..)] and
    [/] on Numbers are IEEE-754 binary64 operations (Rocq's [SpecFloat]), and
    [toFixed] / [toString] follow ECMA-262. *)

From Stdlib Require Import ZArith QArith Qpower Qround Qabs Bool List String Ascii Lia Lqa.
From Stdlib Require Import Floats.SpecFloat.
From Stdlib Require Import DecimalString DecimalPos.
Import ListNotations.

Local Open Scope string_scope.
Local Open Scope Z_scope.

(** ** JavaScript values that can be thrown *)

(** What a [catch (error)] clause of the source can observe of the caught
    value: whether it is an [Error] instance (then it has a [message]) or
    some other value. *)
Inductive JsThrown : Type :=
| JsError (message : string)
| JsNonError (description : string).

Definition instanceofError (e : JsThrown) : bool :=
  match e with
  | JsError _ => true
  | JsNonError _ => false
  end.

(** [error.message] of an [Error] instance. *)
Definition error_message (e : JsThrown) : string :=
  match e with
  | JsError message => message
  | JsNonError _ => ""
  end.

(** ** The result type of the SDK

    [toResult(data, error)] belongs to [@heyanon/sdk]; a [FunctionReturn] is
    kept as the pair of arguments [toResult] was called with. *)
Record FunctionReturn : Type := toResult {
  data : string;
  isError : bool
}.

(** ** Calls that leave the function *)

Definition Provider := nat.
Definition Address := string.

Inductive Event : Type :=
| EvNotify (message : string)
| EvGetProvider (chainId : Z)
| EvRead (client : Provider) (address : Address) (functionName : string).

(** The caller's side.  Every answer may depend on all calls issued so far. *)
Record World : Type := {
  notify_reply : list Event -> string -> option JsThrown;
  getProvider_reply : list Event -> Z -> JsThrown + Provider;
  read_reply : list Event -> Provider -> Address -> string -> JsThrown + Z
}.

(** ** Sequential asynchronous computations

    An [Async A] runs against a [World], extends the trace of issued calls
    and either completes with an [A] or throws. *)
Definition Async (A : Type) : Type :=
  World -> list Event -> list Event * (JsThrown + A).

Definition ret {A} (a : A) : Async A :=
  fun _ tr => (tr, inr a).

Definition bind {A B} (c : Async A) (k : A -> Async B) : Async B :=
  fun w tr =>
    match c w tr with
    | (tr', inl e) => (tr', inl e)
    | (tr', inr a) => k a w tr'
    end.

Definition try_catch {A} (body : Async A) (handler : JsThrown -> Async A) : Async A :=
  fun w tr =>
    match body w tr with
    | (tr', inl e) => handler e w tr'
    | (tr', inr a) => (tr', inr a)
    end.

Definition lift {A} (r : JsThrown + A) : Async A :=
  fun _ tr => (tr, r).

Declare Scope async_scope.
Delimit Scope async_scope with async.
Notation "x <- c ;; k" := (bind c (fun x => k))
  (at level 61, c at next level, right associativity) : async_scope.
Notation "c ;; k" := (bind c (fun _ => k))
  (at level 61, right associativity) : async_scope.
Local Open Scope async_scope.

(** [await notify(message)] *)
Definition notify (message : string) : Async unit :=
  fun w tr =>
    let tr' := (tr ++ [EvNotify message])%list in
    match notify_reply w tr message with
    | Some e => (tr', inl e)
    | None => (tr', inr tt)
    end.

(** [getProvider(chainId)] *)
Definition getProvider (chainId : Z) : Async Provider :=
  fun w tr => ((tr ++ [EvGetProvider chainId])%list, getProvider_reply w tr chainId).

(** A contract handle of viem: [getContract({address, abi, publicClient})]
    only packs its arguments. *)
Record Contract : Type := getContract {
  address : Address;
  publicClient : Provider
}.

(** [await contract.read.functionName()] *)
Definition contract_read (c : Contract) (functionName : string) : Async Z :=
  fun w tr =>
    ((tr ++ [EvRead (publicClient c) (address c) functionName])%list,
     read_reply w tr (publicClient c) (address c) functionName).

(** ** BigInt *)

(** [BigInt.prototype.toString()]: the base-10 numeral, with a leading minus
    sign for a negative value. *)
Definition BigInt_toString (z : Z) : string :=
  NilZero.string_of_int (Z.to_int z).

(** The message texts of the [RangeError]s raised by the engine are not fixed
    by ECMA-262; the operations that throw one take its text as an argument. *)

(** [a / b] on BigInts: truncating division, a [RangeError] when [b] is [0n]. *)
Definition BigInt_div (RangeError_division_by_zero : string) (a b : Z) : JsThrown + Z :=
  if b =? 0 then inl (JsError RangeError_division_by_zero)
  else inr (Z.quot a b).

(** ** Numbers: IEEE-754 binary64 *)

Definition Number_prec : Z := 53.
Definition Number_emax : Z := 1024.

(** The real number a Number denotes ([0] for the values that denote none). *)
Definition Number_value (x : spec_float) : Q :=
  match x with
  | S754_finite s m e =>
      (if s then - (Zpos m # 1) else (Zpos m # 1)) * Qpower 2 e
  | _ => 0
  end%Q.

(** [BigInt(x)] for a Number [x]: the integer [x] denotes, a [RangeError]
    when [x] is not an integer. *)
Definition BigInt_of_Number (RangeError_not_an_integer : spec_float -> string)
    (x : spec_float) : JsThrown + Z :=
  match x with
  | S754_zero _ => inr 0
  | S754_finite s m e =>
      if 0 <=? e then inr (cond_Zopp s (Zpos m * 2 ^ e))
      else if Zpos m mod 2 ^ (- e) =? 0
           then inr (cond_Zopp s (Zpos m / 2 ^ (- e)))
           else inl (JsError (RangeError_not_an_integer x))
  | _ => inl (JsError (RangeError_not_an_integer x))
  end.

(** [Number(z)] for a BigInt [z]: the nearest binary64, ties to even. *)
Definition Number_of_BigInt (z : Z) : spec_float :=
  binary_normalize Number_prec Number_emax z 0 false.

(** [x / y] on Numbers. *)
Definition Number_div (x y : spec_float) : spec_float :=
  SFdiv Number_prec Number_emax x y.

(** ** Number to string conversions (ECMA-262, Number::toString and
    Number.prototype.toFixed) *)

Fixpoint zeros (n : nat) : string :=
  match n with
  | O => ""
  | S n' => String "0" (zeros n')
  end.

(** The reals that round to the positive binary64 [m * 2^e] (in canonical
    form) lie between [round_lo] and [round_hi]; the bounds themselves round to
    it exactly when [m] is even. *)
Definition round_lo (m e : Z) : Q :=
  ((m # 1) * Qpower 2 e
   - (if (m =? 2 ^ (Number_prec - 1)) && (emin Number_prec Number_emax <? e)
      then Qpower 2 (e - 2) else Qpower 2 (e - 1)))%Q.

Definition round_hi (m e : Z) : Q :=
  ((m # 1) * Qpower 2 e + Qpower 2 (e - 1))%Q.

Definition rounds_to (m e : Z) (v : Q) : bool :=
  if Z.even m
  then Qle_bool (round_lo m e) v && Qle_bool v (round_hi m e)
  else negb (Qle_bool v (round_lo m e)) && negb (Qle_bool (round_hi m e) v).

(** The digit string [s] whose last digit has weight [10^p], if one denotes a
    real that rounds to [m * 2^e]: the closest one, the even one on a tie. *)
Definition decimal_candidate (m e p : Z) : option Z :=
  let x := ((m # 1) * Qpower 2 e)%Q in
  let a := Qfloor (x / Qpower 10 p) in
  let b := a + 1 in
  let va := ((a # 1) * Qpower 10 p)%Q in
  let vb := ((b # 1) * Qpower 10 p)%Q in
  let oka := (0 <? a) && rounds_to m e va in
  let okb := rounds_to m e vb in
  match oka, okb with
  | true, false => Some a
  | false, true => Some b
  | false, false => None
  | true, true =>
      match ((x - va) ?= (vb - x))%Q with
      | Lt => Some a
      | Gt => Some b
      | Eq => if Z.even a then Some a else Some b
      end
  end.

(** Search for the shortest digit string, from the coarsest weight down. *)
Fixpoint shortest_decimal_from (fuel : nat) (m e p : Z) : Z * Z :=
  match decimal_candidate m e p with
  | Some s => (s, p)
  | None =>
      match fuel with
      | O => (m * 2 ^ (e - Z.min e 0) * 5 ^ (- Z.min e 0), Z.min e 0)
      | S fuel' => shortest_decimal_from fuel' m e (p - 1)
      end
  end.

Definition shortest_decimal (m e : Z) : Z * Z :=
  let top := Z.max 0 (Z.log2 m + e + 2) in
  shortest_decimal_from (Z.to_nat (top - Z.min e 0)) m e top.

(** Number::toString(x), radix 10. *)
Definition Number_toString (x : spec_float) : string :=
  match x with
  | S754_nan => "NaN"
  | S754_zero _ => "0"
  | S754_infinity s => if s then "-Infinity" else "Infinity"
  | S754_finite sg m e =>
      let '(s, p) := shortest_decimal (Zpos m) e in
      let digits := BigInt_toString s in
      let k := Z.of_nat (String.length digits) in
      let n := k + p in
      (if sg then "-" else "") ++
      (if (k <=? n) && (n <=? 21) then
         digits ++ zeros (Z.to_nat (n - k))
       else if (0 <? n) && (n <=? 21) then
         substring 0 (Z.to_nat n) digits ++ "." ++
         substring (Z.to_nat n) (Z.to_nat (k - n)) digits
       else if (-6 <? n) && (n <=? 0) then
         "0." ++ zeros (Z.to_nat (- n)) ++ digits
       else
         let ex := n - 1 in
         let tail := "e" ++ (if ex <? 0 then "-" else "+") ++ BigInt_toString (Z.abs ex) in
         if k =? 1 then digits ++ tail
         else substring 0 1 digits ++ "." ++
              substring 1 (Z.to_nat (k - 1)) digits ++ tail)
  end.

(** The integer [n] for which [n / 10^f - r] is closest to zero, the larger
    one when there are two. *)
Definition nearest_scaled (r : Q) (f : nat) : Z :=
  Qfloor (r * Qpower 10 (Z.of_nat f) + (1 # 2))%Q.

(** The digits of [n] with a point before the last [f] of them. *)
Definition fixed_point_digits (n : Z) (f : nat) : string :=
  let m := BigInt_toString n in
  match f with
  | O => m
  | _ =>
      let k := String.length m in
      let m := if (k <=? f)%nat then zeros (f + 1 - k) ++ m else m in
      let k := String.length m in
      substring 0 (k - f) m ++ "." ++ substring (k - f) f m
  end.

(** Number.prototype.toFixed(f) *)
Definition Number_toFixed (x : spec_float) (f : nat) : string :=
  match x with
  | S754_nan | S754_infinity _ => Number_toString x
  | _ =>
      let r := Number_value x in
      let sign := if Qle_bool 0 r then "" else "-" in
      let r := Qabs r in
      sign ++
      (if Qle_bool (Qpower 10 21) r
       then Number_toString (SFabs x)
       else fixed_point_digits (nearest_scaled r f) f)
  end.

(** ** JSON.stringify on an object whose values are strings *)

Definition dquote : ascii := ascii_of_nat 34.
Definition backslash : ascii := ascii_of_nat 92.

Definition hex_digit (n : nat) : ascii :=
  ascii_of_nat (if (n <? 10)%nat then 48 + n else 87 + n).

(** QuoteJSONString: the characters that are written as escapes. *)
Definition json_escape_char (c : ascii) : string :=
  let n := nat_of_ascii c in
  if Ascii.eqb c dquote then String backslash (String dquote "")
  else if Ascii.eqb c backslash then String backslash (String backslash "")
  else if (n =? 8)%nat then String backslash "b"
  else if (n =? 9)%nat then String backslash "t"
  else if (n =? 10)%nat then String backslash "n"
  else if (n =? 12)%nat then String backslash "f"
  else if (n =? 13)%nat then String backslash "r"
  else if (n <? 32)%nat then
    String backslash
      (String "u" (String "0" (String "0"
         (String (hex_digit (n / 16)) (String (hex_digit (n mod 16)) "")))))
  else String c "".

Fixpoint json_escape (s : string) : string :=
  match s with
  | EmptyString => ""
  | String c s' => json_escape_char c ++ json_escape s'
  end.

Definition json_quote (s : string) : string :=
  String dquote (json_escape s) ++ String dquote "".

Fixpoint json_members (fields : list (string * string)) : string :=
  match fields with
  | [] => ""
  | [(k, v)] => json_quote k ++ ":" ++ json_quote v
  | (k, v) :: rest => json_quote k ++ ":" ++ json_quote v ++ "," ++ json_members rest
  end.

Definition JSON_stringify (fields : list (string * string)) : string :=
  "{" ++ json_members fields ++ "}".

(** ** [getALPAPR] *)

Record Props : Type := {
  chainName : string;
  account : Address
}.

(** What the module imports and the source does not define: the name table
    of [getChainFromName] ([@heyanon/sdk]), the values of
    [../../constants.js] the function uses, and the texts of the engine's
    [RangeError]s. *)
Record Imports : Type := {
  getChainFromName : string -> option Z;
  NETWORKS_SONIC : string;
  REWARD_TRACKER : Address;
  REWARD_DISTRIBUTOR : Address;
  PRECISION : spec_float;
  SECONDS_PER_YEAR : spec_float;
  RangeError_not_an_integer : spec_float -> string;
  RangeError_division_by_zero : string
}.

(** [!chainId]: an absent chain id and the id [0] are falsy. *)
Definition falsy (chainId : option Z) : bool :=
  match chainId with
  | None => true
  | Some c => c =? 0
  end.

Definition chainId_value (chainId : option Z) : Z :=
  match chainId with
  | None => 0
  | Some c => c
  end.

Section GetALPAPR.

Variable imp : Imports.

(** [tokensPerInterval * BigInt(SECONDS_PER_YEAR)] *)
Definition yearlyRewards_of (tokensPerInterval : Z) : JsThrown + Z :=
  match BigInt_of_Number imp.(RangeError_not_an_integer) imp.(SECONDS_PER_YEAR) with
  | inl e => inl e
  | inr spy => inr (tokensPerInterval * spy)
  end.

(** [(yearlyRewards * BigInt(PRECISION) * 100n) / totalSupply] *)
Definition scaled_quotient (yearlyRewards totalSupply : Z) : JsThrown + Z :=
  match BigInt_of_Number imp.(RangeError_not_an_integer) imp.(PRECISION) with
  | inl e => inl e
  | inr p =>
      BigInt_div imp.(RangeError_division_by_zero) (yearlyRewards * p * 100) totalSupply
  end.

(** [Number(quotient) / PRECISION] *)
Definition baseApr_of (quotient : Z) : spec_float :=
  Number_div (Number_of_BigInt quotient) imp.(PRECISION).

Definition getALPAPR (props : Props) : Async FunctionReturn :=
  let chainId := imp.(getChainFromName) (chainName props) in
  if falsy chainId then
    ret (toResult ("Network " ++ chainName props ++ " not supported") true)
  else if negb (String.eqb (chainName props) imp.(NETWORKS_SONIC)) then
    ret (toResult "This function is only supported on Sonic chain" true)
  else
    notify "Checking ALP APR information..." ;;
    try_catch
      (provider <- getProvider (chainId_value chainId) ;;
       let rewardTracker := getContract imp.(REWARD_TRACKER) provider in
       let distributor := getContract imp.(REWARD_DISTRIBUTOR) provider in
       notify "Fetching total supply..." ;;
       totalSupply <- contract_read rewardTracker "totalSupply" ;;
       notify "Fetching tokens per interval..." ;;
       tokensPerInterval <- contract_read distributor "tokensPerInterval" ;;
       yearlyRewards <- lift (yearlyRewards_of tokensPerInterval) ;;
       quotient <- lift (scaled_quotient yearlyRewards totalSupply) ;;
       let baseApr := baseApr_of quotient in
       notify "APR calculation completed" ;;
       ret (toResult
              (JSON_stringify
                 [("baseApr", Number_toFixed baseApr 2);
                  ("yearlyRewards", BigInt_toString yearlyRewards);
                  ("totalSupply", BigInt_toString totalSupply);
                  ("tokensPerInterval", BigInt_toString tokensPerInterval)])
              false))
      (fun error =>
         if instanceofError error then
           ret (toResult ("Failed to get ALP APR information: " ++ error_message error) true)
         else
           ret (toResult "Failed to get ALP APR information: Unknown error" true)).

(** One invocation, from an empty trace: the calls issued, and the value
    returned or the value thrown past the function boundary. *)
Definition invoke (chain : string) (acct : Address) (w : World)
  : list Event * (JsThrown + FunctionReturn) :=
  getALPAPR {| chainName := chain; account := acct |} w [].

End GetALPAPR.

(** ** Vocabulary of the specification *)

(** [contains needle hay]: [needle] occurs in [hay]. *)
Fixpoint contains (needle hay : string) : bool :=
  prefix needle hay ||
  match hay with
  | EmptyString => false
  | String _ hay' => contains needle hay'
  end.

Definition is_digit (c : ascii) : bool :=
  let n := nat_of_ascii c in ((48 <=? n) && (n <=? 57))%nat.

Fixpoint all_digits (s : string) : bool :=
  match s with
  | EmptyString => true
  | String c s' => is_digit c && all_digits s'
  end.

(** A non-negative base-10 integer numeral. *)
Definition is_decimal_numeral (s : string) : bool :=
  match s with
  | EmptyString => false
  | _ => all_digits s
  end.

(** Exactly [f] digits and then the end of the string. *)
Fixpoint is_fraction (f : nat) (s : string) : bool :=
  match f, s with
  | O, EmptyString => true
  | S f', String c s' => is_digit c && is_fraction f' s'
  | _, _ => false
  end.

(** A decimal numeral with exactly [f] fractional digits: one digit or more,
    a point, [f] digits. *)
Fixpoint is_fixed_decimal_from (seen_digit : bool) (f : nat) (s : string) : bool :=
  match s with
  | EmptyString => false
  | String c s' =>
      if is_digit c then is_fixed_decimal_from true f s'
      else if Ascii.eqb c "." then seen_digit && is_fraction f s'
      else false
  end.

Definition is_fixed_decimal (f : nat) (s : string) : bool :=
  is_fixed_decimal_from false f s.

(** The range of an unsigned 256-bit integer, as the contracts return it. *)
Definition is_u256 (z : Z) : Prop := 0 <= z < 2 ^ 256.

(** The calls of a complete invocation, in order. *)
Definition expected_trace (imp : Imports) (chainId : Z) (p : Provider) : list Event :=
  [ EvNotify "Checking ALP APR information...";
    EvGetProvider chainId;
    EvNotify "Fetching total supply...";
    EvRead p imp.(REWARD_TRACKER) "totalSupply";
    EvNotify "Fetching tokens per interval...";
    EvRead p imp.(REWARD_DISTRIBUTOR) "tokensPerInterval";
    EvNotify "APR calculation completed" ].

(** The fields of a success result. *)
Definition success_of (baseApr yearlyRewards totalSupply tokensPerInterval : string)
  : FunctionReturn :=
  toResult
    (JSON_stringify
       [("baseApr", baseApr);
        ("yearlyRewards", yearlyRewards);
        ("totalSupply", totalSupply);
        ("tokensPerInterval", tokensPerInterval)])
    false.

(** ** The hypotheses of the properties *)

Section Hypotheses.

Variable imp : Imports.

(** The network the function supports: its name resolves to a chain id and
    is the one of [NETWORKS.SONIC]. *)
Definition supported (chain : string) : Prop :=
  falsy (imp.(getChainFromName) chain) = false /\ chain = imp.(NETWORKS_SONIC).

(** The first [k] calls of a complete invocation. *)
Definition calls (chain : string) (p : Provider) (k : nat) : list Event :=
  firstn k (expected_trace imp (chainId_value (imp.(getChainFromName) chain)) p).

(** How far the caller's side lets an invocation get. *)
Definition enters_try (w : World) : Prop :=
  notify_reply w [] "Checking ALP APR information..." = None.

Definition reaches_totalSupply_read (chain : string) (w : World) (p : Provider) : Prop :=
  enters_try w /\
  getProvider_reply w (calls chain p 1) (chainId_value (imp.(getChainFromName) chain)) = inr p /\
  notify_reply w (calls chain p 2) "Fetching total supply..." = None.

Definition totalSupply_reply (chain : string) (w : World) (p : Provider) : JsThrown + Z :=
  read_reply w (calls chain p 3) p imp.(REWARD_TRACKER) "totalSupply".

Definition reaches_tokensPerInterval_read
    (chain : string) (w : World) (p : Provider) (totalSupply : Z) : Prop :=
  reaches_totalSupply_read chain w p /\
  totalSupply_reply chain w p = inr totalSupply /\
  notify_reply w (calls chain p 4) "Fetching tokens per interval..." = None.

Definition tokensPerInterval_reply (chain : string) (w : World) (p : Provider) : JsThrown + Z :=
  read_reply w (calls chain p 5) p imp.(REWARD_DISTRIBUTOR) "tokensPerInterval".

Definition reads_succeed
    (chain : string) (w : World) (p : Provider) (totalSupply tokensPerInterval : Z) : Prop :=
  reaches_tokensPerInterval_read chain w p totalSupply /\
  tokensPerInterval_reply chain w p = inr tokensPerInterval.

Definition last_notification_succeeds (chain : string) (w : World) (p : Provider) : Prop :=
  notify_reply w (calls chain p 6) "APR calculation completed" = None.

(** The constants are integers: [BigInt(SECONDS_PER_YEAR)] and
    [BigInt(PRECISION)] do not throw. *)
Definition constants_are (spy prec : Z) : Prop :=
  BigInt_of_Number imp.(RangeError_not_an_integer) imp.(SECONDS_PER_YEAR) = inr spy /\
  BigInt_of_Number imp.(RangeError_not_an_integer) imp.(PRECISION) = inr prec.

End Hypotheses.

(** ** A concrete setting, for running the function

    A name table that knows two chains, a 365-day year, the precision [1e30],
    and callers whose collaborators fail or not. *)
Module Sample.

Definition imports : Imports := {|
  getChainFromName := fun name =>
    if String.eqb name "sonic" then Some 146
    else if String.eqb name "ethereum" then Some 1
    else None;
  NETWORKS_SONIC := "sonic";
  REWARD_TRACKER := "0xRewardTracker";
  REWARD_DISTRIBUTOR := "0xRewardDistributor";
  PRECISION := Number_of_BigInt (10 ^ 30);
  SECONDS_PER_YEAR := Number_of_BigInt 31536000;
  RangeError_not_an_integer := fun _ => "The number is not an integer";
  RangeError_division_by_zero := "Division by zero"
|}.

(** [BigInt(1e30)]: the integer the Number nearest to [10^30] denotes. *)
Definition precision : Z := 1000000000000000019884624838656.

(** Both reads succeed, with the given values. *)
Definition world (totalSupply tokensPerInterval : Z) : World := {|
  notify_reply := fun _ _ => None;
  getProvider_reply := fun _ _ => inr 1%nat;
  read_reply := fun _ _ _ functionName =>
    if String.eqb functionName "totalSupply" then inr totalSupply
    else inr tokensPerInterval
|}.

(** The notification sink rejects every notification. *)
Definition world_notify_fails (e : JsThrown) : World := {|
  notify_reply := fun _ _ => Some e;
  getProvider_reply := fun _ _ => inr 1%nat;
  read_reply := fun _ _ _ _ => inr 1
|}.

(** The [totalSupply] read rejects. *)
Definition world_totalSupply_fails (e : JsThrown) : World := {|
  notify_reply := fun _ _ => None;
  getProvider_reply := fun _ _ => inr 1%nat;
  read_reply := fun _ _ _ functionName =>
    if String.eqb functionName "totalSupply" then inl e else inr 1
|}.

End Sample.

(** ** Rounding to binary64, as a relation on reals

    The vocabulary in which the correctness of [Number(..)] and of [/] is
    stated: where a real lies between two consecutive multiples of a power of
    two, and which exponent the format gives it. *)

Definition pow2 (e : Z) : Q := Qpower 2 e.

(** [position a m l]: the real [a] is in [[m, m+1)], and [l] tells where:
    on [m], below, on or above the middle. *)
Definition position (a : Q) (m : Z) (l : location) : Prop :=
  match l with
  | loc_Exact => a == inject_Z m
  | loc_Inexact o =>
      (inject_Z m < a /\ a < inject_Z m + 1 /\ (a ?= inject_Z m + (1 # 2)) = o)%Q
  end.

(** [located v e m l]: the same for [v] in units of [2^e]. *)
Definition located (v : Q) (e m : Z) (l : location) : Prop :=
  position (v * pow2 (- e)) m l.

Definition Number_emin : Z := emin Number_prec Number_emax.

Definition fexp64 (e : Z) : Z := fexp Number_prec Number_emax e.

(** [m] is the integer part of a real in units of [2^c], and [c] is the exponent
    binary64 gives to that real: [m] has at most 53 bits, and exactly 53 unless
    [c] is the least exponent. *)
Definition canonical_floor (m c : Z) : Prop :=
  Number_emin <= c /\ 0 <= m < 2 ^ Number_prec /\
  (Number_emin < c -> 2 ^ (Number_prec - 1) <= m).

(** The last step of [binary_round_aux]: the rounded mantissa [M] at exponent
    [c] is renormalised and checked for overflow. *)
Definition round_pack (sx : bool) (M c : Z) : spec_float :=
  let '(mrs, e) := shr_fexp Number_prec Number_emax M c loc_Exact in
  match shr_m mrs with
  | Z0 => S754_zero sx
  | Zpos m => if e <=? Number_emax - Number_prec then S754_finite sx m e else S754_infinity sx
  | Zneg _ => S754_nan
  end.

(** [r] is the binary64 nearest to the real [v >= 0], ties to even: [v] is
    located at the exponent of the format, the mantissa is rounded there. *)
Definition rounding_of (v : Q) (r : spec_float) : Prop :=
  exists c m l,
    located v c m l /\ canonical_floor m c /\
    r = round_pack false (round_nearest_even m l) c.

(** A Number that is zero or finite, in the canonical form of the format. *)
Definition Number_finite (x : spec_float) : Prop :=
  match x with
  | S754_zero _ => True
  | S754_finite _ m e => bounded Number_prec Number_emax m e = true
  | _ => False
  end.

(** Zero, a positive finite Number, or [+Infinity]. *)
Definition Number_nonneg (x : spec_float) : Prop :=
  match x with
  | S754_zero _ | S754_finite false _ _ | S754_infinity false => True
  | _ => False
  end.

(** The order of non-negative Numbers. *)
Definition Number_le (x y : spec_float) : Prop :=
  match y with
  | S754_infinity false => True
  | _ =>
      match x with
      | S754_infinity false => False
      | _ => (Number_value x <= Number_value y)%Q
      end
  end.

(** [toFixed] writes fixed-point notation for a finite Number below [10^21]
    in absolute value, and falls back to [toString] otherwise. *)
Definition uses_fixed_notation (x : spec_float) : bool :=
  match x with
  | S754_nan | S754_infinity _ => false
  | _ => negb (Qle_bool (Qpower 10 21) (Qabs (Number_value x)))
  end.

(** ** Reading a numeral back

    The number a decimal numeral denotes, for the numerals [toFixed] and
    [toString] write for a non-negative Number: digits, an optional point
    and fraction digits, an optional exponent part; or [Infinity]. *)

Definition digit_value (c : ascii) : Z := Z.of_nat (nat_of_ascii c) - 48.

Fixpoint digits_value (s : string) (acc : Z) : Z :=
  match s with
  | EmptyString => acc
  | String c s' => digits_value s' (10 * acc + digit_value c)
  end.

(** The longest prefix made of digits, and what follows it. *)
Fixpoint leading_digits (s : string) : string * string :=
  match s with
  | EmptyString => ("", "")
  | String c s' =>
      if is_digit c
      then let '(d, rest) := leading_digits s' in (String c d, rest)
      else ("", s)
  end.

(** A string that does not begin with a digit. *)
Definition no_leading_digit (s : string) : Prop :=
  match s with
  | EmptyString => True
  | String c _ => is_digit c = false
  end.

(** A tail that [exponent_value] accepts: nothing, or an exponent part. *)
Definition exponent_tail (t : string) : Prop :=
  t = "" \/ exists t', t = String "e" t'.

Inductive Reported : Type :=
| Rep_value (q : Q)
| Rep_infinity.

(** Nothing, or [e], a sign and a numeral. *)
Definition exponent_value (s : string) : option Z :=
  match s with
  | EmptyString => Some 0
  | String c (String sign digits) =>
      if Ascii.eqb c "e" && is_decimal_numeral digits then
        if Ascii.eqb sign "+" then Some (digits_value digits 0)
        else if Ascii.eqb sign "-" then Some (- digits_value digits 0)
        else None
      else None
  | _ => None
  end.

(** Nothing, or a point and at least one digit: the digits and what follows. *)
Definition fraction_part (s : string) : option (string * string) :=
  match s with
  | String c rest =>
      if Ascii.eqb c "."
      then match leading_digits rest with
           | (EmptyString, _) => None
           | (digits, rest') => Some (digits, rest')
           end
      else Some ("", s)
  | EmptyString => Some ("", "")
  end.

Definition numeral_value (s : string) : option Reported :=
  if String.eqb s "Infinity" then Some Rep_infinity
  else
    match leading_digits s with
    | (EmptyString, _) => None
    | (int_digits, rest) =>
        match fraction_part rest with
        | None => None
        | Some (frac_digits, rest') =>
            match exponent_value rest' with
            | None => None
            | Some ex =>
                Some (Rep_value
                        (inject_Z (digits_value (int_digits ++ frac_digits) 0) *
                         Qpower 10 (ex - Z.of_nat (String.length frac_digits))))
            end
        end
    end.

Definition Reported_le (a b : Reported) : Prop :=
  match b with
  | Rep_infinity => True
  | Rep_value y =>
      match a with
      | Rep_infinity => False
      | Rep_value x => (x <= y)%Q
      end
  end.

(** Two numerals compared by the numbers they denote. *)
Definition numerically_le (s t : string) : Prop :=
  match numeral_value s, numeral_value t with
  | Some a, Some b => Reported_le a b
  | _, _ => False
  end.

(** Every value the contracts return is an unsigned 256-bit integer. *)
Definition reads_are_u256 (w : World) : Prop :=
  forall tr p a f v, read_reply w tr p a f = inr v -> is_u256 v.

(** The [baseApr] field of a success result, from the two values read and
    the integers the two constants denote. *)
Definition baseApr_string (imp : Imports) (spy prec totalSupply tokensPerInterval : Z)
  : string :=
  Number_toFixed
    (baseApr_of imp (Z.quot (tokensPerInterval * spy * prec * 100) totalSupply)) 2.

(** The rate as a rational number: [(yearlyRewards * 100) / totalSupply]. *)
Definition exact_rate (yearlyRewards totalSupply : Z) : Q :=
  inject_Z (yearlyRewards * 100) / inject_Z totalSupply.

(** ** Further vocabulary *)

(** What the [catch] clause returns for the value it caught. *)
Definition caught (e : JsThrown) : FunctionReturn :=
  toResult
    ("Failed to get ALP APR information: " ++
     (if instanceofError e then error_message e else "Unknown error"))
    true.

(** The answer of the provider resolution, asked after the first
    notification. *)
Definition provider_reply (imp : Imports) (chain : string) (w : World) : JsThrown + Provider :=
  getProvider_reply w [EvNotify "Checking ALP APR information..."]
    (chainId_value (imp.(getChainFromName) chain)).

(** The two BigInt computations of the [try] block throw nothing:
    [tokensPerInterval * BigInt(SECONDS_PER_YEAR)] and the scaled quotient. *)
Definition arithmetic_succeeds (imp : Imports) (totalSupply tokensPerInterval : Z) : Prop :=
  exists yearlyRewards quotient,
    yearlyRewards_of imp tokensPerInterval = inr yearlyRewards /\
    scaled_quotient imp yearlyRewards totalSupply = inr quotient.

(** ** The rate as the specification words it

    The scaled quotient [(yearlyRewards * precision * 100) / totalSupply],
    scaled back down by the precision as a rational number, and that number
    rounded to the nearest hundredth and written with two decimals.  These two
    definitions follow the words of the specification, not the source; they
    are what the [baseApr] of the source is compared with. *)
Definition spec_scaled_back (quotient prec : Z) : Q :=
  (inject_Z quotient / inject_Z prec)%Q.

Definition spec_baseApr (quotient prec : Z) : string :=
  fixed_point_digits (nearest_scaled (spec_scaled_back quotient prec) 2) 2.

(** ** Callers whose collaborators fail at a chosen call *)
Module Failing.

(** The provider resolution throws. *)
Definition world_provider_fails (e : JsThrown) : World := {|
  notify_reply := fun _ _ => None;
  getProvider_reply := fun _ _ => inl e;
  read_reply := fun _ _ _ _ => inr 1
|}.

(** The sink rejects the notification with the given text, and no other;
    the reads answer [1000000] and [1]. *)
Definition world_notification_fails (message : string) (e : JsThrown) : World := {|
  notify_reply := fun _ m => if String.eqb m message then Some e else None;
  getProvider_reply := fun _ _ => inr 1%nat;
  read_reply := fun _ _ _ functionName =>
    if String.eqb functionName "totalSupply" then inr 1000000 else inr 1
|}.

(** A year that is not a whole number of seconds: [31536000.5]. *)
Definition imports_fractional_year : Imports := {|
  getChainFromName := Sample.imports.(getChainFromName);
  NETWORKS_SONIC := Sample.imports.(NETWORKS_SONIC);
  REWARD_TRACKER := Sample.imports.(REWARD_TRACKER);
  REWARD_DISTRIBUTOR := Sample.imports.(REWARD_DISTRIBUTOR);
  PRECISION := Sample.imports.(PRECISION);
  SECONDS_PER_YEAR := Number_div (Number_of_BigInt 63072001) (Number_of_BigInt 2);
  RangeError_not_an_integer := fun _ => "The number is not an integer";
  RangeError_division_by_zero := "Division by zero"
|}.

End Failing.

(** ** The text of a success result *)

(** A character [JSON.stringify] writes as it is. *)
Definition plain_char (c : ascii) : bool :=
  String.eqb (json_escape_char c) (String c "").

Fixpoint plain (s : string) : bool :=
  match s with
  | EmptyString => true
  | String c s' => plain_char c && plain s'
  end.

(** [s] between double quotes. *)
Definition quoted (s : string) : string :=
  String dquote (s ++ String dquote "").

(** * The runtime model on known values *)

(** [BigInt(1e30)]: the literal [1e30] is the Number nearest to [10^30]. *)
Example BigInt_of_1e30 :
  BigInt_of_Number (fun _ => "") (Number_of_BigInt (10 ^ 30)) =
  inr 1000000000000000019884624838656.
Proof. vm_compute. reflexivity. Qed.

(** [BigInt(1.5)] throws. *)
Example BigInt_of_a_fraction :
  BigInt_of_Number (fun _ => "not an integer")
    (Number_div (Number_of_BigInt 3) (Number_of_BigInt 2)) =
  inl (JsError "not an integer").
Proof. vm_compute. reflexivity. Qed.

(** [Number(2n ** 53n + 1n)] is a tie and goes to the even neighbour. *)
Example Number_of_a_tie :
  Number_of_BigInt (2 ^ 53 + 1) = Number_of_BigInt (2 ^ 53) /\
  Number_of_BigInt (2 ^ 53 + 3) = Number_of_BigInt (2 ^ 53 + 4).
Proof. vm_compute. split; reflexivity. Qed.

(** [(1.005).toFixed(2)] is ["1.00"]: the Number is below [1.005]. *)
Example toFixed_of_1_005 :
  Number_toFixed (Number_div (Number_of_BigInt 1005) (Number_of_BigInt 1000)) 2 = "1.00".
Proof. vm_compute. reflexivity. Qed.

(** [(0.125).toFixed(2)] is ["0.13"]: of two nearest, the larger. *)
Example toFixed_of_a_tie :
  Number_toFixed (Number_div (Number_of_BigInt 1) (Number_of_BigInt 8)) 2 = "0.13".
Proof. vm_compute. reflexivity. Qed.

Example toFixed_of_zero : Number_toFixed (Number_of_BigInt 0) 2 = "0.00".
Proof. vm_compute. reflexivity. Qed.

(** [(0.1).toString()], [(1e21).toString()] and the Number just below. *)
Example toString_of_a_tenth :
  Number_toString (Number_div (Number_of_BigInt 1) (Number_of_BigInt 10)) = "0.1".
Proof. vm_compute. reflexivity. Qed.

Example toString_of_1e21 :
  Number_toString (Number_of_BigInt (10 ^ 21)) = "1e+21" /\
  Number_toString (Number_of_BigInt (10 ^ 21 - 70000)) = "999999999999999900000".
Proof. vm_compute. split; reflexivity. Qed.

Example toString_of_a_small_Number :
  Number_toString (Number_div (Number_of_BigInt 1) (Number_of_BigInt (10 ^ 7))) = "1e-7".
Proof. vm_compute. reflexivity. Qed.

(** [toFixed(2)] from [10^21] on. *)
Example toFixed_of_1e21 :
  Number_toFixed (Number_of_BigInt (10 ^ 21)) 2 = "1e+21" /\
  Number_toFixed (Number_of_BigInt (10 ^ 21 - 70000)) 2 = "999999999999999868928.00".
Proof. vm_compute. split; reflexivity. Qed.

(** * Numbers: the rounding of [Number(..)] and of [/] *)

Ltac qcompare_to_order :=
  repeat match goal with
  | H : (_ ?= _)%Q = Lt |- _ => apply Qlt_alt in H
  | H : (_ ?= _)%Q = Gt |- _ => apply Qgt_alt in H
  | H : (_ ?= _)%Q = Eq |- _ => apply Qeq_alt in H
  | |- (_ ?= _)%Q = Lt => apply -> Qlt_alt
  | |- (_ ?= _)%Q = Gt => apply -> Qgt_alt
  | |- (_ ?= _)%Q = Eq => apply -> Qeq_alt
  end.

Ltac position_cases :=
  change (inject_Z 0) with 0%Q in *;
  change (inject_Z 1) with 1%Q in *;
  repeat match goal with H : _ /\ _ |- _ => destruct H end;
  qcompare_to_order;
  repeat split; qcompare_to_order; try lra.

Section Rounding.

Local Open Scope Q_scope.

Lemma inject_Z_xO (p : positive) : inject_Z (Zpos p~0) == 2 * inject_Z (Zpos p).
Proof. unfold Qeq; cbn; lia. Qed.

Lemma inject_Z_xI (p : positive) : inject_Z (Zpos p~1) == 2 * inject_Z (Zpos p) + 1.
Proof. unfold Qeq; cbn; lia. Qed.

Lemma half_xI (p : positive) : (Zpos p~1 / 2 = Zpos p)%Z.
Proof. symmetry. apply Z.div_unique with (r := 1%Z); lia. Qed.

Lemma half_xO (p : positive) : (Zpos p~0 / 2 = Zpos p)%Z.
Proof. symmetry. apply Z.div_unique with (r := 0%Z); lia. Qed.

(** ** Powers of two *)

Lemma pow2_pos (e : Z) : 0 < pow2 e.
Proof. apply Qpower_0_lt. reflexivity. Qed.

Lemma pow2_add (a b : Z) : pow2 (a + b) == pow2 a * pow2 b.
Proof. apply Qpower_plus. discriminate. Qed.

Lemma pow2_opp (a : Z) : pow2 (- a) * pow2 a == 1.
Proof. rewrite <- pow2_add. now replace (- a + a)%Z with 0%Z by lia. Qed.

Lemma pow2_Z (k : Z) : (0 <= k)%Z -> pow2 k == inject_Z (2 ^ k).
Proof. intros Hk. unfold pow2. now rewrite Zpower_Qpower. Qed.

Lemma pow2_le (a b : Z) : (a <= b)%Z -> pow2 a <= pow2 b.
Proof. intros H. apply Qpower_le_compat_l; [exact H|]. discriminate. Qed.

Lemma pow2_lt (a b : Z) : (a < b)%Z -> pow2 a < pow2 b.
Proof. intros H. apply Qpower_lt_compat_l; [exact H|]. reflexivity. Qed.

Lemma pow2_succ (a : Z) : pow2 (a + 1) == 2 * pow2 a.
Proof. rewrite pow2_add. change (pow2 1) with 2%Q. ring. Qed.

Lemma pow2_pred (a : Z) : pow2 (a - 1) == pow2 a * (1 # 2).
Proof.
  replace a with ((a - 1) + 1)%Z at 2 by lia. rewrite pow2_succ. field.
Qed.

(** ** Shifting right keeps track of the position *)

Lemma position_compat (a b : Q) (m : Z) (l : location) :
  a == b -> position a m l -> position b m l.
Proof.
  intros Hab. destruct l as [|o]; cbn.
  - intros H. now rewrite <- Hab.
  - intros (H1 & H2 & H3). rewrite <- Hab. now repeat split.
Qed.

Lemma shr_1_position (a : Q) (m : Z) (r s : bool) :
  (0 <= m)%Z ->
  position a m (loc_of_shr_record (Build_shr_record m r s)) ->
  (0 <= shr_m (shr_1 (Build_shr_record m r s)))%Z /\
  shr_m (shr_1 (Build_shr_record m r s)) = (m / 2)%Z /\
  position (a * (1 # 2)) (shr_m (shr_1 (Build_shr_record m r s)))
    (loc_of_shr_record (shr_1 (Build_shr_record m r s))).
Proof.
  intros Hm Hpos.
  destruct m as [|[p|p|]|p]; try lia.
  - split; [cbn; lia|]. split; [reflexivity|].
    destruct r, s; cbn in Hpos |- *; position_cases.
  - split; [cbn; lia|]. split; [now rewrite half_xI|].
    pose proof (inject_Z_xI p) as Hp.
    destruct r, s; cbn -[inject_Z] in Hpos |- *; position_cases.
  - split; [cbn; lia|]. split; [now rewrite half_xO|].
    pose proof (inject_Z_xO p) as Hp.
    destruct r, s; cbn -[inject_Z] in Hpos |- *; position_cases.
  - split; [cbn; lia|]. split; [reflexivity|].
    destruct r, s; cbn in Hpos |- *; position_cases.
Qed.

Lemma shr_1_located (v : Q) (e : Z) (mrs : shr_record) :
  (0 <= shr_m mrs)%Z ->
  located v e (shr_m mrs) (loc_of_shr_record mrs) ->
  (0 <= shr_m (shr_1 mrs))%Z /\
  shr_m (shr_1 mrs) = (shr_m mrs / 2)%Z /\
  located v (e + 1) (shr_m (shr_1 mrs)) (loc_of_shr_record (shr_1 mrs)).
Proof.
  destruct mrs as [m r s]. cbn [shr_m]. intros Hm Hloc.
  destruct (shr_1_position _ m r s Hm Hloc) as (H1 & H2 & H3).
  split; [exact H1|]. split; [exact H2|].
  unfold located. eapply position_compat; [|exact H3].
  replace (- (e + 1))%Z with (- e - 1)%Z by lia. rewrite pow2_pred. ring.
Qed.

Lemma iter_pos_nat {A} (f : A -> A) (p : positive) (x : A) :
  iter_pos f p x = Nat.iter (Pos.to_nat p) f x.
Proof.
  revert x. induction p as [p IH|p IH|]; intros x; cbn [iter_pos].
  - rewrite !IH, Pos2Nat.inj_xI.
    replace (S (2 * Pos.to_nat p)) with (Pos.to_nat p + (Pos.to_nat p + 1))%nat by lia.
    rewrite !Nat.iter_add. reflexivity.
  - rewrite !IH, Pos2Nat.inj_xO.
    replace (2 * Pos.to_nat p)%nat with (Pos.to_nat p + Pos.to_nat p)%nat by lia.
    rewrite Nat.iter_add. reflexivity.
  - reflexivity.
Qed.

Lemma shr_iter_located (v : Q) (e : Z) (mrs : shr_record) (k : nat) :
  (0 <= shr_m mrs)%Z ->
  located v e (shr_m mrs) (loc_of_shr_record mrs) ->
  (0 <= shr_m (Nat.iter k shr_1 mrs))%Z /\
  shr_m (Nat.iter k shr_1 mrs) = (shr_m mrs / 2 ^ Z.of_nat k)%Z /\
  located v (e + Z.of_nat k) (shr_m (Nat.iter k shr_1 mrs))
    (loc_of_shr_record (Nat.iter k shr_1 mrs)).
Proof.
  intros Hm Hloc. induction k as [|k (IH1 & IH2 & IH3)].
  - change (Nat.iter 0 shr_1 mrs) with mrs. cbn [Z.of_nat].
    rewrite Z.add_0_r, Z.pow_0_r, Z.div_1_r. now repeat split.
  - rewrite Nat.iter_succ.
    destruct (shr_1_located v _ _ IH1 IH3) as (H1 & H2 & H3).
    split; [exact H1|]. split.
    + rewrite H2, IH2, Nat2Z.inj_succ, Z.pow_succ_r by lia.
      rewrite Z.div_div by lia. f_equal. lia.
    + now replace (e + Z.of_nat (S k))%Z with (e + Z.of_nat k + 1)%Z by lia.
Qed.

Lemma loc_of_shr_record_of_loc (m : Z) (l : location) :
  loc_of_shr_record (shr_record_of_loc m l) = l /\
  shr_m (shr_record_of_loc m l) = m.
Proof. destruct l as [|[| |]]; now split. Qed.

(** [shr] by [k >= 0] places: the mantissa is divided by [2^k] and the
    position follows. *)
Lemma shr_located (v : Q) (e m k : Z) (l : location) :
  (0 <= m)%Z -> (0 <= k)%Z ->
  located v e m l ->
  exists mrs',
    shr (shr_record_of_loc m l) e k = (mrs', (e + k)%Z) /\
    (0 <= shr_m mrs')%Z /\
    shr_m mrs' = (m / 2 ^ k)%Z /\
    located v (e + k) (shr_m mrs') (loc_of_shr_record mrs').
Proof.
  intros Hm Hk Hloc.
  destruct (loc_of_shr_record_of_loc m l) as [Hl Hmm].
  destruct k as [|p|p]; [| |lia].
  - exists (shr_record_of_loc m l). cbn [shr].
    rewrite Z.add_0_r, Z.pow_0_r, Z.div_1_r, Hl, Hmm. now repeat split.
  - exists (iter_pos shr_1 p (shr_record_of_loc m l)). cbn [shr].
    split; [reflexivity|].
    rewrite iter_pos_nat.
    destruct (shr_iter_located v e (shr_record_of_loc m l) (Pos.to_nat p)) as (H1 & H2 & H3).
    + now rewrite Hmm.
    + now rewrite Hl, Hmm.
    + rewrite positive_nat_Z, Hmm in *. now repeat split.
Qed.

(** ** The number of bits of a mantissa *)

Lemma digits2_pos_bounds (p : positive) :
  (2 ^ (Zpos (digits2_pos p) - 1) <= Zpos p < 2 ^ Zpos (digits2_pos p))%Z.
Proof.
  induction p as [p IH|p IH|]; cbn [digits2_pos].
  - rewrite Pos2Z.inj_succ. replace (Z.succ (Zpos (digits2_pos p)) - 1)%Z
      with (Z.succ (Zpos (digits2_pos p) - 1))%Z by lia.
    rewrite !Z.pow_succ_r by lia. lia.
  - rewrite Pos2Z.inj_succ. replace (Z.succ (Zpos (digits2_pos p)) - 1)%Z
      with (Z.succ (Zpos (digits2_pos p) - 1))%Z by lia.
    rewrite !Z.pow_succ_r by lia. lia.
  - cbn. lia.
Qed.

Lemma Zdigits2_bounds (m : Z) :
  (0 < m)%Z -> (2 ^ (Zdigits2 m - 1) <= m < 2 ^ Zdigits2 m)%Z /\ (0 < Zdigits2 m)%Z.
Proof.
  destruct m as [|p|p]; try lia. intros _. cbn [Zdigits2].
  split; [apply digits2_pos_bounds|lia].
Qed.

(** A number below [2^n] has at most [n] bits, and conversely. *)
Lemma Zdigits2_le (m n : Z) :
  (0 < m)%Z -> (0 <= n)%Z -> (m < 2 ^ n)%Z -> (Zdigits2 m <= n)%Z.
Proof.
  intros Hm Hn Hlt. destruct (Zdigits2_bounds m Hm) as [[Hlo _] Hd].
  destruct (Z_le_gt_dec (Zdigits2 m) n) as [|Hgt]; [assumption|exfalso].
  assert (2 ^ n <= 2 ^ (Zdigits2 m - 1))%Z by (apply Z.pow_le_mono_r; lia). lia.
Qed.

Lemma Zdigits2_ge (m n : Z) :
  (0 <= n)%Z -> (2 ^ n <= m)%Z -> (n + 1 <= Zdigits2 m)%Z.
Proof.
  intros Hn Hle.
  assert (Hm : (0 < m)%Z) by (pose proof (Z.pow_pos_nonneg 2 n); lia).
  destruct (Zdigits2_bounds m Hm) as [[_ Hhi] Hd].
  destruct (Z_le_gt_dec (n + 1) (Zdigits2 m)) as [|Hgt]; [assumption|exfalso].
  assert (2 ^ Zdigits2 m <= 2 ^ n)%Z by (apply Z.pow_le_mono_r; lia). lia.
Qed.

(** ** [binary_round_aux] rounds at the exponent of the format *)

Lemma fexp64_eq (e : Z) : fexp64 e = Z.max (e - 53) (-1074).
Proof. reflexivity. Qed.

Lemma binary_round_aux_pack (sx : bool) (mx ex : Z) (lx : location) :
  binary_round_aux Number_prec Number_emax sx mx ex lx =
  let '(mrs', e') := shr_fexp Number_prec Number_emax mx ex lx in
  round_pack sx (round_nearest_even (shr_m mrs') (loc_of_shr_record mrs')) e'.
Proof.
  unfold binary_round_aux, round_pack.
  destruct (shr_fexp _ _ mx ex lx) as [mrs' e']. reflexivity.
Qed.

Lemma binary_round_aux_located (v : Q) (sx : bool) (mx ex : Z) (lx : location) :
  (0 <= mx)%Z ->
  located v ex mx lx ->
  (ex <= fexp64 (Zdigits2 mx + ex))%Z ->
  exists c m l,
    located v c m l /\ canonical_floor m c /\
    binary_round_aux Number_prec Number_emax sx mx ex lx =
    round_pack sx (round_nearest_even m l) c.
Proof.
  intros Hmx Hloc Hex.
  set (c := fexp64 (Zdigits2 mx + ex)) in *.
  destruct (shr_located v ex mx (c - ex) lx Hmx ltac:(lia) Hloc)
    as (mrs' & Hshr & Hm0 & Hm & Hloc').
  replace (ex + (c - ex))%Z with c in * by lia.
  exists c, (shr_m mrs'), (loc_of_shr_record mrs').
  split; [exact Hloc'|]. split.
  - unfold canonical_floor, Number_emin, Number_prec.
    change (emin 53 Number_emax) with (-1074)%Z.
    assert (Hc : c = Z.max (Zdigits2 mx + ex - 53) (-1074)) by reflexivity.
    split; [lia|]. rewrite Hm.
    assert (H2k : (0 < 2 ^ (c - ex))%Z) by (apply Z.pow_pos_nonneg; lia).
    destruct (Z.eq_dec mx 0) as [->|Hnz].
    + rewrite Z.div_0_l by lia. cbn [Zdigits2] in Hc. split; [lia|]. intros Hlt. lia.
    + destruct (Zdigits2_bounds mx ltac:(lia)) as [[Hlo Hhi] Hd].
      split; [split|].
      * apply Z.div_pos; lia.
      * apply Z.div_lt_upper_bound; [lia|].
        rewrite <- Z.pow_add_r by lia.
        eapply Z.lt_le_trans; [exact Hhi|]. apply Z.pow_le_mono_r; lia.
      * intros Hlt. apply Z.div_le_lower_bound; [lia|].
        rewrite <- Z.pow_add_r by lia.
        eapply Z.le_trans; [|exact Hlo]. apply Z.pow_le_mono_r; lia.
  - rewrite binary_round_aux_pack. unfold shr_fexp.
    change (fexp Number_prec Number_emax (Zdigits2 mx + ex)) with c.
    rewrite Hshr. reflexivity.
Qed.

(** ** The last step: renormalisation and overflow *)

Lemma shr_nonpos (mrs : shr_record) (e k : Z) :
  (k <= 0)%Z -> shr mrs e k = (mrs, e).
Proof. destruct k; [reflexivity|lia|reflexivity]. Qed.

Lemma round_pack_cases (sx : bool) (M c m : Z) :
  canonical_floor m c ->
  M = m \/ M = (m + 1)%Z ->
  round_pack sx M c =
  if (M =? 0)%Z then S754_zero sx
  else if (M <? 2 ^ 53)%Z then
    (if (c <=? 971)%Z then S754_finite sx (Z.to_pos M) c else S754_infinity sx)
  else
    (if (c + 1 <=? 971)%Z then S754_finite sx (Z.to_pos (2 ^ 52)) (c + 1)
     else S754_infinity sx).
Proof.
  unfold canonical_floor, Number_emin, Number_prec.
  change (emin 53 Number_emax) with (-1074)%Z.
  intros (Hc & Hm & Hnorm) HM.
  unfold round_pack, shr_fexp.
  change (fexp Number_prec Number_emax) with fexp64.
  change (Number_emax - 53)%Z with 971%Z.
  destruct (Z.eqb_spec M 0) as [->|HM0].
  - cbn [Zdigits2]. rewrite shr_nonpos by (rewrite fexp64_eq; lia). reflexivity.
  - destruct (Z.ltb_spec M (2 ^ 53)) as [Hlt|Hge].
    + assert (HMpos : (0 < M)%Z) by lia.
      rewrite shr_nonpos.
      * cbn [shr_record_of_loc shr_m]. destruct M; try lia. reflexivity.
      * rewrite fexp64_eq.
        pose proof (Zdigits2_le M 53 HMpos ltac:(lia) Hlt). lia.
    + assert (M = 2 ^ 53)%Z as -> by lia.
      change (Zdigits2 (2 ^ 53)) with 54%Z. rewrite fexp64_eq.
      replace (Z.max (54 + c - 53) (-1074) - c)%Z with 1%Z by lia.
      reflexivity.
Qed.

Lemma inject_Z_pow2 (k : Z) : (0 <= k)%Z -> inject_Z (2 ^ k) == pow2 k.
Proof. intros Hk. symmetry. now apply pow2_Z. Qed.

Lemma scale_le (a b : Q) (c : Z) : a <= b -> a * pow2 c <= b * pow2 c.
Proof. intros H. apply Qmult_le_compat_r; [exact H|]. apply Qlt_le_weak, pow2_pos. Qed.

Lemma scale_lt (a b : Q) (c : Z) : a < b -> a * pow2 c < b * pow2 c.
Proof. intros H. apply Qmult_lt_compat_r; [apply pow2_pos|exact H]. Qed.

(** The value of the result of [round_pack] is the rounded mantissa times
    [2^c], unless that reaches [2^1024], when the result is [+Infinity]. *)
Lemma round_pack_value (M c m : Z) :
  canonical_floor m c ->
  M = m \/ M = (m + 1)%Z ->
  (round_pack false M c = S754_infinity false /\ pow2 1024 <= inject_Z M * pow2 c) \/
  (Number_finite (round_pack false M c) /\
   Number_nonneg (round_pack false M c) /\
   Number_value (round_pack false M c) == inject_Z M * pow2 c /\
   inject_Z M * pow2 c < pow2 1024).
Proof.
  intros Hcan HM. rewrite (round_pack_cases false M c m Hcan HM).
  unfold canonical_floor, Number_emin, Number_prec in Hcan.
  change (emin 53 Number_emax) with (-1074)%Z in Hcan.
  destruct Hcan as (Hc & Hm & Hnorm).
  destruct (Z.eqb_spec M 0) as [->|HM0].
  - right. cbn. repeat split; try (apply pow2_pos); try ring. 
  - destruct (Z.ltb_spec M (2 ^ 53)) as [Hlt|Hge].
    + assert (HMpos : (0 < M)%Z) by lia.
      destruct (Z.leb_spec c 971) as [Hc971|Hc971].
      * right. cbn [Number_finite Number_nonneg Number_value].
        rewrite Z2Pos.id by lia.
        split; [|split; [exact I|split; [reflexivity|]]].
        -- unfold bounded, canonical_mantissa.
           change (fexp Number_prec Number_emax) with fexp64.
           change (Zpos (digits2_pos (Z.to_pos M))) with (Zdigits2 (Zpos (Z.to_pos M))).
           rewrite Z2Pos.id by lia. rewrite fexp64_eq.
           pose proof (Zdigits2_le M 53 HMpos ltac:(lia) Hlt) as Hd.
           apply andb_true_intro. split; [|apply Z.leb_le; exact Hc971].
           apply Z.eqb_eq.
           destruct (Z.eq_dec c (-1074)) as [->|Hne]; [lia|].
           pose proof (Zdigits2_ge M 52 ltac:(lia) ltac:(lia)). lia.
        -- apply Qlt_le_trans with (pow2 53 * pow2 c).
           ++ apply scale_lt. rewrite <- inject_Z_pow2 by lia. now rewrite <- Zlt_Qlt.
           ++ rewrite <- pow2_add. apply pow2_le. lia.
      * left. split; [reflexivity|].
        apply Qle_trans with (pow2 52 * pow2 c).
        -- rewrite <- pow2_add. apply pow2_le. lia.
        -- apply scale_le. rewrite <- inject_Z_pow2 by lia. rewrite <- Zle_Qle. lia.
    + assert (M = 2 ^ 53)%Z as -> by lia.
      assert (Hv : inject_Z (2 ^ 53) * pow2 c == pow2 (53 + c))
        by (rewrite inject_Z_pow2 by lia; now rewrite pow2_add).
      destruct (Z.leb_spec (c + 1) 971) as [Hc971|Hc971].
      * right. cbn [Number_finite Number_nonneg Number_value].
        split; [|split; [exact I|split]].
        -- unfold bounded, canonical_mantissa.
           change (fexp Number_prec Number_emax) with fexp64.
           change (Zpos (digits2_pos (Z.to_pos (2 ^ 52)))) with 53%Z.
           rewrite fexp64_eq.
           apply andb_true_intro. split; [apply Z.eqb_eq; lia|apply Z.leb_le; exact Hc971].
        -- rewrite Hv. change (Zpos (Z.to_pos (2 ^ 52)) # 1) with (inject_Z (2 ^ 52)).
           rewrite inject_Z_pow2 by lia. rewrite <- pow2_add. 
           now replace (52 + (c + 1))%Z with (53 + c)%Z by lia.
        -- rewrite Hv. apply pow2_lt. lia.
      * left. split; [reflexivity|]. rewrite Hv. apply pow2_le. lia.
Qed.

(** ** Rounding is monotone *)

Lemma position_bounds (a : Q) (m : Z) (l : location) :
  position a m l -> inject_Z m <= a /\ a < inject_Z m + 1.
Proof.
  destruct l as [|o]; cbn.
  - intros H. rewrite H. split; lra.
  - intros (H1 & H2 & _). split; lra.
Qed.

Lemma unscale (v : Q) (c : Z) : v * pow2 (- c) * pow2 c == v.
Proof. rewrite <- Qmult_assoc, pow2_opp. ring. Qed.

Lemma located_bounds (v : Q) (c m : Z) (l : location) :
  located v c m l ->
  inject_Z m * pow2 c <= v /\ v < (inject_Z m + 1) * pow2 c.
Proof.
  intros H. apply position_bounds in H. destruct H as [H1 H2]. split.
  - rewrite <- (unscale v c). now apply scale_le.
  - rewrite <- (unscale v c) at 1. now apply scale_lt.
Qed.

Lemma round_nearest_even_cases (m : Z) (l : location) :
  round_nearest_even m l = m \/ round_nearest_even m l = (m + 1)%Z.
Proof.
  destruct l as [|[| |]]; cbn; auto. destruct (Z.even m); auto.
Qed.

Lemma round_nearest_even_position (a a' : Q) (m : Z) (l l' : location) :
  position a m l -> position a' m l' -> a <= a' ->
  (round_nearest_even m l <= round_nearest_even m l')%Z.
Proof.
  intros H H' Hle.
  destruct l as [|[| |]], l' as [|[| |]]; cbn in H, H' |- *;
    repeat match goal with K : _ /\ _ |- _ => destruct K end;
    qcompare_to_order;
    try (destruct (Z.even m)); try lia; exfalso; lra.
Qed.

Lemma round_monotone (v v' : Q) (c c' m m' : Z) (l l' : location) :
  v <= v' ->
  located v c m l -> canonical_floor m c ->
  located v' c' m' l' -> canonical_floor m' c' ->
  inject_Z (round_nearest_even m l) * pow2 c <=
  inject_Z (round_nearest_even m' l') * pow2 c'.
Proof.
  intros Hv Hloc Hcan Hloc' Hcan'.
  destruct (located_bounds _ _ _ _ Hloc) as [Hlo Hhi].
  destruct (located_bounds _ _ _ _ Hloc') as [Hlo' Hhi'].
  unfold canonical_floor, Number_emin, Number_prec in Hcan, Hcan'.
  change (emin 53 Number_emax) with (-1074)%Z in Hcan, Hcan'.
  destruct Hcan as (Hc & Hm & Hnorm). destruct Hcan' as (Hc' & Hm' & Hnorm').
  assert (Hup : forall n k : Z, (n + 1 <= 2 ^ 53)%Z ->
            (inject_Z n + 1) * pow2 k <= pow2 (53 + k)).
  { intros n k Hn. rewrite pow2_add. apply scale_le.
    rewrite <- inject_Z_pow2 by lia.
    change 1 with (inject_Z 1). rewrite <- inject_Z_plus, <- Zle_Qle. exact Hn. }
  assert (Hdown : forall n k : Z, (2 ^ 52 <= n)%Z -> pow2 (52 + k) <= inject_Z n * pow2 k).
  { intros n k Hn. rewrite pow2_add. apply scale_le.
    rewrite <- inject_Z_pow2 by lia. now rewrite <- Zle_Qle. }
  destruct (Z.lt_trichotomy c c') as [Hlt|[Heq|Hgt]].
  - (* a lower binade: the rounding stays below the next power of two *)
    destruct (round_nearest_even_cases m l) as [-> | ->];
    destruct (round_nearest_even_cases m' l') as [-> | ->].
    all: eapply Qle_trans; [|apply scale_le; rewrite <- Zle_Qle;
                             instantiate (1 := m'); lia].
    all: eapply Qle_trans; [|apply (Hdown m' c'); lia].
    all: eapply Qle_trans; [|apply (pow2_le (53 + c)); lia].
    + eapply Qle_trans; [|apply (Hup m c); lia].
      apply scale_le. lra.
    + eapply Qle_trans; [|apply (Hup m c); lia].
      apply scale_le. lra.
    + rewrite inject_Z_plus. apply (Hup m c); lia.
    + rewrite inject_Z_plus. apply (Hup m c); lia.
  - subst c'. apply scale_le. rewrite <- Zle_Qle.
    pose proof (position_bounds _ _ _ Hloc) as [Ha1 Ha2].
    pose proof (position_bounds _ _ _ Hloc') as [Ha1' Ha2'].
    assert (Ha : v * pow2 (- c) <= v' * pow2 (- c)) by now apply scale_le.
    assert (Hmm : (m <= m')%Z).
    { assert (inject_Z m < inject_Z m' + 1) by lra.
      change 1 with (inject_Z 1) in H. rewrite <- inject_Z_plus, <- Zlt_Qlt in H. lia. }
    destruct (Z.eq_dec m m') as [<-|Hne].
    + eapply round_nearest_even_position; eassumption.
    + destruct (round_nearest_even_cases m l) as [-> | ->];
      destruct (round_nearest_even_cases m' l') as [-> | ->]; lia.
  - exfalso.
    assert (pow2 (52 + c) <= v).
    { eapply Qle_trans; [apply (Hdown m c); lia|exact Hlo]. }
    assert (v' < pow2 (53 + c')).
    { eapply Qlt_le_trans; [exact Hhi'|apply (Hup m' c'); lia]. }
    assert (pow2 (53 + c') <= pow2 (52 + c)) by (apply pow2_le; lia).
    lra.
Qed.

Lemma rounding_of_nonneg (v : Q) (r : spec_float) :
  rounding_of v r -> Number_nonneg r.
Proof.
  intros (c & m & l & Hloc & Hcan & ->).
  destruct (round_pack_value _ c m Hcan (round_nearest_even_cases m l))
    as [[-> _]|(_ & H & _)]; [exact I|exact H].
Qed.

(** The roundings of two reals are ordered as the reals are. *)
Lemma rounding_of_le (v v' : Q) (r r' : spec_float) :
  rounding_of v r -> rounding_of v' r' -> v <= v' -> Number_le r r'.
Proof.
  intros (c & m & l & Hloc & Hcan & ->) (c' & m' & l' & Hloc' & Hcan' & ->) Hv.
  pose proof (round_monotone v v' c c' m m' l l' Hv Hloc Hcan Hloc' Hcan') as Hmono.
  destruct (round_pack_value _ c' m' Hcan' (round_nearest_even_cases m' l'))
    as [[-> _]|(Hfin' & _ & Hval' & Hlt')].
  - exact I.
  - destruct (round_pack_value _ c m Hcan (round_nearest_even_cases m l))
      as [[_ Hge]|(Hfin & _ & Hval & _)]; [exfalso; lra|].
    destruct (round_pack false (round_nearest_even m l) c) as [s|s| |s p e];
      try contradiction;
      destruct (round_pack false (round_nearest_even m' l') c') as [s'|s'| |s' p' e'];
      try contradiction; unfold Number_le; lra.
Qed.

(** ** [Number(z)] is the rounding of [z] *)

Lemma iter_xO_value (m d : positive) :
  Zpos (Pos.iter xO m d) = (Zpos m * 2 ^ Zpos d)%Z.
Proof.
  induction d as [|d IH] using Pos.peano_ind.
  - cbn. lia.
  - rewrite Pos.iter_succ, Pos2Z.inj_xO, IH, Pos2Z.inj_succ, Z.pow_succ_r by lia. ring.
Qed.

Lemma Zdigits2_shift (m k : Z) :
  (0 < m)%Z -> (0 <= k)%Z -> Zdigits2 (m * 2 ^ k) = (Zdigits2 m + k)%Z.
Proof.
  intros Hm Hk.
  destruct (Zdigits2_bounds m Hm) as [[Hlo Hhi] Hd].
  assert (H2k : (0 < 2 ^ k)%Z) by (apply Z.pow_pos_nonneg; lia).
  apply Z.le_antisymm.
  - apply Zdigits2_le; [nia|lia|]. rewrite Z.pow_add_r by lia. nia.
  - replace (Zdigits2 m + k)%Z with ((Zdigits2 m - 1 + k) + 1)%Z by lia.
    apply Zdigits2_ge; [lia|]. rewrite Z.pow_add_r by lia. nia.
Qed.

Lemma shl_align_spec (mx : positive) (ex ex' : Z) :
  exists mz ez,
    shl_align mx ex ex' = (mz, ez) /\
    ez = Z.min ex ex' /\
    Zpos mz = (Zpos mx * 2 ^ (ex - ez))%Z.
Proof.
  unfold shl_align. destruct (ex' - ex)%Z as [|d|d] eqn:Hd.
  - exists mx, ex. split; [reflexivity|]. split; [lia|].
    replace (ex - ex)%Z with 0%Z by lia. cbn. lia.
  - exists mx, ex. split; [reflexivity|]. split; [lia|].
    replace (ex - ex)%Z with 0%Z by lia. cbn. lia.
  - exists (Pos.iter xO mx d), ex'. split; [reflexivity|]. split; [lia|].
    rewrite iter_xO_value. f_equal. f_equal. lia.
Qed.

Lemma binary_round_rounding (mx : positive) (ex : Z) :
  rounding_of (inject_Z (Zpos mx) * pow2 ex)
    (binary_round Number_prec Number_emax false mx ex).
Proof.
  unfold binary_round.
  change (fexp Number_prec Number_emax) with fexp64.
  destruct (shl_align_spec mx ex (fexp64 (Zpos (digits2_pos mx) + ex)))
    as (mz & ez & -> & Hez & Hmz).
  apply binary_round_aux_located with (v := inject_Z (Zpos mx) * pow2 ex).
  - lia.
  - unfold located, position.
    rewrite Hmz, inject_Z_mult, inject_Z_pow2 by lia.
    rewrite <- Qmult_assoc, <- pow2_add.
    now replace (ex + - ez)%Z with (ex - ez)%Z by lia.
  - rewrite Hmz, Zdigits2_shift by lia.
    change (Zdigits2 (Zpos mx)) with (Zpos (digits2_pos mx)).
    replace (Zpos (digits2_pos mx) + (ex - ez) + ez)%Z
      with (Zpos (digits2_pos mx) + ex)%Z by lia.
    lia.
Qed.

Lemma rounding_of_zero : rounding_of 0 (S754_zero false).
Proof.
  exists (-1074)%Z, 0%Z, loc_Exact. split; [|split].
  - unfold located, position. ring.
  - unfold canonical_floor. cbn. lia.
  - reflexivity.
Qed.

Lemma Number_of_BigInt_rounding (z : Z) :
  (0 <= z)%Z -> rounding_of (inject_Z z) (Number_of_BigInt z).
Proof.
  intros Hz. destruct z as [|p|p]; [apply rounding_of_zero| |lia].
  unfold Number_of_BigInt, binary_normalize.
  pose proof (binary_round_rounding p 0) as H.
  destruct H as (c & m & l & Hloc & Hcan & Hr).
  exists c, m, l. split; [|now split].
  unfold located in *. eapply position_compat; [|exact Hloc].
  change (pow2 0) with 1. ring.
Qed.

(** [Number(..)] on BigInts keeps the order. *)
Lemma Number_of_BigInt_monotone (a b : Z) :
  (0 <= a <= b)%Z -> Number_le (Number_of_BigInt a) (Number_of_BigInt b).
Proof.
  intros [Ha Hab].
  apply (rounding_of_le (inject_Z a) (inject_Z b)).
  - now apply Number_of_BigInt_rounding.
  - apply Number_of_BigInt_rounding. lia.
  - now rewrite <- Zle_Qle.
Qed.

(** ** [x / y] is the rounding of the quotient *)

Lemma frac_lt_half (r : Z) (d : positive) : (2 * r < Zpos d)%Z <-> (r # d) < (1 # 2).
Proof. unfold Qlt; cbn [Qnum Qden]. lia. Qed.

Lemma frac_gt_half (r : Z) (d : positive) : (Zpos d < 2 * r)%Z <-> (1 # 2) < (r # d).
Proof. unfold Qlt; cbn [Qnum Qden]. lia. Qed.

Lemma frac_eq_half (r : Z) (d : positive) : (2 * r = Zpos d)%Z <-> (r # d) == (1 # 2).
Proof. unfold Qeq; cbn [Qnum Qden]. lia. Qed.

Lemma frac_bounds (r : Z) (d : positive) :
  (0 < r < Zpos d)%Z -> 0 < (r # d) /\ (r # d) < 1.
Proof. unfold Qlt; cbn [Qnum Qden]. lia. Qed.

(** The remainder of a division tells where the quotient lies. *)
Lemma new_location_position (q r : Z) (d : positive) :
  (0 <= r < Zpos d)%Z ->
  position (inject_Z q + (r # d)) q (new_location (Zpos d) r).
Proof.
  intros Hr. unfold new_location.
  destruct (Z.even (Zpos d)) eqn:Heven;
    unfold new_location_even, new_location_odd;
    destruct (Z.eqb_spec r 0) as [->|Hr0]; unfold position.
  1, 3: unfold Qeq; cbn; lia.
  all: destruct (frac_bounds r d ltac:(lia)) as [H0 H1].
  all: split; [lra|]; split; [lra|].
  - destruct (Z.compare_spec (2 * r) (Zpos d)) as [He|Hl|Hg]; qcompare_to_order.
    + apply frac_eq_half in He. lra.
    + apply frac_lt_half in Hl. lra.
    + apply frac_gt_half in Hg. lra.
  - destruct (Z.compare_spec (2 * r + 1) (Zpos d)) as [He|Hl|Hg]; qcompare_to_order.
    + assert (Hl : (2 * r < Zpos d)%Z) by lia. apply frac_lt_half in Hl. lra.
    + assert (Hl' : (2 * r < Zpos d)%Z) by lia. apply frac_lt_half in Hl'. lra.
    + assert (Hne : Zpos d <> (2 * r)%Z).
      { intros Heq. rewrite Heq, Z.even_mul in Heven. discriminate. }
      assert (Hg' : (Zpos d < 2 * r)%Z) by lia. apply frac_gt_half in Hg'. lra.
Qed.

Lemma SFdiv_core_binary_located (mx my : positive) (ex ey : Z) :
  exists q e' lz,
    SFdiv_core_binary Number_prec Number_emax (Zpos mx) ex (Zpos my) ey = (q, e', lz) /\
    (0 <= q)%Z /\
    located ((inject_Z (Zpos mx) * pow2 ex) / (inject_Z (Zpos my) * pow2 ey)) e' q lz /\
    (e' <= fexp64 (Zdigits2 q + e'))%Z.
Proof.
  unfold SFdiv_core_binary.
  change (fexp Number_prec Number_emax) with fexp64.
  set (d1 := Zdigits2 (Zpos mx)). set (d2 := Zdigits2 (Zpos my)).
  set (e' := Z.min (fexp64 (d1 + ex - (d2 + ey))) (ex - ey)).
  set (s := (ex - ey - e')%Z).
  assert (Hs : (0 <= s)%Z) by (unfold s, e'; lia).
  assert (Hm' : match s with
                | Zpos _ => Z.shiftl (Zpos mx) s
                | Z0 => Zpos mx
                | Zneg _ => 0%Z
                end = (Zpos mx * 2 ^ s)%Z).
  { destruct s as [|p|p]; [cbn; lia| |lia]. now rewrite Z.shiftl_mul_pow2. }
  rewrite Hm'. set (m' := (Zpos mx * 2 ^ s)%Z).
  assert (H2s : (0 < 2 ^ s)%Z) by (apply Z.pow_pos_nonneg; lia).
  pose proof (Z_div_mod m' (Zpos my) ltac:(lia)) as Hdiv.
  destruct (Z.div_eucl m' (Zpos my)) as [q r]. destruct Hdiv as [Hqr Hr].
  assert (Hq : (0 <= q)%Z) by nia.
  exists q, e', (new_location (Zpos my) r).
  split; [reflexivity|]. split; [exact Hq|]. split.
  - unfold located. eapply position_compat; [|apply (new_location_position q r my Hr)].
    assert (Hmy : ~ inject_Z (Zpos my) == 0) by discriminate.
    assert (Hpy : ~ pow2 ey == 0) by (pose proof (pow2_pos ey); lra).
    assert (Hfrac : inject_Z q + (r # my) == inject_Z m' / inject_Z (Zpos my)).
    { rewrite Hqr, inject_Z_plus, inject_Z_mult.
      setoid_replace (r # my) with (inject_Z r / inject_Z (Zpos my))
        by (unfold Qeq; cbn; lia).
      field. exact Hmy. }
    rewrite Hfrac. unfold m'. rewrite inject_Z_mult, inject_Z_pow2 by lia.
    assert (Hpow : pow2 ex * pow2 (- e') == pow2 s * pow2 ey).
    { rewrite <- !pow2_add. unfold s. now replace (ex + - e')%Z with (ex - ey - e' + ey)%Z by lia. }
    transitivity (inject_Z (Zpos mx) * (pow2 s * pow2 ey) / (inject_Z (Zpos my) * pow2 ey)).
    + field. split; assumption.
    + rewrite <- Hpow. field. split; assumption.
  - destruct (Zdigits2_bounds (Zpos mx) ltac:(lia)) as [[Hlo1 Hhi1] Hd1].
    destruct (Zdigits2_bounds (Zpos my) ltac:(lia)) as [[Hlo2 Hhi2] Hd2].
    fold d1 in Hlo1, Hhi1, Hd1. fold d2 in Hlo2, Hhi2, Hd2.
    assert (He' : e' = Z.min (Z.max (d1 + ex - (d2 + ey) - 53) (-1074)) (ex - ey))
      by reflexivity.
    assert (Hs' : s = (ex - ey - e')%Z) by reflexivity.
    clearbody e' s. rewrite fexp64_eq.
    destruct (Z_le_gt_dec 0 (d1 - 1 + s - d2)) as [Hj|Hj].
    + (* the quotient has at least [d1 + s - d2] bits *)
      assert (Hqlo : (2 ^ (d1 - 1 + s - d2) <= q)%Z).
      { assert (Hprod : (2 ^ (d1 - 1 + s - d2) * 2 ^ d2 = 2 ^ (d1 - 1) * 2 ^ s)%Z).
        { rewrite <- !Z.pow_add_r by lia. f_equal. lia. }
        assert (H2j : (0 < 2 ^ (d1 - 1 + s - d2))%Z) by (apply Z.pow_pos_nonneg; lia).
        assert (Hlt : (2 ^ (d1 - 1 + s - d2) * Zpos my < (q + 1) * Zpos my)%Z) by nia.
        nia. }
      pose proof (Zdigits2_ge q _ Hj Hqlo) as Hdq. lia.
    + lia.
Qed.

(** Division of positive finite Numbers is the rounding of the quotient of
    their values. *)
Lemma Number_div_rounding (mx my : positive) (ex ey : Z) :
  rounding_of
    (Number_value (S754_finite false mx ex) / Number_value (S754_finite false my ey))
    (Number_div (S754_finite false mx ex) (S754_finite false my ey)).
Proof.
  unfold Number_div, SFdiv. cbn [Number_value xorb].
  destruct (SFdiv_core_binary_located mx my ex ey) as (q & e' & lz & -> & Hq & Hloc & Hpre).
  apply binary_round_aux_located with
    (v := (inject_Z (Zpos mx) * pow2 ex) / (inject_Z (Zpos my) * pow2 ey)); assumption.
Qed.

(** A rounding is [+Infinity] or a canonical finite non-negative Number. *)
Lemma rounding_of_shape (v : Q) (r : spec_float) :
  rounding_of v r ->
  r = S754_infinity false \/ (Number_finite r /\ Number_nonneg r).
Proof.
  intros (c & m & l & Hloc & Hcan & ->).
  destruct (round_pack_value _ c m Hcan (round_nearest_even_cases m l))
    as [[-> _]|(H1 & H2 & _)]; [now left|now right].
Qed.

Lemma Number_value_pos (m : positive) (e : Z) : 0 < Number_value (S754_finite false m e).
Proof.
  cbn [Number_value]. apply Qmult_lt_0_compat; [reflexivity|apply pow2_pos].
Qed.

Lemma Number_value_nonneg (x : spec_float) : Number_nonneg x -> 0 <= Number_value x.
Proof.
  destruct x as [s|s| |[|] m e]; cbn [Number_nonneg]; try contradiction;
    intros _; try apply Qle_refl.
  apply Qlt_le_weak, Number_value_pos.
Qed.

Lemma Number_div_zero (s : bool) (my : positive) (ey : Z) :
  Number_div (S754_zero s) (S754_finite false my ey) = S754_zero s.
Proof. now destruct s. Qed.

(** Dividing by a positive finite Number keeps the order. *)
Lemma Number_div_monotone (x x' : spec_float) (my : positive) (ey : Z) :
  Number_nonneg x -> Number_nonneg x' -> Number_le x x' ->
  Number_le (Number_div x (S754_finite false my ey))
            (Number_div x' (S754_finite false my ey)).
Proof.
  intros Hx Hx' Hle.
  destruct x' as [s'|[|]| |[|] m' e']; cbn [Number_nonneg] in Hx'; try contradiction.
  - (* x' is zero *)
    rewrite Number_div_zero.
    destruct x as [s|[|]| |[|] m e]; cbn [Number_nonneg] in Hx; try contradiction.
    + rewrite Number_div_zero. apply Qle_refl.
    + exfalso. unfold Number_le in Hle.
      pose proof (Number_value_pos m e). cbn [Number_value] in Hle, H. lra.
  - exact I.
  - (* x' is positive and finite *)
    destruct x as [s|[|]| |[|] m e]; cbn [Number_nonneg] in Hx; try contradiction.
    + rewrite Number_div_zero.
      pose proof (Number_div_rounding m' my e' ey) as Hr.
      destruct (rounding_of_shape _ _ Hr) as [->|[Hfin Hnn]]; [exact I|].
      pose proof (Number_value_nonneg _ Hnn).
      destruct (Number_div _ _) as [?|[|]| |[|] ? ?]; try contradiction; exact H.
    + apply (rounding_of_le _ _ _ _ (Number_div_rounding m my e ey)
               (Number_div_rounding m' my e' ey)).
      apply Qmult_le_compat_r; [exact Hle|].
      apply Qlt_le_weak, Qinv_lt_0_compat, Number_value_pos.
Qed.

(** ** The error of a rounding *)

Lemma round_nearest_even_error (a : Q) (m : Z) (l : location) :
  position a m l ->
  - (1 # 2) <= inject_Z (round_nearest_even m l) - a /\
  inject_Z (round_nearest_even m l) - a <= 1 # 2.
Proof.
  destruct l as [|[| |]]; cbn [position round_nearest_even].
  - intros H. rewrite H. split; lra.
  - intros (H1 & H2 & H3). qcompare_to_order.
    destruct (Z.even m); [|rewrite inject_Z_plus; change (inject_Z 1) with 1];
      split; lra.
  - intros (H1 & H2 & H3). qcompare_to_order. split; lra.
  - intros (H1 & H2 & H3). qcompare_to_order.
    rewrite inject_Z_plus. change (inject_Z 1) with 1. split; lra.
Qed.

(** A finite rounding of [v] is within [v * 2^-53 + 2^-1075] of [v]: half a
    unit in the last place, or half the least subnormal. *)
Lemma rounding_error (v : Q) (r : spec_float) :
  rounding_of v r -> Number_finite r ->
  Qabs (Number_value r - v) <= v * pow2 (-53) + pow2 (-1075).
Proof.
  intros (c & m & l & Hloc & Hcan & ->) Hfin.
  destruct (round_pack_value _ c m Hcan (round_nearest_even_cases m l))
    as [[Hinf _]|(_ & _ & Hval & _)].
  { rewrite Hinf in Hfin. contradiction. }
  rewrite Hval. clear Hval Hfin.
  destruct (round_nearest_even_error _ _ _ Hloc) as [He1 He2].
  destruct (located_bounds _ _ _ _ Hloc) as [Hlo Hhi].
  set (M := inject_Z (round_nearest_even m l)) in *.
  pose proof (pow2_pos c) as Hc. pose proof (unscale v c) as Hun.
  assert (H1 : (- (1 # 2)) * pow2 c <= (M - v * pow2 (- c)) * pow2 c)
    by now apply scale_le.
  assert (H2 : (M - v * pow2 (- c)) * pow2 c <= (1 # 2) * pow2 c)
    by now apply scale_le.
  assert (Hdiff : (M - v * pow2 (- c)) * pow2 c == M * pow2 c - v).
  { rewrite <- Hun at 2. ring. }
  rewrite Hdiff in H1, H2.
  unfold canonical_floor, Number_emin, Number_prec in Hcan.
  change (emin 53 Number_emax) with (-1074)%Z in Hcan.
  destruct Hcan as (Hcmin & Hm & Hnorm).
  assert (Hv0 : 0 <= v).
  { eapply Qle_trans; [|exact Hlo]. apply Qmult_le_0_compat; [|lra].
    change 0 with (inject_Z 0). rewrite <- Zle_Qle. lia. }
  assert (Hhalf : (1 # 2) * pow2 c <= v * pow2 (-53) + pow2 (-1075)).
  { pose proof (pow2_pos (-53)). pose proof (pow2_pos (-1075)).
    assert (Hvp : 0 <= v * pow2 (-53)) by (apply Qmult_le_0_compat; lra).
    destruct (Z.eq_dec c (-1074)) as [->|Hne].
    - assert ((1 # 2) * pow2 (-1074) == pow2 (-1075)) by reflexivity. lra.
    - assert (Hm52 : pow2 52 * pow2 c <= v).
      { eapply Qle_trans; [|exact Hlo]. apply scale_le.
        rewrite <- inject_Z_pow2 by lia. rewrite <- Zle_Qle. lia. }
      assert (Hscaled : pow2 52 * pow2 c * pow2 (-53) <= v * pow2 (-53)).
      { apply Qmult_le_compat_r; [exact Hm52|lra]. }
      assert (Heq : pow2 52 * pow2 c * pow2 (-53) == (1 # 2) * pow2 c).
      { change (pow2 52) with 4503599627370496.
        change (pow2 (-53)) with (1 # 9007199254740992). ring. }
      lra. }
  apply Qabs_Qle_condition. split; lra.
Qed.

End Rounding.

(** * Numerals: what [toString] and [toFixed] write *)

Lemma all_digits_app (a b : string) :
  all_digits (a ++ b) = all_digits a && all_digits b.
Proof.
  induction a as [|c a IH]; cbn [append all_digits]; [reflexivity|].
  now rewrite IH, andb_assoc.
Qed.

Lemma length_app (a b : string) :
  String.length (a ++ b) = (String.length a + String.length b)%nat.
Proof. induction a as [|c a IH]; cbn; [reflexivity|now rewrite IH]. Qed.

Lemma app_assoc (a b c : string) : (a ++ b) ++ c = a ++ (b ++ c).
Proof. induction a as [|x a IH]; cbn; [reflexivity|now rewrite IH]. Qed.

Lemma all_digits_zeros (n : nat) : all_digits (zeros n) = true.
Proof. induction n as [|n IH]; [reflexivity|exact IH]. Qed.

Lemma length_zeros (n : nat) : String.length (zeros n) = n.
Proof. induction n as [|n IH]; cbn; [reflexivity|now rewrite IH]. Qed.

Lemma digits_value_app (a b : string) (acc : Z) :
  digits_value (a ++ b) acc = digits_value b (digits_value a acc).
Proof.
  revert acc. induction a as [|c a IH]; intros acc; cbn [append digits_value];
    [reflexivity|apply IH].
Qed.

Lemma digits_value_zeros (n : nat) : digits_value (zeros n) 0 = 0.
Proof. induction n as [|n IH]; [reflexivity|exact IH]. Qed.

(** ** The numeral of a BigInt *)

Lemma all_digits_of_uint (d : Decimal.uint) :
  all_digits (NilEmpty.string_of_uint d) = true.
Proof. induction d; cbn; auto. Qed.

Lemma digits_value_of_uint_acc (d : Decimal.uint) (acc : positive) :
  digits_value (NilEmpty.string_of_uint d) (Zpos acc) = Zpos (Pos.of_uint_acc d acc).
Proof.
  revert acc. induction d; intros acc; cbn [NilEmpty.string_of_uint digits_value Pos.of_uint_acc];
    [reflexivity|..];
    match goal with
    | |- context [digit_value ?c] =>
        let v := eval vm_compute in (digit_value c) in change (digit_value c) with v
    end;
    match goal with
    | |- digits_value _ ?z = Zpos (Pos.of_uint_acc _ ?p) =>
        replace z with (Zpos p) by lia
    end; apply IHd.
Qed.

Lemma digits_value_of_uint (d : Decimal.uint) :
  digits_value (NilEmpty.string_of_uint d) 0 = Z.of_N (Pos.of_uint d).
Proof.
  induction d; cbn [NilEmpty.string_of_uint digits_value Pos.of_uint];
    [reflexivity|exact IHd|..];
    match goal with
    | |- context [digit_value ?c] =>
        let v := eval vm_compute in (digit_value c) in change (digit_value c) with v
    end;
    match goal with
    | |- digits_value _ ?z = Z.of_N (Npos (Pos.of_uint_acc _ ?p)) =>
        change z with (Zpos p)
    end; apply digits_value_of_uint_acc.
Qed.

Lemma BigInt_toString_pos (p : positive) :
  BigInt_toString (Zpos p) = NilEmpty.string_of_uint (Pos.to_uint p).
Proof.
  unfold BigInt_toString. cbn [Z.to_int NilZero.string_of_int].
  pose proof (DecimalPos.Unsigned.to_uint_nonnil p) as Hnil.
  unfold NilZero.string_of_uint. destruct (Pos.to_uint p); [now elim Hnil|reflexivity..].
Qed.

(** The numeral of a non-negative BigInt is made of digits, at least one. *)
Lemma BigInt_toString_numeral (z : Z) :
  0 <= z -> is_decimal_numeral (BigInt_toString z) = true.
Proof.
  intros Hz. destruct z as [|p|p]; [reflexivity| |lia].
  rewrite BigInt_toString_pos.
  pose proof (DecimalPos.Unsigned.to_uint_nonnil p) as Hnil.
  pose proof (all_digits_of_uint (Pos.to_uint p)) as Hall.
  destruct (Pos.to_uint p); [now elim Hnil|exact Hall..].
Qed.

Lemma is_decimal_numeral_all (s : string) :
  is_decimal_numeral s = true -> all_digits s = true /\ s <> "".
Proof. destruct s; [discriminate|]. intros H. split; [exact H|discriminate]. Qed.

(** Reading the numeral of a non-negative BigInt gives the BigInt back. *)
Lemma digits_value_BigInt_toString (z : Z) :
  0 <= z -> digits_value (BigInt_toString z) 0 = z.
Proof.
  intros Hz. destruct z as [|p|p]; [reflexivity| |lia].
  rewrite BigInt_toString_pos, digits_value_of_uint, DecimalPos.Unsigned.of_to. reflexivity.
Qed.

(** ** Fixed-point notation *)

Lemma substring_all (s : string) : substring 0 (String.length s) s = s.
Proof. induction s as [|c s IH]; cbn; [reflexivity|now rewrite IH]. Qed.

Lemma substring_split (s : string) (n : nat) :
  (n <= String.length s)%nat ->
  substring 0 n s ++ substring n (String.length s - n) s = s /\
  String.length (substring 0 n s) = n.
Proof.
  revert n. induction s as [|c s IH]; intros n Hn.
  - cbn in Hn. assert (n = 0)%nat as -> by lia. now split.
  - destruct n as [|n].
    + cbn [substring append]. rewrite Nat.sub_0_r. split; [|reflexivity].
      change (substring 0 (String.length (String c s)) (String c s) = String c s).
      apply substring_all.
    + cbn in Hn. destruct (IH n ltac:(lia)) as [H1 H2].
      cbn [substring append String.length Nat.sub]. rewrite H1, H2. now split.
Qed.

Lemma is_fraction_digits (f : nat) (b : string) :
  all_digits b = true -> String.length b = f -> is_fraction f b = true.
Proof.
  revert f. induction b as [|c b IH]; intros f Hall Hlen.
  - cbn in Hlen. now subst f.
  - cbn in Hlen. subst f. cbn in Hall |- *. apply andb_prop in Hall as [Hc Hb].
    rewrite Hc. now apply IH.
Qed.

Lemma is_fixed_decimal_from_app (seen : bool) (f : nat) (a b : string) :
  all_digits a = true -> (seen = true \/ a <> "") ->
  all_digits b = true -> String.length b = f ->
  is_fixed_decimal_from seen f (a ++ "." ++ b) = true.
Proof.
  intros Ha Hseen Hb Hlen. revert seen Hseen.
  induction a as [|c a IH]; intros seen Hseen.
  - cbn. destruct Hseen as [->|Hne]; [|now elim Hne].
    now apply is_fraction_digits.
  - cbn in Ha. apply andb_prop in Ha as [Hc Ha].
    cbn [append is_fixed_decimal_from]. rewrite Hc. apply IH; [exact Ha|now left].
Qed.

(** The digits of [n] with a point before the last [f]: a numeral, the point,
    [f] digits; read without the point it is [n]. *)
Lemma fixed_point_digits_split (n : Z) (f : nat) :
  0 <= n -> (0 < f)%nat ->
  exists a b,
    fixed_point_digits n f = a ++ "." ++ b /\
    is_decimal_numeral a = true /\
    all_digits b = true /\ String.length b = f /\
    digits_value (a ++ b) 0 = n.
Proof.
  intros Hn Hf. unfold fixed_point_digits. destruct f as [|f']; [lia|].
  set (f := S f') in *.
  destruct (is_decimal_numeral_all _ (BigInt_toString_numeral n Hn)) as [Hall Hne].
  pose proof (digits_value_BigInt_toString n Hn) as Hval.
  set (m0 := BigInt_toString n) in *.
  set (m := if (String.length m0 <=? f)%nat
            then zeros (f + 1 - String.length m0) ++ m0 else m0).
  assert (Hm : all_digits m = true /\ (f + 1 <= String.length m)%nat /\
               digits_value m 0 = n).
  { unfold m. destruct (Nat.leb_spec (String.length m0) f) as [Hle|Hgt].
    - rewrite all_digits_app, all_digits_zeros, length_app, length_zeros,
        digits_value_app, digits_value_zeros.
      split; [exact Hall|]. split; [lia|exact Hval].
    - split; [exact Hall|]. split; [lia|exact Hval]. }
  destruct Hm as (Hmall & Hmlen & Hmval).
  destruct (substring_split m (String.length m - f) ltac:(lia)) as [Hsplit Hlen].
  replace (String.length m - (String.length m - f))%nat with f in Hsplit by lia.
  set (a := substring 0 (String.length m - f) m) in *.
  set (b := substring (String.length m - f) f m) in *.
  exists a, b.
  assert (Hab : all_digits a = true /\ all_digits b = true).
  { rewrite <- Hsplit, all_digits_app in Hmall. now apply andb_prop in Hmall. }
  destruct Hab as [Ha Hb].
  split; [reflexivity|]. split; [|split; [exact Hb|split]].
  - destruct a; [cbn in Hlen; lia|exact Ha].
  - apply (f_equal String.length) in Hsplit. rewrite length_app, Hlen in Hsplit. lia.
  - now rewrite Hsplit.
Qed.

Lemma fixed_point_digits_valid (n : Z) (f : nat) :
  0 <= n -> (0 < f)%nat -> is_fixed_decimal f (fixed_point_digits n f) = true.
Proof.
  intros Hn Hf.
  destruct (fixed_point_digits_split n f Hn Hf) as (a & b & -> & Ha & Hb & Hlen & _).
  destruct (is_decimal_numeral_all a Ha) as [Hall Hne].
  apply is_fixed_decimal_from_app; auto.
Qed.

(** ** Reading numerals back *)

Lemma leading_digits_app (a rest : string) :
  all_digits a = true -> no_leading_digit rest ->
  leading_digits (a ++ rest) = (a, rest).
Proof.
  intros Ha Hrest. induction a as [|c a IH].
  - cbn [append]. destruct rest as [|c r]; [reflexivity|].
    cbn in Hrest |- *. now rewrite Hrest.
  - cbn in Ha. apply andb_prop in Ha as [Hc Ha].
    cbn [append leading_digits]. rewrite Hc, (IH Ha). reflexivity.
Qed.

Lemma not_Infinity (a rest : string) :
  is_decimal_numeral a = true -> String.eqb (a ++ rest) "Infinity" = false.
Proof.
  destruct a as [|c a]; [discriminate|]. cbn [is_decimal_numeral all_digits].
  intros H. apply andb_prop in H as [Hc _]. cbn [append String.eqb].
  destruct (Ascii.eqb_spec c "I") as [->|Hne]; [discriminate Hc|reflexivity].
Qed.

Lemma exponent_tail_no_digit (t : string) : exponent_tail t -> no_leading_digit t.
Proof. intros [->|[t' ->]]; [exact I|reflexivity]. Qed.

Lemma fraction_part_none (t : string) :
  exponent_tail t -> fraction_part t = Some ("", t).
Proof. intros [->|[t' ->]]; reflexivity. Qed.

Lemma numeral_value_integer (a t : string) (ex : Z) :
  is_decimal_numeral a = true ->
  exponent_tail t -> exponent_value t = Some ex ->
  numeral_value (a ++ t) =
  Some (Rep_value (inject_Z (digits_value a 0) * Qpower 10 ex)).
Proof.
  intros Ha Ht Hex. unfold numeral_value.
  rewrite (not_Infinity a t Ha).
  destruct (is_decimal_numeral_all a Ha) as [Hall Hne].
  rewrite (leading_digits_app a t Hall (exponent_tail_no_digit t Ht)).
  destruct a as [|c a]; [now elim Hne|].
  rewrite (fraction_part_none t Ht), Hex.
  cbn [String.length Z.of_nat]. rewrite Z.sub_0_r.
  replace (String c a ++ "") with (String c a); [reflexivity|].
  clear. generalize (String c a). intros s. induction s; cbn; [reflexivity|now f_equal].
Qed.

Lemma numeral_value_fraction (a b t : string) (ex : Z) :
  is_decimal_numeral a = true -> is_decimal_numeral b = true ->
  exponent_tail t -> exponent_value t = Some ex ->
  numeral_value (a ++ "." ++ b ++ t) =
  Some (Rep_value (inject_Z (digits_value (a ++ b) 0) *
                   Qpower 10 (ex - Z.of_nat (String.length b)))).
Proof.
  intros Ha Hb Ht Hex. unfold numeral_value.
  rewrite (not_Infinity a _ Ha).
  destruct (is_decimal_numeral_all a Ha) as [Hall Hne].
  destruct (is_decimal_numeral_all b Hb) as [Hball Hbne].
  rewrite (leading_digits_app a ("." ++ b ++ t) Hall); [|reflexivity].
  destruct a as [|c a]; [now elim Hne|].
  cbn [append fraction_part]. 
  change (Ascii.eqb "." ".") with true. cbn iota.
  rewrite (leading_digits_app b t Hball (exponent_tail_no_digit t Ht)).
  destruct b as [|c' b]; [now elim Hbne|].
  rewrite Hex. reflexivity.
Qed.

Lemma numeral_value_fixed_point_digits (n : Z) (f : nat) :
  0 <= n -> (0 < f)%nat ->
  numeral_value (fixed_point_digits n f) =
  Some (Rep_value (inject_Z n * Qpower 10 (- Z.of_nat f))).
Proof.
  intros Hn Hf.
  destruct (fixed_point_digits_split n f Hn Hf) as (a & b & -> & Ha & Hb & Hlen & Hval).
  assert (Hbnum : is_decimal_numeral b = true).
  { destruct b; [cbn in Hlen; lia|exact Hb]. }
  pose proof (numeral_value_fraction a b "" 0 Ha Hbnum (or_introl eq_refl) eq_refl) as H.
  replace (b ++ "") with b in H.
  - rewrite H, Hval, Hlen. reflexivity.
  - clear. induction b; cbn; [reflexivity|now f_equal].
Qed.

(** ** The two notations of [toFixed] *)

Lemma Qabs_nonneg_eq (r : Q) : (0 <= r)%Q -> (Qabs r == r)%Q.
Proof. intros H. now apply Qabs_pos. Qed.

Lemma Number_toFixed_fixed (x : spec_float) (f : nat) :
  Number_nonneg x -> uses_fixed_notation x = true ->
  Number_toFixed x f = fixed_point_digits (nearest_scaled (Number_value x) f) f.
Proof.
  intros Hnn Hfix.
  pose proof (Number_value_nonneg x Hnn) as Hv.
  assert (Hsign : Qle_bool 0 (Number_value x) = true) by now apply Qle_bool_iff.
  assert (Habs : (Qabs (Number_value x) == Number_value x)%Q) by now apply Qabs_nonneg_eq.
  assert (Hn : nearest_scaled (Qabs (Number_value x)) f = nearest_scaled (Number_value x) f).
  { unfold nearest_scaled. now rewrite Habs. }
  destruct x as [s|s| |s m e]; try discriminate Hfix; unfold Number_toFixed;
    unfold uses_fixed_notation in Hfix; apply negb_true_iff in Hfix;
    rewrite Hsign, Hfix, Hn; reflexivity.
Qed.

Lemma Number_toFixed_large (x : spec_float) (f : nat) :
  Number_nonneg x -> uses_fixed_notation x = false ->
  Number_toFixed x f = Number_toString x.
Proof.
  intros Hnn Hfix.
  pose proof (Number_value_nonneg x Hnn) as Hv.
  assert (Hsign : Qle_bool 0 (Number_value x) = true) by now apply Qle_bool_iff.
  destruct x as [s|s| |[|] m e]; cbn [Number_nonneg] in Hnn; try contradiction;
    try reflexivity.
  - discriminate Hfix.
  - unfold Number_toFixed. unfold uses_fixed_notation in Hfix.
    apply negb_false_iff in Hfix. rewrite Hsign, Hfix. reflexivity.
Qed.

Lemma nearest_scaled_nonneg (r : Q) (f : nat) : (0 <= r)%Q -> 0 <= nearest_scaled r f.
Proof.
  intros Hr. unfold nearest_scaled.
  change 0 with (Qfloor 0). apply Qfloor_resp_le.
  assert (0 < Qpower 10 (Z.of_nat f))%Q by (apply Qpower_0_lt; reflexivity).
  assert (0 <= r * Qpower 10 (Z.of_nat f))%Q by (apply Qmult_le_0_compat; lra).
  lra.
Qed.

(** * [toString] of a Number: the shortest numeral that reads back *)

Section ShortestNumeral.

Local Open Scope Q_scope.

Lemma rounds_to_bounds (m e : Z) (v : Q) :
  rounds_to m e v = true -> round_lo m e <= v /\ v <= round_hi m e.
Proof.
  unfold rounds_to. destruct (Z.even m); intros H; apply andb_prop in H as [H1 H2].
  - now rewrite !Qle_bool_iff in *.
  - apply negb_true_iff in H1, H2.
    split; apply Qlt_le_weak, Qnot_le_lt; intros Hle;
      apply Qle_bool_iff in Hle; congruence.
Qed.

Lemma Number_in_own_interval (m e : Z) :
  round_lo m e <= inject_Z m * pow2 e /\ inject_Z m * pow2 e <= round_hi m e.
Proof.
  unfold round_lo, round_hi. fold (pow2 e) (pow2 (e - 1)) (pow2 (e - 2)).
  change (m # 1) with (inject_Z m).
  pose proof (pow2_pos (e - 1)). pose proof (pow2_pos (e - 2)).
  destruct (_ && _); split; lra.
Qed.

(** A digit string accepted at weight [10^p] is positive and rounds to the
    Number. *)
Lemma decimal_candidate_sound (m e p s : Z) :
  (0 < m)%Z ->
  decimal_candidate m e p = Some s ->
  (0 < s)%Z /\ rounds_to m e (inject_Z s * Qpower 10 p) = true.
Proof.
  intros Hm. unfold decimal_candidate.
  change (m # 1) with (inject_Z m). fold (pow2 e).
  set (x := inject_Z m * pow2 e).
  set (a := Qfloor (x / Qpower 10 p)).
  change ((a # 1) * Qpower 10 p) with (inject_Z a * Qpower 10 p).
  change ((a + 1 # 1) * Qpower 10 p) with (inject_Z (a + 1) * Qpower 10 p).
  assert (Ha : (0 <= a)%Z).
  { unfold a. change 0%Z with (Qfloor 0). apply Qfloor_resp_le.
    apply Qle_shift_div_l; [apply Qpower_0_lt; reflexivity|].
    unfold x. rewrite Qmult_0_l. apply Qmult_le_0_compat.
    - change 0 with (inject_Z 0). rewrite <- Zle_Qle. lia.
    - apply Qlt_le_weak, pow2_pos. }
  destruct ((0 <? a)%Z && rounds_to m e (inject_Z a * Qpower 10 p)) eqn:Hoka;
    destruct (rounds_to m e (inject_Z (a + 1) * Qpower 10 p)) eqn:Hokb.
  - apply andb_prop in Hoka as [Hpos Hra]. apply Z.ltb_lt in Hpos.
    destruct (_ ?= _); [destruct (Z.even a)| |]; intros [= <-];
      (split; [lia|assumption]).
  - apply andb_prop in Hoka as [Hpos Hra]. apply Z.ltb_lt in Hpos.
    intros [= <-]. now split.
  - intros [= <-]. split; [lia|assumption].
  - discriminate.
Qed.

Lemma shortest_decimal_from_sound (fuel : nat) (m e p s p' : Z) :
  (0 < m)%Z -> (0 <= e)%Z ->
  shortest_decimal_from fuel m e p = (s, p') ->
  (0 < s)%Z /\
  round_lo m e <= inject_Z s * Qpower 10 p' /\
  inject_Z s * Qpower 10 p' <= round_hi m e.
Proof.
  intros Hm He. revert p. induction fuel as [|fuel IH]; intros p;
    cbn [shortest_decimal_from];
    destruct (decimal_candidate m e p) as [s0|] eqn:Hcand.
  - intros [= <- <-]. destruct (decimal_candidate_sound m e p s0 Hm Hcand) as [Hs Hr].
    split; [exact Hs|]. now apply rounds_to_bounds.
  - rewrite Z.min_r by lia. change (- 0)%Z with 0%Z. intros [= <- <-].
    rewrite Z.sub_0_r, Z.mul_1_r.
    assert (H2e : (0 < 2 ^ e)%Z) by (apply Z.pow_pos_nonneg; lia).
    split; [nia|].
    change (Qpower 10 0) with 1. rewrite Qmult_1_r.
    rewrite inject_Z_mult, inject_Z_pow2 by lia. apply Number_in_own_interval.
  - intros [= <- <-]. destruct (decimal_candidate_sound m e p s0 Hm Hcand) as [Hs Hr].
    split; [exact Hs|]. now apply rounds_to_bounds.
  - apply IH.
Qed.

(** The numeral [toString] chooses for a positive Number with a non-negative
    exponent denotes a real that rounds to the Number. *)
Lemma shortest_decimal_sound (m e s p : Z) :
  (0 < m)%Z -> (0 <= e)%Z ->
  shortest_decimal m e = (s, p) ->
  (0 < s)%Z /\
  round_lo m e <= inject_Z s * Qpower 10 p /\
  inject_Z s * Qpower 10 p <= round_hi m e.
Proof.
  intros Hm He. unfold shortest_decimal. apply shortest_decimal_from_sound; assumption.
Qed.

(** ** The number of digits of a numeral *)

Lemma digit_value_range (c : ascii) :
  is_digit c = true -> (0 <= digit_value c <= 9)%Z.
Proof.
  unfold is_digit, digit_value. intros H. apply andb_prop in H as [H1 H2].
  apply Nat.leb_le in H1, H2. lia.
Qed.

Lemma digits_value_bounds (s : string) (acc : Z) :
  all_digits s = true -> (0 <= acc)%Z ->
  (acc * 10 ^ Z.of_nat (String.length s) <= digits_value s acc
   < (acc + 1) * 10 ^ Z.of_nat (String.length s))%Z.
Proof.
  revert acc. induction s as [|c s IH]; intros acc Hall Hacc.
  - cbn. lia.
  - cbn [all_digits] in Hall. apply andb_prop in Hall as [Hc Hs].
    pose proof (digit_value_range c Hc) as Hd.
    cbn [digits_value String.length]. rewrite Nat2Z.inj_succ, Z.pow_succ_r by lia.
    specialize (IH (10 * acc + digit_value c)%Z Hs ltac:(lia)).
    assert (0 < 10 ^ Z.of_nat (String.length s))%Z by (apply Z.pow_pos_nonneg; lia).
    nia.
Qed.

Lemma BigInt_toString_length (z : Z) :
  (0 <= z)%Z -> (z < 10 ^ Z.of_nat (String.length (BigInt_toString z)))%Z.
Proof.
  intros Hz.
  destruct (is_decimal_numeral_all _ (BigInt_toString_numeral z Hz)) as [Hall _].
  pose proof (digits_value_bounds _ 0%Z Hall ltac:(lia)) as H.
  rewrite (digits_value_BigInt_toString z Hz) in H. lia.
Qed.

(** ** Exponent notation *)

Lemma exponent_value_plus (ex : Z) :
  (0 <= ex)%Z ->
  exponent_value (String "e" (String "+" (BigInt_toString ex))) = Some ex.
Proof.
  intros Hex. unfold exponent_value.
  rewrite (BigInt_toString_numeral ex Hex). cbn.
  now rewrite (digits_value_BigInt_toString ex Hex).
Qed.

(** From [10^21] on, [toString] writes exponent notation, and the numeral
    reads back as the digit string times its power of ten. *)
Lemma Number_toString_exponent_value (m : positive) (e s p : Z) :
  shortest_decimal (Zpos m) e = (s, p) ->
  (0 < s)%Z ->
  Qpower 10 21 <= inject_Z s * Qpower 10 p ->
  numeral_value (Number_toString (S754_finite false m e)) =
  Some (Rep_value (inject_Z s * Qpower 10 p)).
Proof.
  intros Hshort Hs Hlarge. unfold Number_toString. rewrite Hshort.
  destruct (is_decimal_numeral_all _ (BigInt_toString_numeral s ltac:(lia))) as [Hall Hne].
  pose proof (digits_value_BigInt_toString s ltac:(lia)) as Hval.
  pose proof (BigInt_toString_length s ltac:(lia)) as Hlen.
  set (digits := BigInt_toString s) in *.
  set (k := Z.of_nat (String.length digits)) in *.
  assert (Hk : (1 <= k)%Z).
  { unfold k. destruct digits; [now elim Hne|]. cbn [String.length]. lia. }
  assert (Hn : (21 < k + p)%Z).
  { apply (Qpower_lt_compat_l_inv 10); [|reflexivity].
    eapply Qle_lt_trans; [exact Hlarge|].
    rewrite Qpower_plus by discriminate.
    apply Qmult_lt_compat_r; [apply Qpower_0_lt; reflexivity|].
    change 10 with (inject_Z 10). rewrite <- Zpower_Qpower by lia.
    now rewrite <- Zlt_Qlt. }
  replace ((k <=? k + p)%Z && (k + p <=? 21)%Z) with false
    by (symmetry; apply andb_false_intro2, Z.leb_gt; lia).
  replace ((0 <? k + p)%Z && (k + p <=? 21)%Z) with false
    by (symmetry; apply andb_false_intro2, Z.leb_gt; lia).
  replace ((-6 <? k + p)%Z && (k + p <=? 0)%Z) with false
    by (symmetry; apply andb_false_intro2, Z.leb_gt; lia).
  replace (k + p - 1 <? 0)%Z with false by (symmetry; apply Z.ltb_ge; lia).
  rewrite Z.abs_eq by lia.
  change ("" ++ ?x)%string with x.
  set (tail := ("e" ++ "+" ++ BigInt_toString (k + p - 1))%string).
  assert (Htail : exponent_tail tail) by (right; eexists; reflexivity).
  assert (Hex : exponent_value tail = Some (k + p - 1)%Z)
    by (apply exponent_value_plus; lia).
  destruct (Z.eqb_spec k 1) as [Hk1|Hk1].
  - rewrite (numeral_value_integer digits tail _ ltac:(destruct digits; [now elim Hne|exact Hall])
               Htail Hex).
    rewrite Hval. now replace (k + p - 1)%Z with p by lia.
  - destruct (substring_split digits 1 ltac:(lia)) as [Hsplit Hlen1].
    replace (Z.to_nat (k - 1)) with (String.length digits - 1)%nat by lia.
    set (a := substring 0 1 digits) in *.
    set (b := substring 1 (String.length digits - 1) digits) in *.
    assert (Hab : all_digits a = true /\ all_digits b = true).
    { rewrite <- Hsplit, all_digits_app in Hall. now apply andb_prop in Hall. }
    destruct Hab as [Ha Hb].
    assert (Hlenb : String.length b = (String.length digits - 1)%nat).
    { apply (f_equal String.length) in Hsplit. rewrite length_app, Hlen1 in Hsplit. lia. }
    assert (Hanum : is_decimal_numeral a = true)
      by (destruct a; [discriminate Hlen1|exact Ha]).
    assert (Hbnum : is_decimal_numeral b = true).
    { destruct b; [cbn in Hlenb; lia|exact Hb]. }
    rewrite (numeral_value_fraction a b tail _ Hanum Hbnum Htail Hex).
    rewrite Hsplit, Hval, Hlenb.
    now replace (k + p - 1 - Z.of_nat (String.length digits - 1))%Z with p by lia.
Qed.

(** ** Numbers from [10^21] on *)

(** A canonical Number of at least [10^21] has a full mantissa and an exponent
    of at least 17. *)
Lemma large_canonical (m : positive) (e : Z) :
  bounded Number_prec Number_emax m e = true ->
  Qpower 10 21 <= inject_Z (Zpos m) * pow2 e ->
  (17 <= e)%Z /\ (2 ^ 52 <= Zpos m < 2 ^ 53)%Z.
Proof.
  unfold bounded, canonical_mantissa. intros Hb Hlarge.
  apply andb_prop in Hb as [Hcan _]. apply Z.eqb_eq in Hcan.
  change (fexp Number_prec Number_emax) with fexp64 in Hcan. rewrite fexp64_eq in Hcan.
  pose proof (digits2_pos_bounds m) as [Hlo Hhi].
  assert (Hm53 : (Zpos m < 2 ^ 53)%Z).
  { eapply Z.lt_le_trans; [exact Hhi|]. apply Z.pow_le_mono_r; lia. }
  assert (He : (17 <= e)%Z).
  { destruct (Z_le_gt_dec 17 e) as [|Hgt]; [assumption|exfalso].
    assert (inject_Z (Zpos m) * pow2 e < pow2 53 * pow2 16).
    { apply Qlt_le_trans with (pow2 53 * pow2 e).
      - apply scale_lt. rewrite <- inject_Z_pow2 by lia. now rewrite <- Zlt_Qlt.
      - apply Qmult_le_l; [apply pow2_pos|apply pow2_le; lia]. }
    assert (pow2 53 * pow2 16 < Qpower 10 21) by reflexivity.
    lra. }
  split; [exact He|]. split; [|exact Hm53].
  replace (Zpos (digits2_pos m)) with 53%Z in Hlo by lia. exact Hlo.
Qed.

Lemma round_lo_ge (m e : Z) :
  inject_Z m * pow2 e - pow2 (e - 1) <= round_lo m e.
Proof.
  unfold round_lo. fold (pow2 e) (pow2 (e - 1)) (pow2 (e - 2)).
  change (m # 1) with (inject_Z m).
  assert (pow2 (e - 2) <= pow2 (e - 1)) by (apply pow2_le; lia).
  destruct (_ && _); lra.
Qed.

Lemma ten21_value : Qpower 10 21 == inject_Z 7629394531250000 * pow2 17.
Proof. reflexivity. Qed.

(** The numeral [toString] chooses for a canonical Number of at least
    [10^21] denotes at least [10^21]. *)
Lemma large_shortest_decimal (m : positive) (e s p : Z) :
  bounded Number_prec Number_emax m e = true ->
  Qpower 10 21 <= inject_Z (Zpos m) * pow2 e ->
  shortest_decimal (Zpos m) e = (s, p) ->
  Qpower 10 21 <= inject_Z s * Qpower 10 p.
Proof.
  intros Hb Hlarge Hshort.
  destruct (large_canonical m e Hb Hlarge) as [He [Hmlo Hmhi]].
  destruct (shortest_decimal_sound (Zpos m) e s p ltac:(lia) ltac:(lia) Hshort)
    as (Hs & Hlo & Hhi).
  pose proof (round_lo_ge (Zpos m) e) as Hrlo.
  assert (Hhalf : pow2 e == 2 * pow2 (e - 1)).
  { replace e with (e - 1 + 1)%Z at 1 by lia. apply pow2_succ. }
  destruct (Z.eq_dec e 17) as [->|He17].
  - destruct (Z.eq_dec (Zpos m) 7629394531250000) as [Hm|Hm].
    + injection Hm as ->. vm_compute in Hshort. injection Hshort as <- <-.
      apply Qle_refl.
    + assert (Hm' : (7629394531250001 <= Zpos m)%Z).
      { rewrite ten21_value in Hlarge.
        apply Qmult_le_r in Hlarge; [|apply pow2_pos].
        rewrite <- Zle_Qle in Hlarge. lia. }
      eapply Qle_trans; [|exact Hlo]. eapply Qle_trans; [|exact Hrlo].
      change (17 - 1)%Z with 16%Z.
      assert (inject_Z 7629394531250001 * pow2 17 <= inject_Z (Zpos m) * pow2 17).
      { apply scale_le. now rewrite <- Zle_Qle. }
      assert (Qpower 10 21 <= inject_Z 7629394531250001 * pow2 17 - pow2 16)
        by (vm_compute; discriminate).
      lra.
  - eapply Qle_trans; [|exact Hlo]. eapply Qle_trans; [|exact Hrlo].
    rewrite Hhalf.
    assert (H1 : pow2 17 <= pow2 (e - 1)) by (apply pow2_le; lia).
    assert (H2 : inject_Z (2 ^ 52) <= inject_Z (Zpos m)) by now rewrite <- Zle_Qle.
    assert (H3 : inject_Z (2 ^ 52) * pow2 17 <= inject_Z (Zpos m) * pow2 (e - 1)).
    { apply Qle_trans with (inject_Z (2 ^ 52) * pow2 (e - 1)).
      - apply Qmult_le_l; [reflexivity|exact H1].
      - now apply scale_le. }
    assert (Qpower 10 21 <= 2 * (inject_Z (2 ^ 52) * pow2 17) - pow2 17)
      by (vm_compute; discriminate).
    pose proof (pow2_pos (e - 1)).
    assert (H4 : inject_Z (Zpos m) * pow2 (e - 1) - pow2 (e - 1) >=
                 inject_Z (2 ^ 52) * pow2 17 - pow2 17).
    { assert (Hk : (inject_Z (2 ^ 52) - 1) * pow2 17 <= (inject_Z (Zpos m) - 1) * pow2 (e - 1)).
      { apply Qle_trans with ((inject_Z (2 ^ 52) - 1) * pow2 (e - 1)).
        - apply Qmult_le_l; [reflexivity|exact H1].
        - apply scale_le. lra. }
      lra. }
    lra.
Qed.

(** Two canonical Numbers of at least [10^21], in order: they are the same
    Number, or every real that rounds to the first is below every real that
    rounds to the second. *)
Lemma large_order (m m' : positive) (e e' : Z) :
  (17 <= e)%Z -> (2 ^ 52 <= Zpos m < 2 ^ 53)%Z ->
  (17 <= e')%Z -> (2 ^ 52 <= Zpos m' < 2 ^ 53)%Z ->
  inject_Z (Zpos m) * pow2 e <= inject_Z (Zpos m') * pow2 e' ->
  (m = m' /\ e = e') \/ round_hi (Zpos m) e <= round_lo (Zpos m') e'.
Proof.
  intros He Hm He' Hm' Hle.
  pose proof (pow2_pos e) as Hu. pose proof (pow2_pos e') as Hu'.
  assert (Hmq : inject_Z (2 ^ 52) <= inject_Z (Zpos m) /\
                inject_Z (Zpos m) + 1 <= inject_Z (2 ^ 53)).
  { split; [rewrite <- Zle_Qle; lia|].
    change 1 with (inject_Z 1). rewrite <- inject_Z_plus, <- Zle_Qle. lia. }
  assert (Hmq' : inject_Z (2 ^ 52) <= inject_Z (Zpos m') /\
                 inject_Z (Zpos m') + 1 <= inject_Z (2 ^ 53)).
  { split; [rewrite <- Zle_Qle; lia|].
    change 1 with (inject_Z 1). rewrite <- inject_Z_plus, <- Zle_Qle. lia. }
  destruct Hmq as [Hmlo Hmhi]. destruct Hmq' as [Hmlo' Hmhi'].
  change (inject_Z (2 ^ 52)) with 4503599627370496 in *.
  change (inject_Z (2 ^ 53)) with 9007199254740992 in *.
  assert (Hlo_u : 4503599627370496 * pow2 e <= inject_Z (Zpos m) * pow2 e)
    by now apply scale_le.
  assert (Hhi_u : (inject_Z (Zpos m) + 1) * pow2 e <= 9007199254740992 * pow2 e)
    by now apply scale_le.
  assert (Hlo_u' : 4503599627370496 * pow2 e' <= inject_Z (Zpos m') * pow2 e')
    by now apply scale_le.
  assert (Hhi_u' : (inject_Z (Zpos m') + 1) * pow2 e' <= 9007199254740992 * pow2 e')
    by now apply scale_le.
  destruct (Z.lt_trichotomy e e') as [Hlt|[Heq|Hgt]].
  - right.
    assert (Hstep : 2 * pow2 e <= pow2 e').
    { rewrite <- pow2_succ. apply pow2_le. lia. }
    pose proof (pow2_pred e) as Hp1. pose proof (pow2_pred e') as Hp2.
    assert (Hp3 : pow2 (e' - 2) == pow2 (e' - 1) * (1 # 2)).
    { replace (e' - 2)%Z with (e' - 1 - 1)%Z by lia. apply pow2_pred. }
    unfold round_hi, round_lo.
    fold (pow2 e) (pow2 e') (pow2 (e - 1)) (pow2 (e' - 1)) (pow2 (e' - 2)).
    change (Zpos m # 1) with (inject_Z (Zpos m)).
    change (Zpos m' # 1) with (inject_Z (Zpos m')).
    change (2 ^ (Number_prec - 1))%Z with 4503599627370496%Z.
    destruct (Z.eqb_spec (Zpos m') 4503599627370496) as [Heq|Hne].
    + replace (emin Number_prec Number_emax <? e')%Z with true
        by (symmetry; apply Z.ltb_lt; change (emin Number_prec Number_emax) with (-1074)%Z; lia).
      cbn [andb]. rewrite Heq in *.
      change (inject_Z 4503599627370496) with 4503599627370496 in *. lra.
    + cbn [andb].
      assert (Hm1 : 4503599627370496 + 1 <= inject_Z (Zpos m')).
      { change (4503599627370496 + 1) with (inject_Z 4503599627370497).
        rewrite <- Zle_Qle. lia. }
      assert ((4503599627370496 + 1) * pow2 e' <= inject_Z (Zpos m') * pow2 e')
        by now apply scale_le.
      lra.
  - subst e'.
    assert (Hmm : (Zpos m <= Zpos m')%Z).
    { apply Qmult_le_r in Hle; [|exact Hu]. now rewrite <- Zle_Qle in Hle. }
    destruct (Z.eq_dec (Zpos m) (Zpos m')) as [Heq|Hne].
    + left. split; [now injection Heq|reflexivity].
    + right.
      assert (Hm1 : inject_Z (Zpos m) + 1 <= inject_Z (Zpos m')).
      { change 1 with (inject_Z 1). rewrite <- inject_Z_plus, <- Zle_Qle. lia. }
      assert ((inject_Z (Zpos m) + 1) * pow2 e <= inject_Z (Zpos m') * pow2 e)
        by now apply scale_le.
      eapply Qle_trans; [|apply round_lo_ge].
      unfold round_hi. fold (pow2 e) (pow2 (e - 1)).
      change (Zpos m # 1) with (inject_Z (Zpos m)).
      pose proof (pow2_pred e). lra.
  - exfalso.
    assert (Hstep : 2 * pow2 e' <= pow2 e).
    { rewrite <- pow2_succ. apply pow2_le. lia. }
    lra.
Qed.

(** ** What [toFixed(2)] reports, read back *)

Lemma fixed_notation_bound (x : spec_float) :
  Number_nonneg x -> uses_fixed_notation x = true -> Number_value x < Qpower 10 21.
Proof.
  intros Hnn Hfix. pose proof (Number_value_nonneg x Hnn) as Hv.
  destruct x as [s|s| |s m e]; try discriminate Hfix;
    unfold uses_fixed_notation in Hfix; apply negb_true_iff in Hfix;
    apply Qnot_le_lt; intros Hle;
    rewrite <- (Qabs_nonneg_eq _ Hv) in Hle; apply Qle_bool_iff in Hle; congruence.
Qed.

Lemma exponent_notation_bound (x : spec_float) :
  Number_nonneg x -> Number_finite x -> uses_fixed_notation x = false ->
  Qpower 10 21 <= Number_value x.
Proof.
  intros Hnn Hfin Hfix. pose proof (Number_value_nonneg x Hnn) as Hv.
  destruct x as [s|s| |s m e]; cbn [Number_finite] in Hfin; try contradiction;
    unfold uses_fixed_notation in Hfix; apply negb_false_iff in Hfix;
    apply Qle_bool_iff in Hfix; now rewrite (Qabs_nonneg_eq _ Hv) in Hfix.
Qed.

Lemma toFixed_reads_fixed (x : spec_float) :
  Number_nonneg x -> uses_fixed_notation x = true ->
  numeral_value (Number_toFixed x 2) =
  Some (Rep_value (inject_Z (nearest_scaled (Number_value x) 2) * (1 # 100))) /\
  inject_Z (nearest_scaled (Number_value x) 2) * (1 # 100) <= Qpower 10 21.
Proof.
  intros Hnn Hfix. split.
  - rewrite (Number_toFixed_fixed x 2 Hnn Hfix).
    rewrite numeral_value_fixed_point_digits; [reflexivity| |lia].
    apply nearest_scaled_nonneg, Number_value_nonneg, Hnn.
  - pose proof (fixed_notation_bound x Hnn Hfix) as Hlt.
    unfold nearest_scaled. change (Qpower 10 (Z.of_nat 2)) with 100.
    pose proof (Qfloor_le (Number_value x * 100 + (1 # 2))) as Hfl.
    set (n := Qfloor (Number_value x * 100 + (1 # 2))) in *.
    change (Qpower 10 21) with 1000000000000000000000 in *.
    assert (Hn : (n <= 100000000000000000000000)%Z).
    { assert (inject_Z n < inject_Z (100000000000000000000000 + 1)).
      { change (inject_Z (100000000000000000000000 + 1)) with 100000000000000000000001.
        lra. }
      rewrite <- Zlt_Qlt in H. lia. }
    rewrite Zle_Qle in Hn.
    change (inject_Z 100000000000000000000000) with 100000000000000000000000 in Hn.
    lra.
Qed.

Lemma toFixed_reads_large (m : positive) (e : Z) :
  bounded Number_prec Number_emax m e = true ->
  uses_fixed_notation (S754_finite false m e) = false ->
  exists v,
    numeral_value (Number_toFixed (S754_finite false m e) 2) = Some (Rep_value v) /\
    Qpower 10 21 <= v /\
    round_lo (Zpos m) e <= v /\ v <= round_hi (Zpos m) e.
Proof.
  intros Hb Hfix.
  pose proof (exponent_notation_bound (S754_finite false m e) I Hb Hfix) as Hlarge.
  cbn [Number_value] in Hlarge. fold (pow2 e) in Hlarge.
  change (Zpos m # 1) with (inject_Z (Zpos m)) in Hlarge.
  destruct (large_canonical m e Hb Hlarge) as [He Hm].
  destruct (shortest_decimal (Zpos m) e) as [s p] eqn:Hshort.
  destruct (shortest_decimal_sound (Zpos m) e s p ltac:(lia) ltac:(lia) Hshort)
    as (Hs & Hlo & Hhi).
  pose proof (large_shortest_decimal m e s p Hb Hlarge Hshort) as Hv.
  exists (inject_Z s * Qpower 10 p).
  split; [|split; [exact Hv|split; [exact Hlo|exact Hhi]]].
  rewrite (Number_toFixed_large (S754_finite false m e) 2 I Hfix).
  now apply Number_toString_exponent_value.
Qed.

(** The numerals [toFixed(2)] writes for two Numbers are ordered as the
    Numbers are. *)
Lemma toFixed_monotone (x x' : spec_float) :
  x = S754_infinity false \/ (Number_finite x /\ Number_nonneg x) ->
  x' = S754_infinity false \/ (Number_finite x' /\ Number_nonneg x') ->
  Number_le x x' ->
  numerically_le (Number_toFixed x 2) (Number_toFixed x' 2).
Proof.
  intros Hx Hx' Hle. unfold numerically_le.
  assert (Hreads : exists rep, numeral_value (Number_toFixed x 2) = Some rep).
  { destruct Hx as [->|[Hfin Hnn]]; [now exists Rep_infinity|].
    destruct (uses_fixed_notation x) eqn:Hfix.
    - eexists. apply (toFixed_reads_fixed x Hnn Hfix).
    - destruct x as [s|s| |[|] m e]; cbn [Number_finite Number_nonneg] in Hfin, Hnn;
        try contradiction; try discriminate Hfix.
      destruct (toFixed_reads_large m e Hfin Hfix) as (v & Hv & _). now exists (Rep_value v). }
  destruct Hx' as [->|[Hfin' Hnn']].
  { destruct Hreads as [rep ->]. exact I. }
  destruct Hx as [->|[Hfin Hnn]].
  { destruct x' as [s|s| |s m e]; cbn [Number_finite] in Hfin'; contradiction. }
  assert (Hval : Number_value x <= Number_value x').
  { destruct x' as [s'|s'| |s' m' e']; cbn [Number_finite] in Hfin'; try contradiction;
      destruct x as [s|s| |s m e]; cbn [Number_finite] in Hfin; try contradiction;
      exact Hle. }
  clear Hreads.
  destruct (uses_fixed_notation x) eqn:Hfix; destruct (uses_fixed_notation x') eqn:Hfix'.
  - destruct (toFixed_reads_fixed x Hnn Hfix) as [-> _].
    destruct (toFixed_reads_fixed x' Hnn' Hfix') as [-> _].
    cbn [Reported_le]. apply Qmult_le_compat_r; [|discriminate].
    rewrite <- Zle_Qle. unfold nearest_scaled. apply Qfloor_resp_le.
    change (Qpower 10 (Z.of_nat 2)) with 100. lra.
  - destruct (toFixed_reads_fixed x Hnn Hfix) as [-> Hbound].
    destruct x' as [s'|s'| |[|] m' e']; cbn [Number_finite Number_nonneg] in Hfin', Hnn';
      try contradiction; try discriminate Hfix'.
    destruct (toFixed_reads_large m' e' Hfin' Hfix') as (v' & -> & Hv' & _).
    cbn [Reported_le]. lra.
  - exfalso.
    pose proof (exponent_notation_bound x Hnn Hfin Hfix).
    pose proof (fixed_notation_bound x' Hnn' Hfix'). lra.
  - destruct x as [s|s| |[|] m e]; cbn [Number_finite Number_nonneg] in Hfin, Hnn;
      try contradiction; try discriminate Hfix.
    destruct x' as [s'|s'| |[|] m' e']; cbn [Number_finite Number_nonneg] in Hfin', Hnn';
      try contradiction; try discriminate Hfix'.
    pose proof (exponent_notation_bound (S754_finite false m e) I Hfin Hfix) as Hl.
    pose proof (exponent_notation_bound (S754_finite false m' e') I Hfin' Hfix') as Hl'.
    cbn [Number_value] in Hl, Hl', Hval.
    destruct (large_canonical m e Hfin Hl) as [He Hm].
    destruct (large_canonical m' e' Hfin' Hl') as [He' Hm'].
    destruct (large_order m m' e e' He Hm He' Hm' Hval) as [[-> ->]|Hord].
    + destruct (toFixed_reads_large m' e' Hfin' Hfix') as (v' & -> & _).
      cbn [Reported_le]. apply Qle_refl.
    + destruct (toFixed_reads_large m e Hfin Hfix) as (v & -> & _ & _ & Hhi).
      destruct (toFixed_reads_large m' e' Hfin' Hfix') as (v' & -> & _ & Hlo' & _).
      cbn [Reported_le]. lra.
Qed.

End ShortestNumeral.
(** * Properties of an invocation *)

Section Properties.

Variable imp : Imports.

Ltac unfold_world :=
  unfold reads_succeed, reaches_tokensPerInterval_read, reaches_totalSupply_read,
    last_notification_succeeds, tokensPerInterval_reply, totalSupply_reply,
    enters_try, calls, expected_trace in *; cbn [firstn] in *.

Ltac unfold_run :=
  unfold invoke, getALPAPR; cbn [chainName account].

Ltac run_async :=
  unfold bind, try_catch, notify, getProvider, contract_read, lift, ret;
  cbn [app publicClient address fst snd].

Ltac feed_world :=
  repeat (match goal with
          | H : notify_reply _ _ _ = _ |- _ => rewrite H
          | H : getProvider_reply _ _ _ = _ |- _ => rewrite H
          | H : read_reply _ _ _ _ _ = _ |- _ => rewrite H
          end; cbn).

(** The function reaches its [try] block on the supported network. *)
Lemma supported_passes_guards (chain : string) :
  supported imp chain ->
  falsy (imp.(getChainFromName) chain) = false /\
  negb (String.eqb chain imp.(NETWORKS_SONIC)) = false.
Proof.
  intros [Hid Hname]. split; [exact Hid|].
  subst chain. now rewrite String.eqb_refl.
Qed.

Ltac pass_guards H :=
  unfold_run;
  let Hid := fresh "Hid" in
  let Hname := fresh "Hname" in
  destruct (supported_passes_guards _ H) as [Hid Hname];
  rewrite Hid, Hname.

(** C10. On the supported network, a notification sink that rejects the first
    notification makes the invocation throw: the rejection value leaves the
    function, no result is returned, and nothing else was called. *)
Theorem first_notification_failure_escapes
    (chain : string) (acct : Address) (w : World) (e : JsThrown) :
  supported imp chain ->
  notify_reply w [] "Checking ALP APR information..." = Some e ->
  invoke imp chain acct w = ([EvNotify "Checking ALP APR information..."], inl e).
Proof.
  intros Hsup Hnotify. pass_guards Hsup.
  run_async. rewrite Hnotify. reflexivity.
Qed.

(** C9. The account is not used: two invocations that differ only in the
    account return the same result and issue the same calls. *)
Theorem account_is_ignored (chain : string) (a1 a2 : Address) (w : World) :
  invoke imp chain a1 w = invoke imp chain a2 w.
Proof.
  unfold_run. reflexivity.
Qed.

Lemma prefix_app (n rest : string) : prefix n (n ++ rest) = true.
Proof.
  induction n as [|c n IH]; cbn.
  - now destruct rest.
  - destruct (ascii_dec c c) as [_|Hc]; [exact IH|now elim Hc].
Qed.

Lemma contains_app (n before rest : string) :
  contains n (before ++ n ++ rest) = true.
Proof.
  induction before as [|c before IH].
  - cbn [append]. destruct (n ++ rest) eqn:E; cbn [contains];
      rewrite <- E, prefix_app; reflexivity.
  - cbn [append contains]. rewrite IH. apply orb_true_r.
Qed.

(** C2 (amended). On a network other than the supported one the function
    returns a failure-tagged result and calls nothing: no notification, no
    provider resolution, no contract read.  When the name resolves to no chain
    the message names the network asked for; when it resolves to another chain
    the message is the fixed text about the Sonic chain. *)
Theorem unsupported_network_fails_without_calls
    (chain : string) (acct : Address) (w : World) :
  chain <> imp.(NETWORKS_SONIC) ->
  exists message,
    invoke imp chain acct w = ([], inr (toResult message true)) /\
    (falsy (imp.(getChainFromName) chain) = true ->
       message = "Network " ++ chain ++ " not supported" /\
       contains chain message = true) /\
    (falsy (imp.(getChainFromName) chain) = false ->
       message = "This function is only supported on Sonic chain").
Proof.
  intros Hneq. unfold_run.
  destruct (falsy (imp.(getChainFromName) chain)) eqn:Hid.
  - eexists. split; [reflexivity|]. split; [|discriminate].
    intros _. split; [reflexivity|]. apply contains_app.
  - apply String.eqb_neq in Hneq. rewrite Hneq. cbn [negb].
    eexists. split; [reflexivity|]. split; [discriminate|reflexivity].
Qed.

(** C3. Once the function is inside its [try] block, whatever the provider
    resolution, a read, the arithmetic or a later notification throws is
    returned as a result.  When the [totalSupply] read or the
    [tokensPerInterval] read throws, the result is failure-tagged and its
    message ends with the message of the [Error] thrown (with
    [Unknown error] when the value thrown is no [Error]). *)
Theorem read_failures_are_returned (chain : string) (acct : Address) (w : World) :
  enters_try w ->
  (exists tr r, invoke imp chain acct w = (tr, inr r)) /\
  (supported imp chain ->
   forall p e,
     reaches_totalSupply_read imp chain w p ->
     totalSupply_reply imp chain w p = inl e ->
     invoke imp chain acct w =
     (calls imp chain p 4,
      inr (toResult
             ("Failed to get ALP APR information: " ++
              (if instanceofError e then error_message e else "Unknown error"))
             true))) /\
  (supported imp chain ->
   forall p totalSupply e,
     reaches_tokensPerInterval_read imp chain w p totalSupply ->
     tokensPerInterval_reply imp chain w p = inl e ->
     invoke imp chain acct w =
     (calls imp chain p 6,
      inr (toResult
             ("Failed to get ALP APR information: " ++
              (if instanceofError e then error_message e else "Unknown error"))
             true))).
Proof.
  intros Henter. split; [|split].
  - unfold_run. unfold enters_try in Henter.
    destruct (falsy _); [now eexists; eexists|].
    destruct (negb _); [now eexists; eexists|].
    run_async. rewrite Henter.
    repeat match goal with
    | |- context [match ?x with _ => _ end] =>
        match x with
        | getProvider_reply _ _ _ => destruct x as [[?|?]|?]
        | read_reply _ _ _ _ _ => destruct x as [[?|?]|?]
        | notify_reply _ _ _ => destruct x as [[?|?]|]
        | yearlyRewards_of _ _ => destruct x as [[?|?]|?]
        | scaled_quotient _ _ _ => destruct x as [[?|?]|?]
        end
    end; cbn; eexists; eexists; reflexivity.
  - intros Hsup p e Hreach Hread. pass_guards Hsup. unfold_world.
    destruct Hreach as (H0 & H1 & H2).
    run_async. rewrite H0, H1; cbn. rewrite H2, Hread; cbn.
    destruct e; reflexivity.
  - intros Hsup p ts e Hreach Hread. pass_guards Hsup. unfold_world.
    destruct Hreach as ((H0 & H1 & H2) & H3 & H4).
    run_async. rewrite H0, H1; cbn. rewrite H2, H3; cbn. rewrite H4, Hread; cbn.
    destruct e; reflexivity.
Qed.

(** [BigInt(..)] throws nothing but an [Error]. *)
Lemma BigInt_of_Number_throws_Error (x : spec_float) (e : JsThrown) :
  BigInt_of_Number imp.(RangeError_not_an_integer) x = inl e ->
  e = JsError (imp.(RangeError_not_an_integer) x).
Proof.
  unfold BigInt_of_Number.
  destruct x as [s|s| |s m ex]; try discriminate; try (now intros [= <-]).
  destruct (0 <=? ex); [discriminate|].
  destruct (_ =? 0); [discriminate|]. now intros [= <-].
Qed.

(** C4. On the supported network, when the reads succeed and [totalSupply]
    is zero, the invocation returns the generic failure result of the [catch]
    clause, carrying the message of the engine's error; nothing is thrown to
    the caller.  With integer constants that error is the division by zero. *)
Theorem zero_totalSupply_is_generic_failure
    (chain : string) (acct : Address) (w : World) (p : Provider) (tokensPerInterval : Z) :
  supported imp chain ->
  reads_succeed imp chain w p 0 tokensPerInterval ->
  exists message,
    invoke imp chain acct w =
    (calls imp chain p 6,
     inr (toResult ("Failed to get ALP APR information: " ++ message) true)) /\
    (forall spy prec, constants_are imp spy prec ->
       message = imp.(RangeError_division_by_zero)).
Proof.
  intros Hsup Hreads. pass_guards Hsup. unfold_world.
  destruct Hreads as (((H0 & H1 & H2) & H3 & H4) & H5).
  run_async. feed_world.
  unfold yearlyRewards_of, scaled_quotient, constants_are.
  destruct (BigInt_of_Number _ (SECONDS_PER_YEAR imp)) as [e|spy] eqn:Hspy.
  - rewrite (BigInt_of_Number_throws_Error _ _ Hspy). eexists.
    split; [reflexivity|]. intros ? ? [? _]. discriminate.
  - destruct (BigInt_of_Number _ (PRECISION imp)) as [e|prec] eqn:Hprec.
    + rewrite (BigInt_of_Number_throws_Error _ _ Hprec). eexists.
      split; [reflexivity|]. intros ? ? [_ ?]. discriminate.
    + exists imp.(RangeError_division_by_zero). split; reflexivity.
Qed.

(** The success result, in the operations of the source: on the supported
    network, when both reads succeed, [totalSupply] is not zero and the
    notifications are delivered, the invocation returns a success result whose
    [yearlyRewards] is [tokensPerInterval] times the seconds of a year and
    whose [baseApr] is the integer quotient
    [(yearlyRewards * precision * 100) / totalSupply], converted to a Number,
    divided by the precision and written with [toFixed(2)]. *)
Lemma success_result_fields
    (chain : string) (acct : Address) (w : World) (p : Provider)
    (totalSupply tokensPerInterval spy prec : Z) :
  supported imp chain ->
  reads_succeed imp chain w p totalSupply tokensPerInterval ->
  last_notification_succeeds imp chain w p ->
  constants_are imp spy prec ->
  totalSupply <> 0 ->
  let yearlyRewards := tokensPerInterval * spy in
  let quotient := Z.quot (yearlyRewards * prec * 100) totalSupply in
  let baseApr := Number_div (Number_of_BigInt quotient) imp.(PRECISION) in
  invoke imp chain acct w =
  (calls imp chain p 7,
   inr (success_of (Number_toFixed baseApr 2)
          (BigInt_toString yearlyRewards)
          (BigInt_toString totalSupply)
          (BigInt_toString tokensPerInterval))).
Proof.
  intros Hsup Hreads Hlast [Hspy Hprec] Hts. pass_guards Hsup. unfold_world.
  destruct Hreads as (((H0 & H1 & H2) & H3 & H4) & H5).
  run_async. feed_world.
  unfold yearlyRewards_of, scaled_quotient, BigInt_div. rewrite Hspy; cbn.
  rewrite Hprec; cbn.
  apply Z.eqb_neq in Hts. rewrite Hts; cbn. feed_world. reflexivity.
Qed.

(** What is left of a run, answer by answer. *)
Ltac split_rest :=
  repeat match goal with
  | |- context [match ?x with _ => _ end] =>
      match x with
      | getProvider_reply _ _ _ => destruct x as [[?|?]|?]
      | read_reply _ _ _ _ _ => destruct x as [[?|?]|?]
      | notify_reply _ _ _ => destruct x as [[?|?]|]
      | yearlyRewards_of _ _ => destruct x as [[?|?]|?]
      | scaled_quotient _ _ _ => destruct x as [[?|?]|?]
      end; cbn
  end.

(** One rung of the ladder: the call was not issued, or the answers that
    precede it are among the hypotheses. *)
Ltac rung :=
  intros ?;
  first
    [ exfalso; lia
    | unfold arithmetic_succeeds;
      repeat match goal with
             | |- _ /\ _ => split
             | |- exists _, _ => eexists
             end; first [eassumption | reflexivity] ].

Ltac stopped k p :=
  exists k, p;
  split; [lia|]; split; [reflexivity|];
  split; [rung|];
  split; [intros r Hr; first [reflexivity | inversion Hr; subst; discriminate]|];
  split; [rung|]; split; [rung|]; split; [rung|];
  split; [rung|]; split; [rung|]; rung.

(** C8. On the supported network the calls of an invocation are always an
    initial part of one fixed sequence: the first notification, the provider
    resolution, the notification and the read of [totalSupply], the
    notification and the read of [tokensPerInterval], the final notification.
    A call of the sequence is issued only after every earlier one has
    answered ([totalSupply] is read before [tokensPerInterval], and the second
    read starts only when the first has returned a value), and it is issued
    whenever the earlier ones have answered: when the collaborators answer and
    the arithmetic does not throw, all seven calls are made, the final
    notification included.  A success result is returned only after the whole
    sequence. *)
Theorem calls_are_sequential (chain : string) (acct : Address) (w : World) :
  supported imp chain ->
  (exists (k : nat) (p : Provider),
     (1 <= k <= 7)%nat /\
     fst (invoke imp chain acct w) = calls imp chain p k /\
     ((6 <= k)%nat -> exists totalSupply, totalSupply_reply imp chain w p = inr totalSupply) /\
     (forall r, snd (invoke imp chain acct w) = inr r -> isError r = false -> k = 7%nat) /\
     ((2 <= k)%nat -> enters_try w) /\
     ((3 <= k)%nat -> provider_reply imp chain w = inr p) /\
     ((4 <= k)%nat -> reaches_totalSupply_read imp chain w p) /\
     ((5 <= k)%nat -> exists totalSupply, totalSupply_reply imp chain w p = inr totalSupply) /\
     ((6 <= k)%nat ->
      exists totalSupply, reaches_tokensPerInterval_read imp chain w p totalSupply) /\
     ((7 <= k)%nat ->
      exists totalSupply tokensPerInterval,
        reads_succeed imp chain w p totalSupply tokensPerInterval /\
        arithmetic_succeeds imp totalSupply tokensPerInterval)) /\
  (firstn 1 (fst (invoke imp chain acct w)) = calls imp chain 0%nat 1) /\
  (enters_try w ->
   firstn 2 (fst (invoke imp chain acct w)) = calls imp chain 0%nat 2) /\
  (forall p,
     enters_try w -> provider_reply imp chain w = inr p ->
     firstn 3 (fst (invoke imp chain acct w)) = calls imp chain p 3) /\
  (forall p,
     reaches_totalSupply_read imp chain w p ->
     firstn 4 (fst (invoke imp chain acct w)) = calls imp chain p 4) /\
  (forall p totalSupply,
     reaches_totalSupply_read imp chain w p ->
     totalSupply_reply imp chain w p = inr totalSupply ->
     firstn 5 (fst (invoke imp chain acct w)) = calls imp chain p 5) /\
  (forall p totalSupply,
     reaches_tokensPerInterval_read imp chain w p totalSupply ->
     firstn 6 (fst (invoke imp chain acct w)) = calls imp chain p 6) /\
  (forall p totalSupply tokensPerInterval,
     reads_succeed imp chain w p totalSupply tokensPerInterval ->
     arithmetic_succeeds imp totalSupply tokensPerInterval ->
     fst (invoke imp chain acct w) = calls imp chain p 7).
Proof.
  intros Hsup. split.
  { pass_guards Hsup. unfold_world. unfold provider_reply. run_async.
    destruct (notify_reply w [] _) as [e|] eqn:H0; cbn.
    { stopped 1%nat 0%nat. }
    destruct (getProvider_reply w _ _) as [e|p] eqn:H1; cbn.
    { destruct e; cbn; stopped 2%nat 0%nat. }
    destruct (notify_reply w _ "Fetching total supply...") as [e|] eqn:H2; cbn.
    { destruct e; cbn; stopped 3%nat p. }
    destruct (read_reply w _ p (REWARD_TRACKER imp) _) as [e|ts] eqn:H3; cbn.
    { destruct e; cbn; stopped 4%nat p. }
    destruct (notify_reply w _ "Fetching tokens per interval...") as [e|] eqn:H4; cbn.
    { destruct e; cbn; stopped 5%nat p. }
    destruct (read_reply w _ p (REWARD_DISTRIBUTOR imp) _) as [e|tpi] eqn:H5; cbn.
    { destruct e; cbn; stopped 6%nat p. }
    destruct (yearlyRewards_of _ tpi) as [e|yr] eqn:H6; cbn.
    { destruct e; cbn; stopped 6%nat p. }
    destruct (scaled_quotient _ yr ts) as [e|q] eqn:H7; cbn.
    { destruct e; cbn; stopped 6%nat p. }
    destruct (notify_reply w _ "APR calculation completed") as [e|] eqn:H8; cbn.
    { destruct e; cbn; stopped 7%nat p. }
    stopped 7%nat p. }
  split; [|split; [|split; [|split; [|split; [|split]]]]].
  - pass_guards Hsup. unfold_world. run_async.
    destruct (notify_reply w [] _) as [e|]; cbn; [reflexivity|].
    split_rest; reflexivity.
  - intros H0. pass_guards Hsup. unfold_world. run_async. rewrite H0; cbn.
    split_rest; reflexivity.
  - intros p H0 H1. pass_guards Hsup. unfold_world. unfold provider_reply in H1.
    run_async. rewrite H0; cbn. rewrite H1; cbn.
    split_rest; reflexivity.
  - intros p (H0 & H1 & H2). pass_guards Hsup. unfold_world.
    run_async. rewrite H0; cbn. rewrite H1; cbn. rewrite H2; cbn.
    split_rest; reflexivity.
  - intros p ts (H0 & H1 & H2) H3. pass_guards Hsup. unfold_world.
    run_async. rewrite H0; cbn. rewrite H1; cbn. rewrite H2, H3; cbn.
    split_rest; reflexivity.
  - intros p ts ((H0 & H1 & H2) & H3 & H4). pass_guards Hsup. unfold_world.
    run_async. rewrite H0; cbn. rewrite H1; cbn. rewrite H2, H3; cbn. rewrite H4; cbn.
    split_rest; reflexivity.
  - intros p ts tpi (((H0 & H1 & H2) & H3 & H4) & H5) (yr & q & Hyr & Hq).
    pass_guards Hsup. unfold_world.
    run_async. rewrite H0; cbn. rewrite H1; cbn. rewrite H2, H3; cbn.
    rewrite H4, H5; cbn. rewrite Hyr; cbn. rewrite Hq; cbn.
    split_rest; reflexivity.
Qed.

(** ** The shape of a success result *)

(** A success result comes from a complete run: both reads answered, the
    total supply is not zero, and the fields are computed from the two values
    read. *)
Lemma success_inversion
    (chain : string) (acct : Address) (w : World)
    (tr : list Event) (r : FunctionReturn) (spy prec : Z) :
  constants_are imp spy prec ->
  invoke imp chain acct w = (tr, inr r) -> isError r = false ->
  exists (p : Provider) (totalSupply tokensPerInterval : Z),
    supported imp chain /\
    reads_succeed imp chain w p totalSupply tokensPerInterval /\
    totalSupply <> 0 /\
    r = success_of
          (Number_toFixed
             (baseApr_of imp (Z.quot (tokensPerInterval * spy * prec * 100) totalSupply)) 2)
          (BigInt_toString (tokensPerInterval * spy))
          (BigInt_toString totalSupply)
          (BigInt_toString tokensPerInterval).
Proof.
  intros [Hspy Hprec]. unfold_run.
  destruct (falsy _) eqn:Hid; [intros [= _ <-]; discriminate|].
  destruct (String.eqb_spec chain (NETWORKS_SONIC imp)) as [Hname|Hname];
    cbn [negb]; [|intros [= _ <-]; discriminate].
  unfold_world. run_async.
  destruct (notify_reply w [] _) as [e|] eqn:H0; cbn; [discriminate|].
  destruct (getProvider_reply w _ _) as [e|p] eqn:H1; cbn;
    [destruct e; intros [= _ <-]; discriminate|].
  destruct (notify_reply w _ "Fetching total supply...") as [e|] eqn:H2; cbn;
    [destruct e; intros [= _ <-]; discriminate|].
  destruct (read_reply w _ p (REWARD_TRACKER imp) _) as [e|ts] eqn:H3; cbn;
    [destruct e; intros [= _ <-]; discriminate|].
  destruct (notify_reply w _ "Fetching tokens per interval...") as [e|] eqn:H4; cbn;
    [destruct e; intros [= _ <-]; discriminate|].
  destruct (read_reply w _ p (REWARD_DISTRIBUTOR imp) _) as [e|tpi] eqn:H5; cbn;
    [destruct e; intros [= _ <-]; discriminate|].
  unfold yearlyRewards_of, scaled_quotient, BigInt_div. rewrite Hspy, Hprec; cbn.
  destruct (Z.eqb_spec ts 0) as [Hts|Hts]; cbn; [intros [= _ <-]; discriminate|].
  destruct (notify_reply w _ "APR calculation completed") as [e|] eqn:H6; cbn;
    [destruct e; intros [= _ <-]; discriminate|].
  intros [= _ <-] _.
  exists p, ts, tpi. repeat split; auto.
Qed.

(** [BigInt(PRECISION)] is positive only for a positive finite Number. *)
Lemma positive_precision (prec : Z) :
  BigInt_of_Number imp.(RangeError_not_an_integer) imp.(PRECISION) = inr prec ->
  0 < prec ->
  exists my ey, imp.(PRECISION) = S754_finite false my ey.
Proof.
  unfold BigInt_of_Number. destruct (PRECISION imp) as [s|s| |[|] m e]; try discriminate.
  - intros [= <-]. lia.
  - destruct (0 <=? e) eqn:He.
    + assert (Ht : 0 <= Zpos m * 2 ^ e)
        by (apply Z.mul_nonneg_nonneg; [lia|apply Z.pow_nonneg; lia]).
      revert Ht. generalize (Zpos m * 2 ^ e). intros t Ht [= <-] Hpos.
      unfold cond_Zopp in Hpos. lia.
    + destruct (_ =? 0); [|discriminate].
      assert (Ht : 0 <= Zpos m / 2 ^ (- e))
        by (apply Z.div_pos; [lia|apply Z.pow_pos_nonneg; lia]).
      revert Ht. generalize (Zpos m / 2 ^ (- e)). intros t Ht [= <-] Hpos.
      unfold cond_Zopp in Hpos. lia.
  - intros _ _. now exists m, e.
Qed.

Lemma Number_div_shape (x : spec_float) (my : positive) (ey : Z) :
  x = S754_infinity false \/ (Number_finite x /\ Number_nonneg x) ->
  Number_div x (S754_finite false my ey) = S754_infinity false \/
  (Number_finite (Number_div x (S754_finite false my ey)) /\
   Number_nonneg (Number_div x (S754_finite false my ey))).
Proof.
  intros [->|[Hfin Hnn]]; [now left|].
  destruct x as [s|s| |[|] m e]; cbn [Number_finite Number_nonneg] in Hfin, Hnn;
    try contradiction.
  - right. rewrite Number_div_zero. now split.
  - apply (rounding_of_shape _ _ (Number_div_rounding m my e ey)).
Qed.

(** The Number computed for [baseApr] is [+Infinity] or a canonical finite
    non-negative Number. *)
Lemma baseApr_shape (quotient prec : Z) :
  BigInt_of_Number imp.(RangeError_not_an_integer) imp.(PRECISION) = inr prec ->
  0 < prec -> 0 <= quotient ->
  baseApr_of imp quotient = S754_infinity false \/
  (Number_finite (baseApr_of imp quotient) /\ Number_nonneg (baseApr_of imp quotient)).
Proof.
  intros Hprec Hpos Hq.
  destruct (positive_precision prec Hprec Hpos) as (my & ey & HP).
  unfold baseApr_of. rewrite HP. apply Number_div_shape.
  apply (rounding_of_shape _ _ (Number_of_BigInt_rounding quotient Hq)).
Qed.

Lemma baseApr_nonneg (quotient prec : Z) :
  BigInt_of_Number imp.(RangeError_not_an_integer) imp.(PRECISION) = inr prec ->
  0 < prec -> 0 <= quotient ->
  Number_nonneg (baseApr_of imp quotient).
Proof.
  intros Hprec Hpos Hq.
  destruct (baseApr_shape quotient prec Hprec Hpos Hq) as [->|[_ H]]; [exact I|exact H].
Qed.

(** X1 (what holds of C5). In every success result, for unsigned 256-bit
    values read from the contracts and non-negative integer constants,
    [totalSupply], [yearlyRewards] and [tokensPerInterval] are non-negative
    base-10 integer numerals, and [baseApr] is a decimal numeral with exactly
    two fractional digits whenever the Number computed for it is finite and
    below [10^21]; from [10^21] on, [baseApr] is what [toString] writes for
    that Number. *)
Theorem success_fields_are_numerals
    (chain : string) (acct : Address) (w : World)
    (tr : list Event) (r : FunctionReturn) (spy prec : Z) :
  constants_are imp spy prec -> 0 <= spy -> 0 < prec ->
  reads_are_u256 w ->
  invoke imp chain acct w = (tr, inr r) -> isError r = false ->
  exists (totalSupply tokensPerInterval : Z) (baseApr : spec_float),
    baseApr =
      baseApr_of imp (Z.quot (tokensPerInterval * spy * prec * 100) totalSupply) /\
    r = success_of (Number_toFixed baseApr 2)
          (BigInt_toString (tokensPerInterval * spy))
          (BigInt_toString totalSupply)
          (BigInt_toString tokensPerInterval) /\
    is_decimal_numeral (BigInt_toString totalSupply) = true /\
    is_decimal_numeral (BigInt_toString (tokensPerInterval * spy)) = true /\
    is_decimal_numeral (BigInt_toString tokensPerInterval) = true /\
    (uses_fixed_notation baseApr = true ->
     is_fixed_decimal 2 (Number_toFixed baseApr 2) = true) /\
    (uses_fixed_notation baseApr = false ->
     Number_toFixed baseApr 2 = Number_toString baseApr).
Proof.
  intros Hconst Hspy Hprec Hu256 Hrun Hok.
  destruct (success_inversion chain acct w tr r spy prec Hconst Hrun Hok)
    as (p & ts & tpi & Hsup & Hreads & Hts & ->).
  destruct Hreads as ((_ & Hread_ts & _) & Hread_tpi).
  apply Hu256 in Hread_ts. apply Hu256 in Hread_tpi.
  unfold is_u256 in Hread_ts, Hread_tpi.
  exists ts, tpi, (baseApr_of imp (Z.quot (tpi * spy * prec * 100) ts)).
  assert (Hq : 0 <= Z.quot (tpi * spy * prec * 100) ts) by (apply Z.quot_pos; nia).
  pose proof (baseApr_nonneg _ prec (proj2 Hconst) Hprec Hq) as Hnn.
  split; [reflexivity|]. split; [reflexivity|].
  split; [apply BigInt_toString_numeral; lia|].
  split; [apply BigInt_toString_numeral; nia|].
  split; [apply BigInt_toString_numeral; lia|].
  split.
  - intros Hfix. rewrite (Number_toFixed_fixed _ 2 Hnn Hfix).
    apply fixed_point_digits_valid; [|lia].
    apply nearest_scaled_nonneg, Number_value_nonneg, Hnn.
  - intros Hfix. now apply Number_toFixed_large.
Qed.

(** The Number computed for [baseApr] grows with the scaled quotient. *)
Lemma baseApr_of_monotone (q1 q2 prec : Z) :
  BigInt_of_Number imp.(RangeError_not_an_integer) imp.(PRECISION) = inr prec ->
  0 < prec -> 0 <= q1 <= q2 ->
  numerically_le (Number_toFixed (baseApr_of imp q1) 2)
                 (Number_toFixed (baseApr_of imp q2) 2).
Proof.
  intros Hprec Hpos [Hq1 Hq12].
  apply toFixed_monotone.
  - apply (baseApr_shape q1 prec Hprec Hpos Hq1).
  - apply (baseApr_shape q2 prec Hprec Hpos). lia.
  - destruct (positive_precision prec Hprec Hpos) as (my & ey & HP).
    unfold baseApr_of. rewrite HP. apply Number_div_monotone.
    + apply (rounding_of_nonneg _ _ (Number_of_BigInt_rounding q1 Hq1)).
    + apply (rounding_of_nonneg _ _ (Number_of_BigInt_rounding q2 ltac:(lia))).
    + apply Number_of_BigInt_monotone. lia.
Qed.

(** C6. With non-negative integer constants, the [baseApr] reported for
    unsigned 256-bit values grows with [tokensPerInterval] and shrinks when
    [totalSupply] grows, the other value fixed and [totalSupply] not zero: the
    numerals are compared by the numbers they denote. *)
Theorem baseApr_is_monotone (spy prec : Z) :
  constants_are imp spy prec -> 0 <= spy -> 0 < prec ->
  (forall t1 t2 s,
     is_u256 t1 -> is_u256 t2 -> is_u256 s -> s <> 0 -> t1 <= t2 ->
     numerically_le (baseApr_string imp spy prec s t1) (baseApr_string imp spy prec s t2)) /\
  (forall t s1 s2,
     is_u256 t -> is_u256 s1 -> is_u256 s2 -> s1 <> 0 -> s1 <= s2 ->
     numerically_le (baseApr_string imp spy prec s2 t) (baseApr_string imp spy prec s1 t)).
Proof.
  intros [_ Hprec] Hspy Hpos. unfold baseApr_string, is_u256.
  assert (Hk : 0 <= spy * prec * 100) by nia.
  assert (Hscale : forall t, t * spy * prec * 100 = t * (spy * prec * 100))
    by (intros t; ring).
  split.
  - intros t1 t2 s Ht1 Ht2 Hs Hs0 Hle. rewrite !Hscale.
    apply (baseApr_of_monotone _ _ prec Hprec Hpos). split.
    + apply Z.quot_pos; [apply Z.mul_nonneg_nonneg|]; lia.
    + apply Z.quot_le_mono; [lia|]. apply Z.mul_le_mono_nonneg_r; lia.
  - intros t s1 s2 Ht Hs1 Hs2 Hs0 Hle. rewrite !Hscale.
    apply (baseApr_of_monotone _ _ prec Hprec Hpos). split.
    + apply Z.quot_pos; [apply Z.mul_nonneg_nonneg|]; lia.
    + apply Z.quot_le_compat_l; [apply Z.mul_nonneg_nonneg|]; lia.
Qed.

(** ** The accuracy of [baseApr] *)

(** [BigInt(x)] is the value of [x]. *)
Lemma BigInt_of_Number_value (message : spec_float -> string) (m : positive) (e z : Z) :
  BigInt_of_Number message (S754_finite false m e) = inr z ->
  (Number_value (S754_finite false m e) == inject_Z z)%Q.
Proof.
  unfold BigInt_of_Number. cbn [Number_value].
  change (Zpos m # 1) with (inject_Z (Zpos m)). fold (pow2 e).
  destruct (Z.leb_spec 0 e) as [He|He].
  - assert (Ht : (inject_Z (Zpos m) * pow2 e == inject_Z (Zpos m * 2 ^ e))%Q)
      by now rewrite inject_Z_mult, inject_Z_pow2.
    revert Ht. generalize (Zpos m * 2 ^ e). intros t Ht [= <-]. exact Ht.
  - destruct (Z.eqb_spec (Zpos m mod 2 ^ (- e)) 0) as [Hmod|Hmod]; [|discriminate].
    assert (Ht : (inject_Z (Zpos m) * pow2 e == inject_Z (Zpos m / 2 ^ (- e)))%Q).
    { assert (H2 : 0 < 2 ^ (- e)) by (apply Z.pow_pos_nonneg; lia).
      assert (Hm : Zpos m = 2 ^ (- e) * (Zpos m / 2 ^ (- e))).
      { apply Z.div_exact; [lia|exact Hmod]. }
      rewrite Hm at 1. rewrite inject_Z_mult, inject_Z_pow2 by lia.
      rewrite (Qmult_comm (pow2 (- e))), <- Qmult_assoc, pow2_opp. ring. }
    revert Ht. generalize (Zpos m / 2 ^ (- e)). intros t Ht [= <-]. exact Ht.
Qed.

(** The scaled quotient, divided exactly by the precision, is the exact rate
    truncated to a multiple of [1 / precision]. *)
Lemma scaled_quotient_truncation (yearlyRewards prec totalSupply : Z) :
  0 <= yearlyRewards -> 0 < prec -> 0 < totalSupply ->
  let quotient := Z.quot (yearlyRewards * prec * 100) totalSupply in
  (inject_Z quotient / inject_Z prec <= exact_rate yearlyRewards totalSupply /\
   exact_rate yearlyRewards totalSupply < inject_Z quotient / inject_Z prec + 1 / inject_Z prec)%Q.
Proof.
  intros Hyr Hprec Hts quotient. unfold exact_rate.
  assert (HN : 0 <= yearlyRewards * prec * 100) by nia.
  assert (Hdiv : quotient = yearlyRewards * prec * 100 / totalSupply)
    by (apply Z.quot_div_nonneg; lia).
  pose proof (Z.mul_div_le (yearlyRewards * prec * 100) totalSupply Hts) as Hlo.
  pose proof (Z.mul_succ_div_gt (yearlyRewards * prec * 100) totalSupply Hts) as Hhi.
  rewrite <- Hdiv in Hlo, Hhi.
  assert (Hp : (0 < inject_Z prec)%Q) by (change 0%Q with (inject_Z 0); now rewrite <- Zlt_Qlt).
  assert (Ht : (0 < inject_Z totalSupply)%Q)
    by (change 0%Q with (inject_Z 0); now rewrite <- Zlt_Qlt).
  split.
  - apply Qle_shift_div_r; [exact Hp|]. unfold Qdiv.
    rewrite <- Qmult_assoc, (Qmult_comm (/ _)), Qmult_assoc.
    apply Qle_shift_div_l; [exact Ht|].
    rewrite <- !inject_Z_mult, <- Zle_Qle. nia.
  - setoid_replace (inject_Z quotient / inject_Z prec + 1 / inject_Z prec)%Q
      with (inject_Z (quotient + 1) / inject_Z prec)%Q
      by (rewrite inject_Z_plus; field; lra).
    apply Qlt_shift_div_l; [exact Hp|]. unfold Qdiv.
    rewrite <- Qmult_assoc, (Qmult_comm (/ _)), Qmult_assoc.
    apply Qlt_shift_div_r; [exact Ht|].
    rewrite <- !inject_Z_mult, <- Zlt_Qlt. nia.
Qed.

(** The Number computed for [baseApr], when finite, is the exact rate up to
    the truncation of the integer division and the two roundings. *)
Lemma baseApr_of_error (spy prec totalSupply tokensPerInterval : Z) :
  constants_are imp spy prec -> 0 <= spy -> 0 < prec ->
  is_u256 totalSupply -> totalSupply <> 0 -> is_u256 tokensPerInterval ->
  let yearlyRewards := tokensPerInterval * spy in
  let quotient := Z.quot (yearlyRewards * prec * 100) totalSupply in
  let baseApr := baseApr_of imp quotient in
  let exact := exact_rate yearlyRewards totalSupply in
  Number_finite baseApr ->
  (Qabs (Number_value baseApr - exact) <=
   1 / inject_Z prec + exact * pow2 (-51) + pow2 (-1073))%Q.
Proof.
  intros [_ Hprec] Hspy Hpos Hts Hts0 Htpi yearlyRewards quotient baseApr exact.
  unfold is_u256 in Hts, Htpi.
  assert (Hyr : 0 <= yearlyRewards) by (unfold yearlyRewards; nia).
  pose proof (scaled_quotient_truncation yearlyRewards prec totalSupply Hyr Hpos ltac:(lia))
    as Htrunc.
  cbn zeta in Htrunc. fold quotient exact in Htrunc.
  intros Hfin.
  assert (Hq : 0 <= quotient) by (apply Z.quot_pos; nia).
  destruct (positive_precision prec Hprec Hpos) as (my & ey & HP).
  assert (Hvp : (Number_value (S754_finite false my ey) == inject_Z prec)%Q).
  { apply (BigInt_of_Number_value imp.(RangeError_not_an_integer)). now rewrite <- HP. }
  pose proof (Number_of_BigInt_rounding quotient Hq) as HN0.
  unfold baseApr, baseApr_of in *. rewrite HP in *.
  set (N0 := Number_of_BigInt quotient) in *.
  set (x := Number_div N0 (S754_finite false my ey)) in *.
  assert (Hp1 : (1 <= inject_Z prec)%Q)
    by (change 1%Q with (inject_Z 1); rewrite <- Zle_Qle; lia).
  set (ip := (/ inject_Z prec)%Q).
  assert (Hip : (0 < ip)%Q) by (apply Qinv_lt_0_compat; lra).
  assert (Hip1 : (ip <= 1)%Q).
  { unfold ip. setoid_replace (/ inject_Z prec)%Q with (1 / inject_Z prec)%Q
      by (unfold Qdiv; ring).
    apply Qle_shift_div_r; lra. }
  set (eta := pow2 (-1075)).
  assert (Heta : (0 < eta)%Q) by apply pow2_pos.
  assert (Heta4 : (pow2 (-1073) == 4 * eta)%Q) by reflexivity.
  change (pow2 (-51)) with (1 # 2251799813685248)%Q.
  assert (HT : (eta * ip <= eta)%Q).
  { setoid_replace eta with (eta * 1)%Q at 2 by ring.
    apply Qmult_le_l; assumption. }
  assert (HT0 : (0 <= eta * ip)%Q) by (apply Qmult_le_0_compat; lra).
  set (q' := inject_Z quotient) in *.
  assert (Hq' : (0 <= q')%Q) by (unfold q'; change 0%Q with (inject_Z 0); now rewrite <- Zle_Qle).
  assert (HA0 : (0 <= q' * ip)%Q) by (apply Qmult_le_0_compat; lra).
  destruct Htrunc as [Hlo Hhi]. unfold Qdiv in Hlo, Hhi. fold ip in Hlo, Hhi.
  (* the first rounding *)
  assert (HN0fin : Number_finite N0 /\ Number_nonneg N0).
  { destruct (rounding_of_shape _ _ HN0) as [Hinf|H]; [|exact H].
    exfalso. unfold x in Hfin. rewrite Hinf in Hfin. exact Hfin. }
  destruct HN0fin as [HN0fin HN0nn].
  pose proof (rounding_error _ _ HN0 HN0fin) as Herr0. fold q' eta in Herr0.
  change (pow2 (-53)) with (1 # 9007199254740992)%Q in Herr0.
  apply Qabs_Qle_condition in Herr0. destruct Herr0 as [Herr0l Herr0h].
  set (n0 := Number_value N0) in *.
  assert (Hs1 : ((n0 - q') * ip <= (q' * (1 # 9007199254740992) + eta) * ip)%Q)
    by (apply Qmult_le_compat_r; lra).
  assert (Hs2 : ((- (q' * (1 # 9007199254740992) + eta)) * ip <= (n0 - q') * ip)%Q)
    by (apply Qmult_le_compat_r; lra).
  assert (Hr1 : ((n0 - q') * ip == n0 * ip - q' * ip)%Q) by ring.
  assert (Hr2 : ((q' * (1 # 9007199254740992) + eta) * ip ==
                 q' * ip * (1 # 9007199254740992) + eta * ip)%Q) by ring.
  assert (Hr3 : ((- (q' * (1 # 9007199254740992) + eta)) * ip ==
                 - (q' * ip * (1 # 9007199254740992) + eta * ip))%Q) by ring.
  rewrite Hr1, Hr2 in Hs1. rewrite Hr1, Hr3 in Hs2.
  (* the second rounding *)
  assert (Herr1 : (- (n0 * ip * (1 # 9007199254740992) + eta) <= Number_value x - n0 * ip /\
                   Number_value x - n0 * ip <= n0 * ip * (1 # 9007199254740992) + eta)%Q).
  { destruct N0 as [s|s| |[|] m e]; cbn [Number_finite Number_nonneg] in HN0fin, HN0nn;
      try contradiction.
    - unfold x. rewrite Number_div_zero. unfold n0. cbn [Number_value]. split; lra.
    - pose proof (rounding_error _ _ (Number_div_rounding m my e ey) Hfin) as Herr.
      fold x in Herr. rewrite Hvp in Herr. fold n0 in Herr.
      unfold Qdiv in Herr. fold ip eta in Herr.
      change (pow2 (-53)) with (1 # 9007199254740992)%Q in Herr.
      now apply Qabs_Qle_condition in Herr. }
  destruct Herr1 as [Herr1l Herr1h].
  apply Qabs_Qle_condition. unfold Qdiv. rewrite Qmult_1_l. fold ip.
  rewrite Qmult_1_l in Hhi.
  split; lra.
Qed.


(** C7 (amended). For unsigned 256-bit values, a non-zero total supply and
    non-negative integer constants, the scaled integer quotient divided
    exactly by the precision scalar is below the exact rate
    [(yearlyRewards * 100) / totalSupply] by less than [1 / precision]; the
    Number computed for [baseApr], when finite, adds to this the rounding of
    [Number(..)] and of the division: it differs from the exact rate by at most
    [1 / precision + exact * 2^-51 + 2^-1073]. *)
Theorem baseApr_accuracy (spy prec totalSupply tokensPerInterval : Z) :
  constants_are imp spy prec -> 0 <= spy -> 0 < prec ->
  is_u256 totalSupply -> totalSupply <> 0 -> is_u256 tokensPerInterval ->
  let yearlyRewards := tokensPerInterval * spy in
  let quotient := Z.quot (yearlyRewards * prec * 100) totalSupply in
  let baseApr := baseApr_of imp quotient in
  let exact := exact_rate yearlyRewards totalSupply in
  (inject_Z quotient / inject_Z prec <= exact /\
   exact < inject_Z quotient / inject_Z prec + 1 / inject_Z prec)%Q /\
  (Number_finite baseApr ->
   (Qabs (Number_value baseApr - exact) <=
    1 / inject_Z prec + exact * pow2 (-51) + pow2 (-1073))%Q).
Proof.
  intros Hc Hspy Hpos Hts Hts0 Htpi yearlyRewards quotient baseApr exact. split.
  - apply scaled_quotient_truncation; unfold is_u256 in *; [unfold yearlyRewards; nia|lia|lia].
  - apply (baseApr_of_error spy prec totalSupply tokensPerInterval); assumption.
Qed.

(** X2. For unsigned 256-bit values, a non-zero total supply and non-negative
    integer constants, when the Number computed for [baseApr] is below
    [10^21], the [baseApr] field is a numeral that denotes a multiple of
    [1/100] within [1/200] of that Number, hence within
    [1/200 + 1 / precision + exact * 2^-51 + 2^-1073] of the exact rate
    [(yearlyRewards * 100) / totalSupply]. *)
Theorem reported_baseApr_accuracy (spy prec totalSupply tokensPerInterval : Z) :
  constants_are imp spy prec -> 0 <= spy -> 0 < prec ->
  is_u256 totalSupply -> totalSupply <> 0 -> is_u256 tokensPerInterval ->
  let yearlyRewards := tokensPerInterval * spy in
  let baseApr := baseApr_of imp (Z.quot (yearlyRewards * prec * 100) totalSupply) in
  let exact := exact_rate yearlyRewards totalSupply in
  uses_fixed_notation baseApr = true ->
  exists n : Z,
    numeral_value (baseApr_string imp spy prec totalSupply tokensPerInterval) =
    Some (Rep_value (inject_Z n * (1 # 100))%Q) /\
    (Qabs (inject_Z n * (1 # 100) - Number_value baseApr) <= 1 # 200)%Q /\
    (Qabs (inject_Z n * (1 # 100) - exact) <=
     (1 # 200) + 1 / inject_Z prec + exact * pow2 (-51) + pow2 (-1073))%Q.
Proof.
  intros Hc Hspy Hpos Hts Hts0 Htpi yearlyRewards baseApr exact Hfix.
  pose proof (baseApr_of_error spy prec totalSupply tokensPerInterval
                Hc Hspy Hpos Hts Hts0 Htpi) as Herr.
  cbn zeta in Herr. fold yearlyRewards baseApr exact in Herr.
  destruct Hc as [_ Hprec].
  assert (Hq : 0 <= Z.quot (yearlyRewards * prec * 100) totalSupply).
  { unfold is_u256 in *. apply Z.quot_pos; unfold yearlyRewards; nia. }
  destruct (baseApr_shape _ prec Hprec Hpos Hq) as [Hinf|[Hfin Hnn]].
  { fold baseApr in Hinf. rewrite Hinf in Hfix. discriminate Hfix. }
  fold baseApr in Hfin, Hnn. specialize (Herr Hfin).
  destruct (toFixed_reads_fixed baseApr Hnn Hfix) as [Hread _].
  exists (nearest_scaled (Number_value baseApr) 2).
  unfold baseApr_string. fold yearlyRewards baseApr.
  split; [exact Hread|].
  assert (Hround : (Qabs (inject_Z (nearest_scaled (Number_value baseApr) 2) * (1 # 100) -
                          Number_value baseApr) <= 1 # 200)%Q).
  { unfold nearest_scaled. change (Qpower 10 (Z.of_nat 2)) with 100%Q.
    pose proof (Qfloor_le (Number_value baseApr * 100 + (1 # 2))) as Hlo.
    pose proof (Qlt_floor (Number_value baseApr * 100 + (1 # 2))) as Hhi.
    rewrite inject_Z_plus in Hhi. change (inject_Z 1) with 1%Q in Hhi.
    apply Qabs_Qle_condition. split; lra. }
  split; [exact Hround|].
  apply Qabs_Qle_condition in Hround. apply Qabs_Qle_condition in Herr.
  apply Qabs_Qle_condition. split; lra.
Qed.

End Properties.

(** * How an invocation can end *)

Section Outcomes.

Variable imp : Imports.

Ltac unfold_world :=
  unfold reads_succeed, reaches_tokensPerInterval_read, reaches_totalSupply_read,
    last_notification_succeeds, tokensPerInterval_reply, totalSupply_reply,
    provider_reply, enters_try, calls, expected_trace in *; cbn [firstn] in *.

Ltac unfold_run :=
  unfold invoke, getALPAPR; cbn [chainName account].

Ltac run_async :=
  unfold bind, try_catch, notify, getProvider, contract_read, lift, ret;
  cbn [app publicClient address fst snd].

Ltac feed_world :=
  repeat (match goal with
          | H : notify_reply _ _ _ = _ |- _ => rewrite H
          | H : getProvider_reply _ _ _ = _ |- _ => rewrite H
          | H : read_reply _ _ _ _ _ = _ |- _ => rewrite H
          end; cbn).

Ltac pass_guards H :=
  unfold_run;
  let Hid := fresh "Hid" in
  let Hname := fresh "Hname" in
  destruct (supported_passes_guards imp _ H) as [Hid Hname];
  rewrite Hid, Hname.

(** Case analysis on every answer the run still waits for. *)
Ltac split_replies :=
  repeat match goal with
  | |- context [match ?x with _ => _ end] =>
      match x with
      | getProvider_reply _ _ _ => destruct x as [[?|?]|?] eqn:?
      | read_reply _ _ _ _ _ => destruct x as [[?|?]|?] eqn:?
      | notify_reply _ _ _ => destruct x as [[?|?]|] eqn:?
      | yearlyRewards_of _ _ => destruct x as [[?|?]|?] eqn:?
      | scaled_quotient _ _ _ => destruct x as [[?|?]|?] eqn:?
      end; cbn
  end.

(** The guards of the function, read back from the two tests. *)
Lemma guards_passed (chain : string) :
  falsy (imp.(getChainFromName) chain) = false ->
  negb (String.eqb chain imp.(NETWORKS_SONIC)) = false ->
  supported imp chain.
Proof.
  intros Hid Hname. split; [exact Hid|].
  apply negb_false_iff in Hname. now apply String.eqb_eq.
Qed.

(** X4. An invocation throws exactly when the network is the supported one and
    the sink rejects the first notification; the value thrown is the sink's,
    and nothing else was called.  In every other case a result is returned. *)
Theorem throws_exactly_when_first_notification_rejects
    (chain : string) (acct : Address) (w : World) (tr : list Event) (e : JsThrown) :
  invoke imp chain acct w = (tr, inl e) <->
  supported imp chain /\
  notify_reply w [] "Checking ALP APR information..." = Some e /\
  tr = [EvNotify "Checking ALP APR information..."].
Proof.
  split.
  - unfold_run.
    destruct (falsy _) eqn:Hid; [discriminate|].
    destruct (negb _) eqn:Hname; [discriminate|].
    pose proof (guards_passed chain Hid Hname) as Hsup.
    run_async.
    destruct (notify_reply w [] _) as [e0|] eqn:H0; cbn.
    + intros [= <- <-]. split; [exact Hsup|split; reflexivity].
    + split_replies; discriminate.
  - intros (Hsup & H0 & ->). pass_guards Hsup. run_async. now rewrite H0.
Qed.

(** X5. A success result is returned exactly when the network is the
    supported one, the two constants are integers, the provider resolves, the
    four notifications are delivered, both reads answer and [totalSupply] is
    not zero. *)
Theorem succeeds_exactly_when (chain : string) (acct : Address) (w : World) :
  (exists tr r, invoke imp chain acct w = (tr, inr r) /\ isError r = false) <->
  (supported imp chain /\
   exists p totalSupply tokensPerInterval spy prec,
     reads_succeed imp chain w p totalSupply tokensPerInterval /\
     last_notification_succeeds imp chain w p /\
     constants_are imp spy prec /\
     totalSupply <> 0).
Proof.
  split.
  - intros (tr & r & Hrun & Hok). revert Hrun. unfold_run.
    destruct (falsy _) eqn:Hid; [intros [= _ <-]; discriminate|].
    destruct (negb _) eqn:Hname; [intros [= _ <-]; discriminate|].
    pose proof (guards_passed chain Hid Hname) as Hsup.
    unfold_world. run_async.
    destruct (notify_reply w [] _) as [e|] eqn:H0; cbn; [discriminate|].
    destruct (getProvider_reply w _ _) as [e|p] eqn:H1; cbn;
      [destruct e; intros [= _ <-]; discriminate|].
    destruct (notify_reply w _ "Fetching total supply...") as [e|] eqn:H2; cbn;
      [destruct e; intros [= _ <-]; discriminate|].
    destruct (read_reply w _ p (REWARD_TRACKER imp) _) as [e|ts] eqn:H3; cbn;
      [destruct e; intros [= _ <-]; discriminate|].
    destruct (notify_reply w _ "Fetching tokens per interval...") as [e|] eqn:H4; cbn;
      [destruct e; intros [= _ <-]; discriminate|].
    destruct (read_reply w _ p (REWARD_DISTRIBUTOR imp) _) as [e|tpi] eqn:H5; cbn;
      [destruct e; intros [= _ <-]; discriminate|].
    unfold yearlyRewards_of, scaled_quotient, BigInt_div, constants_are.
    destruct (BigInt_of_Number _ (SECONDS_PER_YEAR imp)) as [e|spy] eqn:Hspy; cbn;
      [destruct e; intros [= _ <-]; discriminate|].
    destruct (BigInt_of_Number _ (PRECISION imp)) as [e|prec] eqn:Hprec; cbn;
      [destruct e; intros [= _ <-]; discriminate|].
    destruct (Z.eqb_spec ts 0) as [Hts|Hts]; cbn; [intros [= _ <-]; discriminate|].
    destruct (notify_reply w _ "APR calculation completed") as [e|] eqn:H6; cbn;
      [destruct e; intros [= _ <-]; discriminate|].
    intros _. split; [exact Hsup|].
    exists p, ts, tpi, spy, prec. repeat split; assumption.
  - intros (Hsup & p & ts & tpi & spy & prec & Hreads & Hlast & [Hspy Hprec] & Hts).
    pass_guards Hsup. unfold_world.
    destruct Hreads as (((H0 & H1 & H2) & H3 & H4) & H5).
    run_async. feed_world.
    unfold yearlyRewards_of, scaled_quotient, BigInt_div. rewrite Hspy; cbn.
    rewrite Hprec; cbn.
    apply Z.eqb_neq in Hts. rewrite Hts; cbn. feed_world.
    eexists. eexists. split; reflexivity.
Qed.

(** X6. On the supported network, when the provider resolution throws, the
    value thrown is caught: the result is failure-tagged with the message of
    the [Error] (or [Unknown error]), and neither a contract read nor a
    further notification is issued. *)
Theorem provider_failure_is_returned
    (chain : string) (acct : Address) (w : World) (e : JsThrown) :
  supported imp chain -> enters_try w ->
  provider_reply imp chain w = inl e ->
  invoke imp chain acct w =
  ([EvNotify "Checking ALP APR information...";
    EvGetProvider (chainId_value (imp.(getChainFromName) chain))],
   inr (caught e)).
Proof.
  intros Hsup H0 H1. pass_guards Hsup. unfold_world.
  run_async. rewrite H0; cbn. rewrite H1; cbn.
  destruct e; reflexivity.
Qed.

(** X7. On the supported network, when the sink rejects a progress
    notification inside the [try] block, the invocation ends there with the
    failure result of the [catch] clause.  A rejected
    [Fetching total supply...] prevents both reads, a rejected
    [Fetching tokens per interval...] prevents the second read, and a rejected
    [APR calculation completed] discards a rate that was read and computed
    without error. *)
Theorem notification_failures_are_returned
    (chain : string) (acct : Address) (w : World) (p : Provider) (e : JsThrown) :
  supported imp chain -> enters_try w -> provider_reply imp chain w = inr p ->
  (notify_reply w (calls imp chain p 2) "Fetching total supply..." = Some e ->
   invoke imp chain acct w = (calls imp chain p 3, inr (caught e))) /\
  (forall totalSupply,
     reaches_totalSupply_read imp chain w p ->
     totalSupply_reply imp chain w p = inr totalSupply ->
     notify_reply w (calls imp chain p 4) "Fetching tokens per interval..." = Some e ->
     invoke imp chain acct w = (calls imp chain p 5, inr (caught e))) /\
  (forall totalSupply tokensPerInterval spy prec,
     reads_succeed imp chain w p totalSupply tokensPerInterval ->
     constants_are imp spy prec -> totalSupply <> 0 ->
     notify_reply w (calls imp chain p 6) "APR calculation completed" = Some e ->
     invoke imp chain acct w = (calls imp chain p 7, inr (caught e))).
Proof.
  intros Hsup H0 H1. split; [|split].
  - intros H2. pass_guards Hsup. unfold_world.
    run_async. rewrite H0; cbn. rewrite H1; cbn. rewrite H2; cbn.
    destruct e; reflexivity.
  - intros ts (_ & _ & H2) H3 H4. pass_guards Hsup. unfold_world.
    run_async. rewrite H0; cbn. rewrite H1; cbn. rewrite H2, H3; cbn. rewrite H4; cbn.
    destruct e; reflexivity.
  - intros ts tpi spy prec (((_ & _ & H2) & H3 & H4) & H5) [Hspy Hprec] Hts H6.
    pass_guards Hsup. unfold_world.
    run_async. rewrite H0; cbn. rewrite H1; cbn. rewrite H2, H3; cbn. rewrite H4, H5; cbn.
    unfold yearlyRewards_of, scaled_quotient, BigInt_div. rewrite Hspy; cbn.
    rewrite Hprec; cbn.
    apply Z.eqb_neq in Hts. rewrite Hts; cbn. rewrite H6; cbn.
    destruct e; reflexivity.
Qed.

(** X8. Every failure-tagged result is of one of three kinds, and the kind
    tells how far the invocation got: the two unsupported-network messages
    are returned before any call, and a message that begins with
    [Failed to get ALP APR information: ] is returned only on the supported
    network, after the first notification was delivered and the provider was
    asked; it carries the message of what was caught. *)
Theorem failure_results_are_of_three_kinds
    (chain : string) (acct : Address) (w : World) (tr : list Event) (r : FunctionReturn) :
  invoke imp chain acct w = (tr, inr r) -> isError r = true ->
  (falsy (imp.(getChainFromName) chain) = true /\ tr = [] /\
   r = toResult ("Network " ++ chain ++ " not supported") true) \/
  (falsy (imp.(getChainFromName) chain) = false /\ chain <> imp.(NETWORKS_SONIC) /\
   tr = [] /\ r = toResult "This function is only supported on Sonic chain" true) \/
  (supported imp chain /\ enters_try w /\
   exists (e : JsThrown) (p : Provider) (k : nat),
     (2 <= k <= 7)%nat /\ tr = calls imp chain p k /\ r = caught e).
Proof.
  unfold_run. unfold ret at 1 2.
  destruct (falsy _) eqn:Hid; [intros [= <- <-] _; left; now repeat split|].
  destruct (String.eqb_spec chain (NETWORKS_SONIC imp)) as [Hname|Hname]; cbn [negb];
    [|intros [= <- <-] _; right; left; now repeat split].
  assert (Hsup : supported imp chain) by (split; assumption).
  unfold_world. run_async.
  destruct (notify_reply w [] _) as [e|] eqn:H0; cbn; [discriminate|].
  intros Hrun Herr. right; right. split; [exact Hsup|]. split; [reflexivity|].
  revert Hrun.
  destruct (getProvider_reply w _ _) as [e|p] eqn:H1; cbn.
  { destruct e as [m|d]; cbn; intros [= <- <-];
      [exists (JsError m), 0%nat, 2%nat|exists (JsNonError d), 0%nat, 2%nat];
      (split; [lia|split; reflexivity]). }
  destruct (notify_reply w _ "Fetching total supply...") as [e|] eqn:H2; cbn.
  { destruct e as [m|d]; cbn; intros [= <- <-];
      [exists (JsError m), p, 3%nat|exists (JsNonError d), p, 3%nat];
      (split; [lia|split; reflexivity]). }
  destruct (read_reply w _ p (REWARD_TRACKER imp) _) as [e|ts] eqn:H3; cbn.
  { destruct e as [m|d]; cbn; intros [= <- <-];
      [exists (JsError m), p, 4%nat|exists (JsNonError d), p, 4%nat];
      (split; [lia|split; reflexivity]). }
  destruct (notify_reply w _ "Fetching tokens per interval...") as [e|] eqn:H4; cbn.
  { destruct e as [m|d]; cbn; intros [= <- <-];
      [exists (JsError m), p, 5%nat|exists (JsNonError d), p, 5%nat];
      (split; [lia|split; reflexivity]). }
  destruct (read_reply w _ p (REWARD_DISTRIBUTOR imp) _) as [e|tpi] eqn:H5; cbn.
  { destruct e as [m|d]; cbn; intros [= <- <-];
      [exists (JsError m), p, 6%nat|exists (JsNonError d), p, 6%nat];
      (split; [lia|split; reflexivity]). }
  destruct (yearlyRewards_of _ tpi) as [e|yr] eqn:H6; cbn.
  { destruct e as [m|d]; cbn; intros [= <- <-];
      [exists (JsError m), p, 6%nat|exists (JsNonError d), p, 6%nat];
      (split; [lia|split; reflexivity]). }
  destruct (scaled_quotient _ yr ts) as [e|q] eqn:H7; cbn.
  { destruct e as [m|d]; cbn; intros [= <- <-];
      [exists (JsError m), p, 6%nat|exists (JsNonError d), p, 6%nat];
      (split; [lia|split; reflexivity]). }
  destruct (notify_reply w _ "APR calculation completed") as [e|] eqn:H8; cbn.
  { destruct e as [m|d]; cbn; intros [= <- <-];
      [exists (JsError m), p, 7%nat|exists (JsNonError d), p, 7%nat];
      (split; [lia|split; reflexivity]). }
  intros [= _ <-]. discriminate Herr.
Qed.

(** X9. The constants must be integers: on the supported network, when both
    reads answer and [BigInt(SECONDS_PER_YEAR)] throws, every invocation ends
    with the failure result that carries the engine's text for that Number;
    the same with [BigInt(PRECISION)] when the year is an integer, whatever
    [totalSupply] is.  The final notification is not issued. *)
Theorem non_integer_constants_fail
    (chain : string) (acct : Address) (w : World) (p : Provider)
    (totalSupply tokensPerInterval : Z) :
  supported imp chain ->
  reads_succeed imp chain w p totalSupply tokensPerInterval ->
  (forall e,
     BigInt_of_Number imp.(RangeError_not_an_integer) imp.(SECONDS_PER_YEAR) = inl e ->
     invoke imp chain acct w =
     (calls imp chain p 6,
      inr (toResult
             ("Failed to get ALP APR information: " ++
              imp.(RangeError_not_an_integer) imp.(SECONDS_PER_YEAR)) true))) /\
  (forall spy e,
     BigInt_of_Number imp.(RangeError_not_an_integer) imp.(SECONDS_PER_YEAR) = inr spy ->
     BigInt_of_Number imp.(RangeError_not_an_integer) imp.(PRECISION) = inl e ->
     invoke imp chain acct w =
     (calls imp chain p 6,
      inr (toResult
             ("Failed to get ALP APR information: " ++
              imp.(RangeError_not_an_integer) imp.(PRECISION)) true))).
Proof.
  intros Hsup Hreads.
  destruct Hreads as (((H0 & H1 & H2) & H3 & H4) & H5).
  split.
  - intros e Hspy. pass_guards Hsup. unfold_world. run_async. feed_world.
    unfold yearlyRewards_of. rewrite Hspy; cbn.
    now rewrite (BigInt_of_Number_throws_Error imp _ _ Hspy).
  - intros spy e Hspy Hprec. pass_guards Hsup. unfold_world. run_async. feed_world.
    unfold yearlyRewards_of, scaled_quotient. rewrite Hspy; cbn. rewrite Hprec; cbn.
    now rewrite (BigInt_of_Number_throws_Error imp _ _ Hprec).
Qed.

(** X10. A rate below the resolution of the computation is reported as zero,
    not as a failure: on the supported network, when the reads and the
    notifications succeed, the precision is positive and
    [yearlyRewards * precision * 100] is less than [totalSupply] (in
    particular when [tokensPerInterval] is zero), the result is a success
    whose [baseApr] is [0.00]. *)
Theorem rate_below_resolution_is_reported_as_zero
    (chain : string) (acct : Address) (w : World) (p : Provider)
    (totalSupply tokensPerInterval spy prec : Z) :
  supported imp chain ->
  reads_succeed imp chain w p totalSupply tokensPerInterval ->
  last_notification_succeeds imp chain w p ->
  constants_are imp spy prec -> 0 < prec ->
  0 <= tokensPerInterval * spy * prec * 100 < totalSupply ->
  invoke imp chain acct w =
  (calls imp chain p 7,
   inr (success_of "0.00"
          (BigInt_toString (tokensPerInterval * spy))
          (BigInt_toString totalSupply)
          (BigInt_toString tokensPerInterval))).
Proof.
  intros Hsup Hreads Hlast [Hspy Hprec] Hpos Hsmall. pass_guards Hsup. unfold_world.
  destruct Hreads as (((H0 & H1 & H2) & H3 & H4) & H5).
  run_async. feed_world.
  unfold yearlyRewards_of, scaled_quotient, BigInt_div. rewrite Hspy; cbn.
  rewrite Hprec; cbn.
  assert (Hts : (totalSupply =? 0) = false) by (apply Z.eqb_neq; lia).
  rewrite Hts; cbn. feed_world.
  rewrite (Z.quot_small _ _ Hsmall).
  destruct (positive_precision imp prec Hprec Hpos) as (my & ey & HP).
  unfold baseApr_of. rewrite HP.
  change (Number_of_BigInt 0) with (S754_zero false).
  rewrite Number_div_zero. reflexivity.
Qed.

(** X11. The integer fields are exact: in every success result, for unsigned
    256-bit values read and a non-negative integer year, [totalSupply] and
    [tokensPerInterval] are base-10 numerals that read back as the very values
    the two contracts returned, and [yearlyRewards] reads back as their
    product with the seconds of a year, with no wrap at 256 bits and no
    rounding to a Number. *)
Theorem integer_fields_read_back
    (chain : string) (acct : Address) (w : World)
    (tr : list Event) (r : FunctionReturn) (spy prec : Z) :
  constants_are imp spy prec -> 0 <= spy -> reads_are_u256 w ->
  invoke imp chain acct w = (tr, inr r) -> isError r = false ->
  exists (p : Provider) (totalSupply tokensPerInterval : Z) (b y t i : string),
    totalSupply_reply imp chain w p = inr totalSupply /\
    tokensPerInterval_reply imp chain w p = inr tokensPerInterval /\
    r = success_of b y t i /\
    is_decimal_numeral t = true /\ digits_value t 0 = totalSupply /\
    is_decimal_numeral i = true /\ digits_value i 0 = tokensPerInterval /\
    is_decimal_numeral y = true /\ digits_value y 0 = tokensPerInterval * spy.
Proof.
  intros Hconst Hspy Hu256 Hrun Hok.
  destruct (success_inversion imp chain acct w tr r spy prec Hconst Hrun Hok)
    as (p & ts & tpi & Hsup & Hreads & Hts & ->).
  destruct Hreads as ((_ & Hread_ts & _) & Hread_tpi).
  pose proof (Hu256 _ _ _ _ _ Hread_ts) as Hts_range.
  pose proof (Hu256 _ _ _ _ _ Hread_tpi) as Htpi_range.
  unfold is_u256 in Hts_range, Htpi_range.
  assert (Hyr : 0 <= tpi * spy) by nia.
  exists p, ts, tpi. do 4 eexists.
  split; [exact Hread_ts|]. split; [exact Hread_tpi|]. split; [reflexivity|].
  split; [apply BigInt_toString_numeral; lia|].
  split; [apply digits_value_BigInt_toString; lia|].
  split; [apply BigInt_toString_numeral; lia|].
  split; [apply digits_value_BigInt_toString; lia|].
  split; [apply BigInt_toString_numeral; exact Hyr|].
  apply digits_value_BigInt_toString; exact Hyr.
Qed.

(** X12. The function calls its collaborators exactly when the network is the
    supported one: the trace of an invocation is empty if and only if the name
    resolves to no chain id (or to the id [0]) or is not the name of the
    supported network.  A name that resolves to no chain id gets the message
    that names it, also when it is the name of the supported network. *)
Theorem calls_nothing_exactly_when_unsupported
    (chain : string) (acct : Address) (w : World) :
  (fst (invoke imp chain acct w) = [] <->
   falsy (imp.(getChainFromName) chain) = true \/ chain <> imp.(NETWORKS_SONIC)) /\
  (falsy (imp.(getChainFromName) chain) = true ->
   invoke imp chain acct w =
   ([], inr (toResult ("Network " ++ chain ++ " not supported") true))).
Proof.
  split; [split|].
  - intros Htr.
    destruct (falsy (imp.(getChainFromName) chain)) eqn:Hid; [now left|].
    destruct (String.eqb_spec chain (NETWORKS_SONIC imp)) as [Hname|Hname]; [|now right].
    exfalso. revert Htr.
    pass_guards (conj Hid Hname). run_async.
    destruct (notify_reply w [] _) as [e|]; cbn; [discriminate|].
    split_replies; discriminate.
  - intros [Hid|Hname]; unfold_run.
    + now rewrite Hid.
    + destruct (falsy _); [reflexivity|].
      apply String.eqb_neq in Hname. now rewrite Hname.
  - intros Hid. unfold_run. now rewrite Hid.
Qed.

End Outcomes.

(** * What the [baseApr] field can be *)

Section ReportedRate.

Variable imp : Imports.

(** ** When [toFixed(2)] writes two decimals *)

Lemma fixed_notation_below (x : spec_float) :
  Number_nonneg x -> Number_finite x ->
  (Number_value x < Qpower 10 21)%Q -> uses_fixed_notation x = true.
Proof.
  intros Hnn Hfin Hlt. destruct (uses_fixed_notation x) eqn:Hfix; [reflexivity|].
  pose proof (exponent_notation_bound x Hnn Hfin Hfix) as Hge.
  exfalso. apply (Qlt_not_le _ _ Hlt Hge).
Qed.

Lemma exponent_notation_above (x : spec_float) :
  Number_nonneg x ->
  (Qpower 10 21 <= Number_value x)%Q -> uses_fixed_notation x = false.
Proof.
  intros Hnn Hge. destruct (uses_fixed_notation x) eqn:Hfix; [|reflexivity].
  pose proof (fixed_notation_bound x Hnn Hfix) as Hlt.
  exfalso. apply (Qlt_not_le _ _ Hlt Hge).
Qed.

(** A fraction that runs into an exponent part is no fraction of [f]
    digits. *)
Lemma is_fraction_exponent (f : nat) (b t : string) :
  is_fraction f (b ++ String "e" t) = false.
Proof.
  revert f. induction b as [|c b IH]; intros [|f]; cbn; try reflexivity.
  rewrite IH. apply andb_false_r.
Qed.

Lemma is_fixed_decimal_integer_exponent (seen : bool) (f : nat) (a t : string) :
  all_digits a = true ->
  is_fixed_decimal_from seen f (a ++ String "e" t) = false.
Proof.
  revert seen. induction a as [|c a IH]; intros seen Ha; [reflexivity|].
  cbn in Ha. apply andb_prop in Ha. destruct Ha as [Hc Ha].
  cbn [append is_fixed_decimal_from]. rewrite Hc. now apply IH.
Qed.

Lemma is_fixed_decimal_fraction_exponent (seen : bool) (f : nat) (a b t : string) :
  all_digits a = true ->
  is_fixed_decimal_from seen f (a ++ "." ++ b ++ String "e" t) = false.
Proof.
  revert seen. induction a as [|c a IH]; intros seen Ha.
  - cbn. rewrite is_fraction_exponent. apply andb_false_r.
  - cbn in Ha. apply andb_prop in Ha. destruct Ha as [Hc Ha].
    cbn [append is_fixed_decimal_from]. rewrite Hc. now apply IH.
Qed.

(** From [10^21] on, [toString] writes an exponent part. *)
Lemma Number_toString_large_not_fixed (m : positive) (e : Z) (f : nat) :
  bounded Number_prec Number_emax m e = true ->
  (Qpower 10 21 <= Number_value (S754_finite false m e))%Q ->
  is_fixed_decimal f (Number_toString (S754_finite false m e)) = false.
Proof.
  intros Hb Hlarge.
  cbn [Number_value] in Hlarge. fold (pow2 e) in Hlarge.
  change (Zpos m # 1)%Q with (inject_Z (Zpos m)) in Hlarge.
  destruct (large_canonical m e Hb Hlarge) as [He Hm].
  destruct (shortest_decimal (Zpos m) e) as [s p] eqn:Hshort.
  destruct (shortest_decimal_sound (Zpos m) e s p ltac:(lia) ltac:(lia) Hshort)
    as (Hs & _).
  pose proof (large_shortest_decimal m e s p Hb Hlarge Hshort) as Hv.
  unfold Number_toString. rewrite Hshort.
  destruct (is_decimal_numeral_all _ (BigInt_toString_numeral s ltac:(lia))) as [Hall Hne].
  pose proof (BigInt_toString_length s ltac:(lia)) as Hlen.
  set (digits := BigInt_toString s) in *.
  set (k := Z.of_nat (String.length digits)) in *.
  assert (Hk : 1 <= k).
  { unfold k. destruct digits; [now elim Hne|]. cbn [String.length]. lia. }
  assert (Hn : 21 < k + p).
  { apply (Qpower_lt_compat_l_inv 10); [|reflexivity].
    eapply Qle_lt_trans; [exact Hv|].
    rewrite Qpower_plus by discriminate.
    apply Qmult_lt_compat_r; [apply Qpower_0_lt; reflexivity|].
    change 10%Q with (inject_Z 10). rewrite <- Zpower_Qpower by lia.
    now rewrite <- Zlt_Qlt. }
  replace ((k <=? k + p) && (k + p <=? 21)) with false
    by (symmetry; apply andb_false_intro2, Z.leb_gt; lia).
  replace ((0 <? k + p) && (k + p <=? 21)) with false
    by (symmetry; apply andb_false_intro2, Z.leb_gt; lia).
  replace ((-6 <? k + p) && (k + p <=? 0)) with false
    by (symmetry; apply andb_false_intro2, Z.leb_gt; lia).
  change ("" ++ ?x) with x. unfold is_fixed_decimal.
  destruct (k =? 1).
  - apply is_fixed_decimal_integer_exponent. exact Hall.
  - destruct (substring_split digits 1 ltac:(lia)) as [Hsplit _].
    apply is_fixed_decimal_fraction_exponent.
    assert (Hab : all_digits (substring 0 1 digits ++
                              substring 1 (String.length digits - 1) digits) = true)
      by (rewrite Hsplit; exact Hall).
    rewrite all_digits_app in Hab. apply andb_prop in Hab. exact (proj1 Hab).
Qed.

(** ** When the Number computed is finite *)

(** [Number(z)] does not overflow below [2^1023]. *)
Lemma Number_of_BigInt_finite (z : Z) :
  0 <= z <= 2 ^ 1023 ->
  Number_finite (Number_of_BigInt z) /\ Number_nonneg (Number_of_BigInt z) /\
  (Number_value (Number_of_BigInt z) <= inject_Z (2 ^ 1023))%Q.
Proof.
  intros Hz.
  pose proof (Number_of_BigInt_monotone z (2 ^ 1023) Hz) as Hle.
  assert (Htop : Number_of_BigInt (2 ^ 1023) = S754_finite false 4503599627370496 971)
    by (vm_compute; reflexivity).
  assert (Hval : (Number_value (S754_finite false 4503599627370496 971) ==
                  inject_Z (2 ^ 1023))%Q) by (vm_compute; reflexivity).
  rewrite Htop in Hle.
  destruct (rounding_of_shape _ _ (Number_of_BigInt_rounding z ltac:(lia)))
    as [Hinf|[Hfin Hnn]].
  - rewrite Hinf in Hle. contradiction.
  - split; [exact Hfin|]. split; [exact Hnn|].
    rewrite <- Hval. unfold Number_le in Hle.
    destruct (Number_of_BigInt z) as [s|[|]| |s m e]; try exact Hle;
      cbn [Number_nonneg] in Hnn; contradiction.
Qed.

(** Dividing by a precision of [1] or more does not overflow either. *)
Lemma baseApr_finite (quotient prec : Z) :
  BigInt_of_Number imp.(RangeError_not_an_integer) imp.(PRECISION) = inr prec ->
  0 < prec -> 0 <= quotient <= 2 ^ 1023 ->
  Number_finite (baseApr_of imp quotient).
Proof.
  intros Hprec Hpos Hq.
  destruct (positive_precision imp prec Hprec Hpos) as (my & ey & HP).
  assert (Hvp : (Number_value (S754_finite false my ey) == inject_Z prec)%Q).
  { apply (BigInt_of_Number_value imp.(RangeError_not_an_integer)). now rewrite <- HP. }
  destruct (Number_of_BigInt_finite quotient Hq) as (Hfin & Hnn & Hval).
  unfold baseApr_of. rewrite HP.
  destruct (Number_of_BigInt quotient) as [s|s| |[|] m e];
    cbn [Number_finite Number_nonneg] in Hfin, Hnn; try contradiction.
  - rewrite Number_div_zero. exact I.
  - pose proof (Number_div_rounding m my e ey) as Hround.
    pose proof (Number_of_BigInt_rounding (2 ^ 1023) ltac:(lia)) as Htop.
    assert (Hle : (Number_value (S754_finite false m e) /
                   Number_value (S754_finite false my ey) <= inject_Z (2 ^ 1023))%Q).
    { rewrite Hvp.
      assert (Hp1 : (1 <= inject_Z prec)%Q)
        by (change 1%Q with (inject_Z 1); rewrite <- Zle_Qle; lia).
      pose proof (Number_value_pos m e) as Hv0.
      apply Qle_shift_div_r; [lra|].
      eapply Qle_trans; [exact Hval|].
      rewrite <- inject_Z_mult, <- Zle_Qle.
      assert (HT : 0 < 2 ^ 1023) by (apply Z.pow_pos_nonneg; lia).
      revert HT. generalize (2 ^ 1023). intros T HT. nia. }
    pose proof (rounding_of_le _ _ _ _ Hround Htop Hle) as Hnle.
    replace (Number_of_BigInt (2 ^ 1023)) with (S754_finite false 4503599627370496 971)
      in Hnle by (vm_compute; reflexivity).
    destruct (rounding_of_shape _ _ Hround) as [Hinf|[Hf _]]; [|exact Hf].
    rewrite Hinf in Hnle. contradiction.
Qed.

(** ** The field, from the two values read *)

Lemma quotient_nonneg (spy prec totalSupply tokensPerInterval : Z) :
  0 <= spy -> 0 < prec -> is_u256 totalSupply -> totalSupply <> 0 ->
  is_u256 tokensPerInterval ->
  0 <= Z.quot (tokensPerInterval * spy * prec * 100) totalSupply.
Proof.
  unfold is_u256. intros Hspy Hpos Hts Hts0 Htpi.
  apply Z.quot_pos; [|lia]. repeat apply Z.mul_nonneg_nonneg; lia.
Qed.

Lemma quotient_upper_bound (spy prec totalSupply tokensPerInterval bound : Z) :
  0 <= spy -> 0 < prec -> 0 < totalSupply -> 0 <= tokensPerInterval ->
  tokensPerInterval * spy * 100 <= bound * totalSupply ->
  Z.quot (tokensPerInterval * spy * prec * 100) totalSupply <= bound * prec.
Proof.
  intros Hspy Hpos Hts Htpi Hrate.
  assert (Hnum : 0 <= tokensPerInterval * spy * 100)
    by (repeat apply Z.mul_nonneg_nonneg; lia).
  replace (tokensPerInterval * spy * prec * 100)
    with (tokensPerInterval * spy * 100 * prec) by ring.
  apply Z.quot_le_upper_bound; [exact Hts|].
  replace (totalSupply * (bound * prec)) with (bound * totalSupply * prec) by ring.
  apply Z.mul_le_mono_nonneg_r; lia.
Qed.

Lemma exact_rate_bounds (yearlyRewards totalSupply lo hi : Z) :
  0 < totalSupply ->
  (lo * totalSupply <= yearlyRewards * 100 ->
   (inject_Z lo <= exact_rate yearlyRewards totalSupply)%Q) /\
  (yearlyRewards * 100 <= hi * totalSupply ->
   (exact_rate yearlyRewards totalSupply <= inject_Z hi)%Q).
Proof.
  intros Hts. unfold exact_rate.
  assert (Ht : (0 < inject_Z totalSupply)%Q)
    by (change 0%Q with (inject_Z 0); now rewrite <- Zlt_Qlt).
  split; intros H.
  - apply Qle_shift_div_l; [exact Ht|]. now rewrite <- inject_Z_mult, <- Zle_Qle.
  - apply Qle_shift_div_r; [exact Ht|]. now rewrite <- inject_Z_mult, <- Zle_Qle.
Qed.

Lemma inverse_precision_le_1 (prec : Z) : 0 < prec -> (0 <= 1 / inject_Z prec <= 1)%Q.
Proof.
  intros Hpos.
  assert (Hp1 : (1 <= inject_Z prec)%Q)
    by (change 1%Q with (inject_Z 1); rewrite <- Zle_Qle; lia).
  split.
  - apply Qle_shift_div_l; lra.
  - apply Qle_shift_div_r; lra.
Qed.

(** In that range the Number computed is finite, not negative and below
    [10^21]. *)
Lemma fixed_notation_in_range (spy prec totalSupply tokensPerInterval : Z) :
  constants_are imp spy prec -> 0 <= spy -> 0 < prec <= 10 ^ 280 ->
  is_u256 totalSupply -> totalSupply <> 0 -> is_u256 tokensPerInterval ->
  tokensPerInterval * spy * 100 <= (10 ^ 21 - 10 ^ 6) * totalSupply ->
  let x := baseApr_of imp (Z.quot (tokensPerInterval * spy * prec * 100) totalSupply) in
  Number_nonneg x /\ Number_finite x /\ uses_fixed_notation x = true.
Proof.
  intros Hc Hspy [Hpos Hmax] Hts Hts0 Htpi Hrate x. unfold x. clear x.
  pose proof (baseApr_of_error imp spy prec totalSupply tokensPerInterval
                Hc Hspy Hpos Hts Hts0 Htpi) as Herr.
  cbn zeta in Herr.
  pose proof (quotient_nonneg spy prec totalSupply tokensPerInterval Hspy Hpos Hts Hts0 Htpi)
    as Hq0.
  unfold is_u256 in Hts, Htpi.
  pose proof (quotient_upper_bound spy prec totalSupply tokensPerInterval _
                Hspy Hpos ltac:(lia) ltac:(lia) Hrate) as Hq1.
  assert (Htop : (10 ^ 21 - 10 ^ 6) * 10 ^ 280 <= 2 ^ 1023)
    by (apply Z.leb_le; vm_compute; reflexivity).
  assert (Hq2 : (10 ^ 21 - 10 ^ 6) * prec <= 2 ^ 1023).
  { eapply Z.le_trans; [|exact Htop]. apply Z.mul_le_mono_nonneg_l; [|exact Hmax].
    apply Z.leb_le. vm_compute. reflexivity. }
  destruct Hc as [_ Hprec].
  pose proof (baseApr_nonneg imp _ prec Hprec Hpos Hq0) as Hnn.
  pose proof (baseApr_finite _ prec Hprec Hpos (conj Hq0 (Z.le_trans _ _ _ Hq1 Hq2)))
    as Hfin.
  specialize (Herr Hfin). apply Qabs_Qle_condition in Herr.
  destruct (exact_rate_bounds (tokensPerInterval * spy) totalSupply 0 (10 ^ 21 - 10 ^ 6)
              ltac:(lia)) as [_ Hhi].
  specialize (Hhi Hrate).
  change (inject_Z (10 ^ 21 - 10 ^ 6)) with 999999999999999000000%Q in Hhi.
  pose proof (inverse_precision_le_1 prec Hpos) as Hinv.
  pose proof (pow2_le (-1073) 0 ltac:(lia)) as Htiny. change (pow2 0) with 1%Q in Htiny.
  change (pow2 (-51)) with (1 # 2251799813685248)%Q in Herr.
  set (x := baseApr_of imp _) in *.
  split; [exact Hnn|]. split; [exact Hfin|].
  apply fixed_notation_below; [exact Hnn|exact Hfin|].
  change (Qpower 10 21) with 1000000000000000000000%Q.
  set (tiny := pow2 (-1073)) in *. lra.
Qed.

(** X13. Below [10^21] the two decimals are there: for unsigned 256-bit
    values, a non-zero total supply and non-negative integer constants with a
    precision of at most [10^280], when the exact rate
    [(yearlyRewards * 100) / totalSupply] is at most [10^21 - 10^6] the
    [baseApr] field is a decimal numeral with exactly two fractional
    digits. *)
Theorem two_decimals_below_1e21 (spy prec totalSupply tokensPerInterval : Z) :
  constants_are imp spy prec -> 0 <= spy -> 0 < prec <= 10 ^ 280 ->
  is_u256 totalSupply -> totalSupply <> 0 -> is_u256 tokensPerInterval ->
  tokensPerInterval * spy * 100 <= (10 ^ 21 - 10 ^ 6) * totalSupply ->
  is_fixed_decimal 2 (baseApr_string imp spy prec totalSupply tokensPerInterval) = true.
Proof.
  intros Hc Hspy Hprec Hts Hts0 Htpi Hrate.
  destruct (fixed_notation_in_range spy prec totalSupply tokensPerInterval
              Hc Hspy Hprec Hts Hts0 Htpi Hrate) as (Hnn & Hfin & Hfix).
  unfold baseApr_string.
  rewrite (Number_toFixed_fixed _ 2 Hnn Hfix).
  apply fixed_point_digits_valid; [|lia].
  apply nearest_scaled_nonneg, Number_value_nonneg, Hnn.
Qed.

(** X14. From [10^21] on they are not: under the same conditions on the
    values and the constants (any positive precision), when the exact rate is
    [10^21 + 10^6] or more the [baseApr] field is not a decimal numeral with
    two fractional digits; it is what [toString] writes, an exponent notation
    or [Infinity]. *)
Theorem no_two_decimals_from_1e21 (spy prec totalSupply tokensPerInterval : Z) :
  constants_are imp spy prec -> 0 <= spy -> 0 < prec ->
  is_u256 totalSupply -> totalSupply <> 0 -> is_u256 tokensPerInterval ->
  (10 ^ 21 + 10 ^ 6) * totalSupply <= tokensPerInterval * spy * 100 ->
  is_fixed_decimal 2 (baseApr_string imp spy prec totalSupply tokensPerInterval) = false /\
  baseApr_string imp spy prec totalSupply tokensPerInterval =
  Number_toString
    (baseApr_of imp (Z.quot (tokensPerInterval * spy * prec * 100) totalSupply)).
Proof.
  intros Hc Hspy Hpos Hts Hts0 Htpi Hrate.
  pose proof (baseApr_of_error imp spy prec totalSupply tokensPerInterval
                Hc Hspy Hpos Hts Hts0 Htpi) as Herr.
  cbn zeta in Herr.
  pose proof (quotient_nonneg spy prec totalSupply tokensPerInterval Hspy Hpos Hts Hts0 Htpi)
    as Hq0.
  unfold is_u256 in Hts, Htpi.
  destruct Hc as [_ Hprec].
  unfold baseApr_string.
  destruct (baseApr_shape imp _ prec Hprec Hpos Hq0) as [Hinf|[Hfin Hnn]].
  { rewrite Hinf. split; reflexivity. }
  specialize (Herr Hfin). apply Qabs_Qle_condition in Herr.
  destruct (exact_rate_bounds (tokensPerInterval * spy) totalSupply (10 ^ 21 + 10 ^ 6) 0
              ltac:(lia)) as [Hlo _].
  specialize (Hlo Hrate).
  change (inject_Z (10 ^ 21 + 10 ^ 6)) with 1000000000000001000000%Q in Hlo.
  pose proof (inverse_precision_le_1 prec Hpos) as Hinv.
  pose proof (pow2_le (-1073) 0 ltac:(lia)) as Htiny. change (pow2 0) with 1%Q in Htiny.
  change (pow2 (-51)) with (1 # 2251799813685248)%Q in Herr.
  set (x := baseApr_of imp _) in *.
  assert (Hlarge : (Qpower 10 21 <= Number_value x)%Q).
  { change (Qpower 10 21) with 1000000000000000000000%Q.
    set (tiny := pow2 (-1073)) in *. lra. }
  pose proof (exponent_notation_above x Hnn Hlarge) as Hfix.
  rewrite (Number_toFixed_large x 2 Hnn Hfix). split; [|reflexivity].
  destruct x as [s|s| |[|] m e]; cbn [Number_finite Number_nonneg] in Hfin, Hnn;
    try contradiction; try discriminate Hfix.
  now apply Number_toString_large_not_fixed.
Qed.

(** X15. The field always denotes a number: for unsigned 256-bit values, a
    non-zero total supply and non-negative integer constants small enough for
    the largest quotient to fit binary64 ([spy * prec * 100 <= 2^767]), the
    [baseApr] field reads as a finite non-negative number; it is never [NaN],
    [Infinity] or negative. *)
Theorem baseApr_is_a_finite_numeral (spy prec totalSupply tokensPerInterval : Z) :
  constants_are imp spy prec -> 0 <= spy -> 0 < prec -> spy * prec * 100 <= 2 ^ 767 ->
  is_u256 totalSupply -> totalSupply <> 0 -> is_u256 tokensPerInterval ->
  exists v : Q,
    numeral_value (baseApr_string imp spy prec totalSupply tokensPerInterval) =
    Some (Rep_value v) /\ (0 <= v)%Q.
Proof.
  intros [_ Hprec] Hspy Hpos Hsmall Hts Hts0 Htpi.
  pose proof (quotient_nonneg spy prec totalSupply tokensPerInterval Hspy Hpos Hts Hts0 Htpi)
    as Hq0.
  unfold is_u256 in Hts, Htpi.
  assert (Hq1 : Z.quot (tokensPerInterval * spy * prec * 100) totalSupply <= 2 ^ 1023).
  { assert (Hk : 0 <= spy * prec * 100) by nia.
    replace (tokensPerInterval * spy * prec * 100)
      with (tokensPerInterval * (spy * prec * 100)) by ring.
    eapply Z.le_trans.
    - apply (Z.quot_le_upper_bound _ totalSupply (tokensPerInterval * (spy * prec * 100)));
        [lia|].
      assert (0 <= tokensPerInterval * (spy * prec * 100)) by nia. nia.
    - change (2 ^ 1023) with (2 ^ 256 * 2 ^ 767).
      apply Z.mul_le_mono_nonneg; lia. }
  pose proof (baseApr_nonneg imp _ prec Hprec Hpos Hq0) as Hnn.
  pose proof (baseApr_finite _ prec Hprec Hpos (conj Hq0 Hq1)) as Hfin.
  unfold baseApr_string. set (x := baseApr_of imp _) in *.
  destruct (uses_fixed_notation x) eqn:Hfix.
  - destruct (toFixed_reads_fixed x Hnn Hfix) as [Hread _].
    eexists. split; [exact Hread|].
    pose proof (nearest_scaled_nonneg (Number_value x) 2 (Number_value_nonneg x Hnn)) as Hn.
    apply Qmult_le_0_compat; [|discriminate].
    change 0%Q with (inject_Z 0). now rewrite <- Zle_Qle.
  - destruct x as [s|s| |[|] m e]; cbn [Number_finite Number_nonneg] in Hfin, Hnn;
      try contradiction; try discriminate Hfix.
    destruct (toFixed_reads_large m e Hfin Hfix) as (v & Hread & Hv & _).
    exists v. split; [exact Hread|].
    eapply Qle_trans; [|exact Hv]. discriminate.
Qed.

(** X16. The field depends on the two values only through their ratio:
    multiplying [totalSupply] and [tokensPerInterval] by the same non-zero
    factor leaves [baseApr] unchanged, because the division is made on
    integers before any conversion to a Number. *)
Theorem baseApr_is_scale_invariant (spy prec totalSupply tokensPerInterval k : Z) :
  totalSupply <> 0 -> k <> 0 ->
  baseApr_string imp spy prec (totalSupply * k) (tokensPerInterval * k) =
  baseApr_string imp spy prec totalSupply tokensPerInterval.
Proof.
  intros Hts Hk. unfold baseApr_string.
  replace (tokensPerInterval * k * spy * prec * 100)
    with (tokensPerInterval * spy * prec * 100 * k) by ring.
  now rewrite Z.quot_mul_cancel_r.
Qed.

(** ** The field against the rate as the specification words it *)

(** The Number computed for [baseApr] against the scaled quotient divided
    exactly by the precision: two roundings apart. *)
Lemma baseApr_of_quotient_error (quotient prec : Z) :
  BigInt_of_Number imp.(RangeError_not_an_integer) imp.(PRECISION) = inr prec ->
  0 < prec -> 0 <= quotient ->
  Number_finite (baseApr_of imp quotient) ->
  (Qabs (Number_value (baseApr_of imp quotient) - spec_scaled_back quotient prec) <=
   spec_scaled_back quotient prec * pow2 (-51) + pow2 (-1073))%Q.
Proof.
  intros Hprec Hpos Hq Hfin.
  destruct (positive_precision imp prec Hprec Hpos) as (my & ey & HP).
  assert (Hvp : (Number_value (S754_finite false my ey) == inject_Z prec)%Q).
  { apply (BigInt_of_Number_value imp.(RangeError_not_an_integer)). now rewrite <- HP. }
  pose proof (Number_of_BigInt_rounding quotient Hq) as HN0.
  unfold spec_scaled_back. unfold baseApr_of in *. rewrite HP in *.
  set (N0 := Number_of_BigInt quotient) in *.
  set (x := Number_div N0 (S754_finite false my ey)) in *.
  assert (Hp1 : (1 <= inject_Z prec)%Q)
    by (change 1%Q with (inject_Z 1); rewrite <- Zle_Qle; lia).
  set (ip := (/ inject_Z prec)%Q).
  assert (Hip : (0 < ip)%Q) by (apply Qinv_lt_0_compat; lra).
  assert (Hip1 : (ip <= 1)%Q).
  { unfold ip. setoid_replace (/ inject_Z prec)%Q with (1 / inject_Z prec)%Q
      by (unfold Qdiv; ring).
    apply Qle_shift_div_r; lra. }
  set (eta := pow2 (-1075)).
  assert (Heta : (0 < eta)%Q) by apply pow2_pos.
  assert (Heta4 : (pow2 (-1073) == 4 * eta)%Q) by reflexivity.
  change (pow2 (-51)) with (1 # 2251799813685248)%Q.
  assert (HT : (eta * ip <= eta)%Q).
  { setoid_replace eta with (eta * 1)%Q at 2 by ring.
    apply Qmult_le_l; assumption. }
  assert (HT0 : (0 <= eta * ip)%Q) by (apply Qmult_le_0_compat; lra).
  set (q' := inject_Z quotient) in *.
  assert (Hq' : (0 <= q')%Q) by (unfold q'; change 0%Q with (inject_Z 0); now rewrite <- Zle_Qle).
  assert (HA0 : (0 <= q' * ip)%Q) by (apply Qmult_le_0_compat; lra).
  (* the first rounding *)
  assert (HN0fin : Number_finite N0 /\ Number_nonneg N0).
  { destruct (rounding_of_shape _ _ HN0) as [Hinf|H]; [|exact H].
    exfalso. unfold x in Hfin. rewrite Hinf in Hfin. exact Hfin. }
  destruct HN0fin as [HN0fin HN0nn].
  pose proof (rounding_error _ _ HN0 HN0fin) as Herr0. fold q' eta in Herr0.
  change (pow2 (-53)) with (1 # 9007199254740992)%Q in Herr0.
  apply Qabs_Qle_condition in Herr0. destruct Herr0 as [Herr0l Herr0h].
  set (n0 := Number_value N0) in *.
  assert (Hs1 : ((n0 - q') * ip <= (q' * (1 # 9007199254740992) + eta) * ip)%Q)
    by (apply Qmult_le_compat_r; lra).
  assert (Hs2 : ((- (q' * (1 # 9007199254740992) + eta)) * ip <= (n0 - q') * ip)%Q)
    by (apply Qmult_le_compat_r; lra).
  assert (Hr1 : ((n0 - q') * ip == n0 * ip - q' * ip)%Q) by ring.
  assert (Hr2 : ((q' * (1 # 9007199254740992) + eta) * ip ==
                 q' * ip * (1 # 9007199254740992) + eta * ip)%Q) by ring.
  assert (Hr3 : ((- (q' * (1 # 9007199254740992) + eta)) * ip ==
                 - (q' * ip * (1 # 9007199254740992) + eta * ip))%Q) by ring.
  rewrite Hr1, Hr2 in Hs1. rewrite Hr1, Hr3 in Hs2.
  (* the second rounding *)
  assert (Herr1 : (- (n0 * ip * (1 # 9007199254740992) + eta) <= Number_value x - n0 * ip /\
                   Number_value x - n0 * ip <= n0 * ip * (1 # 9007199254740992) + eta)%Q).
  { destruct N0 as [s|s| |[|] m e]; cbn [Number_finite Number_nonneg] in HN0fin, HN0nn;
      try contradiction.
    - unfold x. rewrite Number_div_zero. unfold n0. cbn [Number_value]. split; lra.
    - pose proof (rounding_error _ _ (Number_div_rounding m my e ey) Hfin) as Herr.
      fold x in Herr. rewrite Hvp in Herr. fold n0 in Herr.
      unfold Qdiv in Herr. fold ip eta in Herr.
      change (pow2 (-53)) with (1 # 9007199254740992)%Q in Herr.
      now apply Qabs_Qle_condition in Herr. }
  destruct Herr1 as [Herr1l Herr1h].
  apply Qabs_Qle_condition. unfold Qdiv. fold ip.
  split; lra.
Qed.

(** Rounding to hundredths keeps the order. *)
Lemma nearest_scaled_monotone (a b : Q) (f : nat) :
  (a <= b)%Q -> nearest_scaled a f <= nearest_scaled b f.
Proof.
  intros Hab. unfold nearest_scaled. apply Qfloor_resp_le.
  assert (H10 : (0 <= Qpower 10 (Z.of_nat f))%Q)
    by (apply Qlt_le_weak, Qpower_0_lt; reflexivity).
  pose proof (Qmult_le_compat_r _ _ _ Hab H10) as H. lra.
Qed.

(** C1 (amended). On the supported network, when both reads succeed with
    unsigned 256-bit values, [totalSupply] is not zero, the notifications are
    delivered, the constants are non-negative integers with a precision of at
    most [10^280] and the exact rate is at most [10^21 - 10^6], the success
    result holds [yearlyRewards = tokensPerInterval * seconds_per_year]
    exactly, and [baseApr] is a numeral [n / 100] with two decimals that is the
    scaled quotient, scaled back down by the precision and rounded to two
    decimals, up to the rounding of binary64: with [r] the quotient divided
    exactly by the precision and [eps = r * 2^-51 + 2^-1073], the integer [n]
    lies between [r - eps] and [r + eps] rounded to hundredths, and [baseApr]
    is [r] rounded to two decimals whenever these two roundings agree. *)
Theorem success_result_is_the_rounded_rate
    (chain : string) (acct : Address) (w : World) (p : Provider)
    (totalSupply tokensPerInterval spy prec : Z) :
  supported imp chain ->
  reads_succeed imp chain w p totalSupply tokensPerInterval ->
  last_notification_succeeds imp chain w p ->
  constants_are imp spy prec -> 0 <= spy -> 0 < prec <= 10 ^ 280 ->
  is_u256 totalSupply -> totalSupply <> 0 -> is_u256 tokensPerInterval ->
  tokensPerInterval * spy * 100 <= (10 ^ 21 - 10 ^ 6) * totalSupply ->
  let yearlyRewards := tokensPerInterval * spy in
  let quotient := Z.quot (yearlyRewards * prec * 100) totalSupply in
  let r := spec_scaled_back quotient prec in
  let eps := (r * pow2 (-51) + pow2 (-1073))%Q in
  exists n : Z,
    invoke imp chain acct w =
    (calls imp chain p 7,
     inr (success_of (fixed_point_digits n 2)
            (BigInt_toString yearlyRewards)
            (BigInt_toString totalSupply)
            (BigInt_toString tokensPerInterval))) /\
    is_decimal_numeral (BigInt_toString yearlyRewards) = true /\
    digits_value (BigInt_toString yearlyRewards) 0 = tokensPerInterval * spy /\
    is_fixed_decimal 2 (fixed_point_digits n 2) = true /\
    numeral_value (fixed_point_digits n 2) = Some (Rep_value (inject_Z n * (1 # 100))%Q) /\
    nearest_scaled (r - eps) 2 <= n <= nearest_scaled (r + eps) 2 /\
    (nearest_scaled (r - eps) 2 = nearest_scaled (r + eps) 2 ->
     fixed_point_digits n 2 = spec_baseApr quotient prec).
Proof.
  intros Hsup Hreads Hlast Hc Hspy Hprec Hts Hts0 Htpi Hrate yearlyRewards quotient r eps.
  pose proof (success_result_fields imp chain acct w p totalSupply tokensPerInterval
                spy prec Hsup Hreads Hlast Hc Hts0) as Hrun.
  cbn zeta in Hrun. fold yearlyRewards quotient in Hrun.
  destruct (fixed_notation_in_range spy prec totalSupply tokensPerInterval
              Hc Hspy Hprec Hts Hts0 Htpi Hrate) as (Hnn & Hfin & Hfix).
  fold yearlyRewards quotient in Hnn, Hfin, Hfix.
  fold (baseApr_of imp quotient) in Hrun.
  pose proof (quotient_nonneg spy prec totalSupply tokensPerInterval Hspy (proj1 Hprec)
                Hts Hts0 Htpi) as Hq0.
  fold yearlyRewards quotient in Hq0.
  pose proof (baseApr_of_quotient_error quotient prec (proj2 Hc) (proj1 Hprec) Hq0 Hfin)
    as Herr.
  fold r eps in Herr. apply Qabs_Qle_condition in Herr.
  set (x := baseApr_of imp quotient) in *.
  rewrite (Number_toFixed_fixed x 2 Hnn Hfix) in Hrun.
  pose proof (nearest_scaled_nonneg (Number_value x) 2 (Number_value_nonneg x Hnn)) as Hn0.
  set (n := nearest_scaled (Number_value x) 2) in *.
  assert (Hyr : 0 <= yearlyRewards) by (unfold yearlyRewards, is_u256 in *; nia).
  assert (Hlo : nearest_scaled (r - eps) 2 <= n)
    by (apply nearest_scaled_monotone; lra).
  assert (Hhi : n <= nearest_scaled (r + eps) 2)
    by (apply nearest_scaled_monotone; lra).
  exists n.
  split; [exact Hrun|].
  split; [now apply BigInt_toString_numeral|].
  split; [now apply digits_value_BigInt_toString|].
  split; [apply fixed_point_digits_valid; [exact Hn0|lia]|].
  split; [apply numeral_value_fixed_point_digits; [exact Hn0|lia]|].
  split; [split; assumption|].
  intros Hsame. unfold spec_baseApr. fold r. f_equal.
  assert (Heps : (0 <= eps)%Q).
  { unfold eps.
    assert (Hr : (0 <= r)%Q).
    { unfold r, spec_scaled_back. apply Qle_shift_div_l.
      - change 0%Q with (inject_Z 0). rewrite <- Zlt_Qlt. lia.
      - rewrite Qmult_0_l. change 0%Q with (inject_Z 0). now rewrite <- Zle_Qle. }
    pose proof (pow2_pos (-51)) as H51. pose proof (pow2_pos (-1073)) as H1073.
    assert (0 <= r * pow2 (-51))%Q by (apply Qmult_le_0_compat; lra). lra. }
  pose proof (nearest_scaled_monotone (r - eps) r 2 ltac:(lra)) as H1.
  pose proof (nearest_scaled_monotone r (r + eps) 2 ltac:(lra)) as H2.
  lia.
Qed.

End ReportedRate.

(** * The text of a success result *)

Section SuccessText.

Variable imp : Imports.

Lemma plain_app (a b : string) : plain (a ++ b) = plain a && plain b.
Proof.
  induction a as [|c a IH]; [reflexivity|].
  cbn [append plain]. rewrite IH. apply andb_assoc.
Qed.

Lemma plain_digit (c : ascii) : is_digit c = true -> plain_char c = true.
Proof.
  destruct c as [[|] [|] [|] [|] [|] [|] [|] [|]]; intros H;
    try discriminate H; reflexivity.
Qed.

Lemma plain_digits (s : string) : all_digits s = true -> plain s = true.
Proof.
  induction s as [|c s IH]; [reflexivity|].
  cbn [all_digits plain]. intros H. apply andb_prop in H. destruct H as [Hc Hs].
  now rewrite (plain_digit c Hc), IH.
Qed.

Lemma plain_substring (n m : nat) (s : string) :
  plain s = true -> plain (substring n m s) = true.
Proof.
  revert n m. induction s as [|c s IH]; intros [|n] [|m] H; cbn; try reflexivity.
  - cbn in H. apply andb_prop in H. destruct H as [Hc Hs]. now rewrite Hc, IH.
  - cbn in H. apply andb_prop in H. now apply IH.
  - cbn in H. apply andb_prop in H. now apply IH.
Qed.

Lemma plain_zeros (n : nat) : plain (zeros n) = true.
Proof. apply plain_digits, all_digits_zeros. Qed.

Lemma plain_BigInt_toString (z : Z) : plain (BigInt_toString z) = true.
Proof.
  destruct z as [|p|p]; [reflexivity| |].
  - rewrite BigInt_toString_pos. apply plain_digits, all_digits_of_uint.
  - unfold BigInt_toString. cbn [Z.to_int NilZero.string_of_int plain].
    apply andb_true_intro. split; [reflexivity|].
    unfold NilZero.string_of_uint.
    destruct (Pos.to_uint p) eqn:E; [reflexivity|..];
      rewrite <- E; apply plain_digits, all_digits_of_uint.
Qed.

Ltac plain_parts :=
  repeat rewrite plain_app;
  repeat (apply andb_true_intro; split);
  first [ reflexivity
        | apply plain_substring, plain_BigInt_toString
        | apply plain_zeros
        | apply plain_BigInt_toString ].

(** [toString] and [toFixed] write digits, a point, a sign, an exponent mark
    or a name; nothing [JSON.stringify] would escape. *)
Lemma plain_Number_toString (x : spec_float) : plain (Number_toString x) = true.
Proof.
  destruct x as [s|s| |sg m e]; [reflexivity|now destruct s|reflexivity|].
  unfold Number_toString. destruct (shortest_decimal (Zpos m) e) as [s p].
  cbv zeta.
  destruct sg;
    repeat match goal with
    | |- context [if ?b then _ else _] => destruct b
    end; plain_parts.
Qed.

Lemma plain_fixed_point_digits (n : Z) (f : nat) : plain (fixed_point_digits n f) = true.
Proof.
  unfold fixed_point_digits. destruct f as [|f]; [apply plain_BigInt_toString|].
  cbv zeta. destruct (_ <=? _)%nat; repeat rewrite plain_app;
    repeat (apply andb_true_intro; split);
    first [ reflexivity
          | apply plain_substring; rewrite plain_app, plain_zeros, plain_BigInt_toString;
            reflexivity
          | apply plain_substring, plain_BigInt_toString ].
Qed.

Lemma plain_Number_toFixed (x : spec_float) (f : nat) : plain (Number_toFixed x f) = true.
Proof.
  unfold Number_toFixed.
  destruct x as [s|s| |sg m e]; try apply plain_Number_toString;
    cbv zeta; rewrite plain_app;
    repeat match goal with
    | |- context [if ?b then _ else _] => destruct b
    end;
    cbn [plain andb];
    first [ apply plain_Number_toString | apply plain_fixed_point_digits
          | rewrite plain_Number_toString; reflexivity
          | rewrite plain_fixed_point_digits; reflexivity ].
Qed.

Lemma json_escape_plain (s : string) : plain s = true -> json_escape s = s.
Proof.
  induction s as [|c s IH]; [reflexivity|].
  cbn [plain json_escape]. intros H. apply andb_prop in H. destruct H as [Hc Hs].
  apply String.eqb_eq in Hc. now rewrite Hc, IH.
Qed.

Lemma json_quote_plain (s : string) : plain s = true -> json_quote s = quoted s.
Proof. intros H. unfold json_quote, quoted. now rewrite json_escape_plain. Qed.

(** X17. The data of every success result is the text of one JSON object
    with the four members in the order [baseApr], [yearlyRewards],
    [totalSupply], [tokensPerInterval]; each value is written between double
    quotes exactly as [toFixed] or [toString] produced it, for it holds no
    character that [JSON.stringify] escapes. *)
Theorem success_data_is_written_verbatim
    (chain : string) (acct : Address) (w : World) (tr : list Event) (r : FunctionReturn) :
  invoke imp chain acct w = (tr, inr r) -> isError r = false ->
  exists b y t i : string,
    r = success_of b y t i /\
    plain b = true /\ plain y = true /\ plain t = true /\ plain i = true /\
    data r =
    "{" ++ quoted "baseApr" ++ ":" ++ quoted b ++ "," ++
    quoted "yearlyRewards" ++ ":" ++ quoted y ++ "," ++
    quoted "totalSupply" ++ ":" ++ quoted t ++ "," ++
    quoted "tokensPerInterval" ++ ":" ++ quoted i ++ "}".
Proof.
  intros Hrun Hok.
  assert (Hshape : exists q yr ts tpi,
             r = success_of (Number_toFixed (baseApr_of imp q) 2) (BigInt_toString yr)
                   (BigInt_toString ts) (BigInt_toString tpi)).
  { revert Hrun. unfold invoke, getALPAPR; cbn [chainName account].
    destruct (falsy _); [intros [= _ <-]; discriminate|].
    destruct (negb _); [intros [= _ <-]; discriminate|].
    unfold bind, try_catch, notify, getProvider, contract_read, lift, ret;
      cbn [app publicClient address fst snd].
    destruct (notify_reply w [] _) as [e|]; cbn; [discriminate|].
    destruct (getProvider_reply w _ _) as [e|p]; cbn;
      [destruct e; intros [= _ <-]; discriminate|].
    destruct (notify_reply w _ "Fetching total supply...") as [e|]; cbn;
      [destruct e; intros [= _ <-]; discriminate|].
    destruct (read_reply w _ p (REWARD_TRACKER imp) _) as [e|ts]; cbn;
      [destruct e; intros [= _ <-]; discriminate|].
    destruct (notify_reply w _ "Fetching tokens per interval...") as [e|]; cbn;
      [destruct e; intros [= _ <-]; discriminate|].
    destruct (read_reply w _ p (REWARD_DISTRIBUTOR imp) _) as [e|tpi]; cbn;
      [destruct e; intros [= _ <-]; discriminate|].
    destruct (yearlyRewards_of imp tpi) as [e|yr]; cbn;
      [destruct e; intros [= _ <-]; discriminate|].
    destruct (scaled_quotient imp yr ts) as [e|q]; cbn;
      [destruct e; intros [= _ <-]; discriminate|].
    destruct (notify_reply w _ "APR calculation completed") as [e|]; cbn;
      [destruct e; intros [= _ <-]; discriminate|].
    intros [= _ <-]. now exists q, yr, ts, tpi. }
  destruct Hshape as (q & yr & ts & tpi & ->).
  do 4 eexists. split; [reflexivity|].
  pose proof (plain_Number_toFixed (baseApr_of imp q) 2) as Hb.
  pose proof (plain_BigInt_toString yr) as Hy.
  pose proof (plain_BigInt_toString ts) as Ht.
  pose proof (plain_BigInt_toString tpi) as Hi.
  repeat (split; [assumption|]).
  unfold success_of; cbn [data]. unfold JSON_stringify; cbn [json_members].
  rewrite !json_quote_plain by (assumption || reflexivity).
  repeat rewrite app_assoc. reflexivity.
Qed.

End SuccessText.

(** * The properties at work on the sample setting *)


Lemma sample_supported : supported Sample.imports "sonic".
Proof. split; reflexivity. Defined.

Lemma sample_constants :
  constants_are Sample.imports 31536000 Sample.precision.
Proof. split; vm_compute; reflexivity. Defined.

Lemma sample_reads_succeed (totalSupply tokensPerInterval : Z) :
  reads_succeed Sample.imports
    "sonic" (Sample.world totalSupply tokensPerInterval) 1%nat totalSupply tokensPerInterval.
Proof. repeat split. Defined.

(** C10, run: the sink rejects the first notification with an [Error]; the
    invocation throws it. *)
Lemma first_notification_failure_escapes_witness :
  invoke Sample.imports "sonic" "0xabc" (Sample.world_notify_fails (JsError "sink closed")) =
  ([EvNotify "Checking ALP APR information..."], inl (JsError "sink closed")).
Proof.
  exact (first_notification_failure_escapes
           Sample.imports
           "sonic" "0xabc" (Sample.world_notify_fails (JsError "sink closed"))
           (JsError "sink closed") sample_supported eq_refl).
Defined.

(** C2, the claim as stated fails: [ethereum] resolves to a chain, is not the
    supported network, and the failure message does not mention it. *)
Lemma unsupported_message_may_omit_the_name :
  String.eqb "ethereum" (NETWORKS_SONIC Sample.imports) = false /\
  invoke Sample.imports "ethereum" "0xabc" (Sample.world 1000000 1) =
  ([], inr (toResult "This function is only supported on Sonic chain" true)) /\
  contains "ethereum" "This function is only supported on Sonic chain" = false.
Proof. repeat split. Qed.

(** C2 (amended), run on a name that resolves to another chain. *)
Lemma unsupported_network_fails_without_calls_witness :
  exists message,
    invoke Sample.imports "ethereum" "0xabc" (Sample.world 1000000 1) =
    ([], inr (toResult message true)) /\
    (falsy (getChainFromName Sample.imports "ethereum") = true ->
       message = "Network " ++ "ethereum" ++ " not supported" /\
       contains "ethereum" message = true) /\
    (falsy (getChainFromName Sample.imports "ethereum") = false ->
       message = "This function is only supported on Sonic chain").
Proof.
  apply (unsupported_network_fails_without_calls
           Sample.imports
           "ethereum" "0xabc" (Sample.world 1000000 1)).
  discriminate.
Defined.

(** C3, run: the [totalSupply] read rejects with an [Error]; its message is
    in the failure result. *)
Lemma read_failures_are_returned_witness :
  invoke Sample.imports "sonic" "0xabc" (Sample.world_totalSupply_fails (JsError "execution reverted")) =
  ([EvNotify "Checking ALP APR information...";
    EvGetProvider 146;
    EvNotify "Fetching total supply...";
    EvRead 1%nat "0xRewardTracker" "totalSupply"],
   inr (toResult "Failed to get ALP APR information: execution reverted" true)).
Proof.
  apply (proj1 (proj2 (read_failures_are_returned
           Sample.imports
           "sonic" "0xabc" (Sample.world_totalSupply_fails (JsError "execution reverted"))
           eq_refl)) sample_supported 1%nat (JsError "execution reverted")).
  - repeat split.
  - reflexivity.
Defined.

(** C4, run: a zero [totalSupply]. *)
Lemma zero_totalSupply_is_generic_failure_witness :
  invoke Sample.imports "sonic" "0xabc" (Sample.world 0 5) =
  ([EvNotify "Checking ALP APR information...";
    EvGetProvider 146;
    EvNotify "Fetching total supply...";
    EvRead 1%nat "0xRewardTracker" "totalSupply";
    EvNotify "Fetching tokens per interval...";
    EvRead 1%nat "0xRewardDistributor" "tokensPerInterval"],
   inr (toResult "Failed to get ALP APR information: Division by zero" true)).
Proof.
  destruct (zero_totalSupply_is_generic_failure
           Sample.imports
           "sonic" "0xabc" (Sample.world 0 5) 1%nat 5
           sample_supported (sample_reads_succeed 0 5)) as [message [Hrun Hmessage]].
  rewrite (Hmessage _ _ sample_constants) in Hrun. exact Hrun.
Defined.

(** The success result in the operations of the source, run:
    [totalSupply = 1_000_000] and [tokensPerInterval = 1]. *)
Lemma success_result_fields_witness :
  invoke Sample.imports "sonic" "0xabc" (Sample.world 1000000 1) =
  (expected_trace Sample.imports 146 1%nat,
   inr (success_of "3153.60" "31536000" "1000000" "1")).
Proof.
  refine (eq_trans
            (success_result_fields
               Sample.imports
               "sonic" "0xabc" (Sample.world 1000000 1) 1%nat 1000000 1
               31536000 Sample.precision
               sample_supported (sample_reads_succeed 1000000 1) eq_refl
               sample_constants _) _).
  - discriminate.
  - vm_compute. reflexivity.
Defined.

Lemma sample_arithmetic_succeeds : arithmetic_succeeds Sample.imports 1000000 1.
Proof.
  exists 31536000, (Z.quot (31536000 * Sample.precision * 100) 1000000).
  split; vm_compute; reflexivity.
Defined.

(** C8, run: the collaborators answer, and all seven calls are made in
    order. *)
Lemma calls_are_sequential_witness :
  fst (invoke Sample.imports "sonic" "0xabc" (Sample.world 1000000 1)) =
  [EvNotify "Checking ALP APR information...";
   EvGetProvider 146;
   EvNotify "Fetching total supply...";
   EvRead 1%nat "0xRewardTracker" "totalSupply";
   EvNotify "Fetching tokens per interval...";
   EvRead 1%nat "0xRewardDistributor" "tokensPerInterval";
   EvNotify "APR calculation completed"].
Proof.
  exact (proj2 (proj2 (proj2 (proj2 (proj2 (proj2 (proj2
           (calls_are_sequential
              Sample.imports "sonic" "0xabc" (Sample.world 1000000 1)
              sample_supported)))))))
           1%nat 1000000 1 (sample_reads_succeed 1000000 1) sample_arithmetic_succeeds).
Defined.

Lemma sample_reads_are_u256 (totalSupply tokensPerInterval : Z) :
  is_u256 totalSupply -> is_u256 tokensPerInterval ->
  reads_are_u256 (Sample.world totalSupply tokensPerInterval).
Proof.
  intros Hts Htpi tr p a f v. cbn. destruct (String.eqb f "totalSupply"); now intros [= <-].
Defined.

(** C5. The code at the failing input: one token per second (18 decimals)
    for a total supply of one unit is a success result whose [baseApr] is in
    exponent notation, with no two fractional digits. *)
Lemma baseApr_in_exponent_notation :
  is_u256 1 /\ is_u256 (10 ^ 18) /\
  invoke Sample.imports "sonic" "0xabc" (Sample.world 1 (10 ^ 18)) =
  (expected_trace Sample.imports 146 1%nat,
   inr (success_of "3.1536e+27" "31536000000000000000000000" "1" "1000000000000000000")) /\
  is_fixed_decimal 2 "3.1536e+27" = false.
Proof.
  split; [unfold is_u256; lia|]. split; [unfold is_u256; lia|].
  split; [vm_compute; reflexivity|reflexivity].
Qed.

(** X1, run: [totalSupply = 1_000_000] and [tokensPerInterval = 1]. *)
Lemma success_fields_are_numerals_witness :
  exists (totalSupply tokensPerInterval : Z) (baseApr : spec_float),
    baseApr =
      baseApr_of Sample.imports
        (Z.quot (tokensPerInterval * 31536000 * Sample.precision * 100) totalSupply) /\
    success_of "3153.60" "31536000" "1000000" "1" =
    success_of (Number_toFixed baseApr 2)
      (BigInt_toString (tokensPerInterval * 31536000))
      (BigInt_toString totalSupply)
      (BigInt_toString tokensPerInterval) /\
    is_decimal_numeral (BigInt_toString totalSupply) = true /\
    is_decimal_numeral (BigInt_toString (tokensPerInterval * 31536000)) = true /\
    is_decimal_numeral (BigInt_toString tokensPerInterval) = true /\
    (uses_fixed_notation baseApr = true ->
     is_fixed_decimal 2 (Number_toFixed baseApr 2) = true) /\
    (uses_fixed_notation baseApr = false ->
     Number_toFixed baseApr 2 = Number_toString baseApr).
Proof.
  apply (success_fields_are_numerals Sample.imports "sonic" "0xabc"
           (Sample.world 1000000 1)
           (expected_trace Sample.imports 146 1%nat)
           (success_of "3153.60" "31536000" "1000000" "1")
           31536000 Sample.precision sample_constants).
  - lia.
  - reflexivity.
  - apply sample_reads_are_u256; unfold is_u256; lia.
  - vm_compute. reflexivity.
  - reflexivity.
Defined.

(** C6, run: doubling the emission, and doubling the supply. *)
Lemma baseApr_is_monotone_witness :
  numerically_le (baseApr_string Sample.imports 31536000 Sample.precision 1000000 1)
                 (baseApr_string Sample.imports 31536000 Sample.precision 1000000 2) /\
  numerically_le (baseApr_string Sample.imports 31536000 Sample.precision 2000000 1)
                 (baseApr_string Sample.imports 31536000 Sample.precision 1000000 1).
Proof.
  destruct (baseApr_is_monotone Sample.imports 31536000 Sample.precision
              sample_constants ltac:(lia) ltac:(reflexivity)) as [Hup Hdown].
  split.
  - apply Hup; unfold is_u256; lia.
  - apply Hdown; unfold is_u256; lia.
Defined.

(** C7, the claim as stated fails: for [totalSupply = 1_000_000] and
    [tokensPerInterval = 1] the exact rate is [3153.6], which no Number is; the
    Number computed differs from it by more than [1 / precision]. *)
Lemma baseApr_misses_precision_bound :
  is_u256 1000000 /\ is_u256 1 /\
  constants_are Sample.imports 31536000 Sample.precision /\
  Qle_bool
    (Qabs (Number_value
             (baseApr_of Sample.imports
                (Z.quot (1 * 31536000 * Sample.precision * 100) 1000000))
           - exact_rate (1 * 31536000) 1000000))
    (1 / inject_Z Sample.precision) = false.
Proof.
  split; [unfold is_u256; lia|]. split; [unfold is_u256; lia|].
  split; [exact sample_constants|vm_compute; reflexivity].
Qed.

(** C7 (amended), run on the same values. *)
Lemma baseApr_accuracy_witness :
  (inject_Z (Z.quot (1 * 31536000 * Sample.precision * 100) 1000000)
     / inject_Z Sample.precision <= exact_rate (1 * 31536000) 1000000 /\
   exact_rate (1 * 31536000) 1000000 <
   inject_Z (Z.quot (1 * 31536000 * Sample.precision * 100) 1000000)
     / inject_Z Sample.precision + 1 / inject_Z Sample.precision)%Q /\
  (Number_finite
     (baseApr_of Sample.imports (Z.quot (1 * 31536000 * Sample.precision * 100) 1000000)) ->
   (Qabs (Number_value
            (baseApr_of Sample.imports
               (Z.quot (1 * 31536000 * Sample.precision * 100) 1000000))
          - exact_rate (1 * 31536000) 1000000) <=
    1 / inject_Z Sample.precision
    + exact_rate (1 * 31536000) 1000000 * pow2 (-51) + pow2 (-1073))%Q).
Proof.
  apply (baseApr_accuracy Sample.imports 31536000 Sample.precision 1000000 1
           sample_constants).
  - lia.
  - reflexivity.
  - unfold is_u256; lia.
  - discriminate.
  - unfold is_u256; lia.
Defined.

(** X2, run on the same values: the field reads [3153.60]. *)
Lemma reported_baseApr_accuracy_witness :
  exists n : Z,
    numeral_value (baseApr_string Sample.imports 31536000 Sample.precision 1000000 1) =
    Some (Rep_value (inject_Z n * (1 # 100))%Q) /\
    (Qabs (inject_Z n * (1 # 100) -
           Number_value
             (baseApr_of Sample.imports
                (Z.quot (1 * 31536000 * Sample.precision * 100) 1000000))) <= 1 # 200)%Q /\
    (Qabs (inject_Z n * (1 # 100) - exact_rate (1 * 31536000) 1000000) <=
     (1 # 200) + 1 / inject_Z Sample.precision
     + exact_rate (1 * 31536000) 1000000 * pow2 (-51) + pow2 (-1073))%Q.
Proof.
  apply (reported_baseApr_accuracy Sample.imports 31536000 Sample.precision 1000000 1
           sample_constants).
  - lia.
  - reflexivity.
  - unfold is_u256; lia.
  - discriminate.
  - unfold is_u256; lia.
  - vm_compute. reflexivity.
Defined.

(** X3. The two decimals are those of the Number, not of the exact rate: for
    [tokensPerInterval = 10^10] and [totalSupply = 8 * 3153600000 * 10^10 + 1]
    the exact rate, and the scaled quotient over the precision, are below
    [0.125], the Number computed is [0.125], and the field reads [0.13]. *)
Example reported_baseApr_rounds_the_Number :
  let totalSupply := 8 * 3153600000 * 10 ^ 10 + 1 in
  let tokensPerInterval := 10 ^ 10 in
  let quotient := Z.quot (tokensPerInterval * 31536000 * Sample.precision * 100) totalSupply in
  snd (invoke Sample.imports "sonic" "0xabc" (Sample.world totalSupply tokensPerInterval)) =
    inr (success_of "0.13" "315360000000000000" "252288000000000000001" "10000000000") /\
  (exact_rate (tokensPerInterval * 31536000) totalSupply < 1 # 8)%Q /\
  (inject_Z quotient / inject_Z Sample.precision < 1 # 8)%Q /\
  (Number_value (baseApr_of Sample.imports quotient) == 1 # 8)%Q.
Proof. vm_compute. repeat split; reflexivity. Qed.

(** * The further properties at work on the sample setting *)

(** X6, run: the provider resolution throws a value that is no [Error]. *)
Lemma provider_failure_is_returned_witness :
  invoke Sample.imports "sonic" "0xabc" (Failing.world_provider_fails (JsNonError "no client")) =
  ([EvNotify "Checking ALP APR information..."; EvGetProvider 146],
   inr (toResult "Failed to get ALP APR information: Unknown error" true)).
Proof.
  exact (provider_failure_is_returned
           Sample.imports "sonic" "0xabc"
           (Failing.world_provider_fails (JsNonError "no client")) (JsNonError "no client")
           sample_supported eq_refl eq_refl).
Defined.

(** X7, run: the sink rejects the last notification only; the rate that was
    computed is not returned. *)
Lemma notification_failures_are_returned_witness :
  invoke Sample.imports "sonic" "0xabc"
    (Failing.world_notification_fails "APR calculation completed" (JsError "sink closed")) =
  (expected_trace Sample.imports 146 1%nat,
   inr (toResult "Failed to get ALP APR information: sink closed" true)).
Proof.
  apply (proj2 (proj2 (notification_failures_are_returned
           Sample.imports "sonic" "0xabc"
           (Failing.world_notification_fails "APR calculation completed" (JsError "sink closed"))
           1%nat (JsError "sink closed") sample_supported eq_refl eq_refl))
           1000000 1 31536000 Sample.precision).
  - repeat split.
  - exact sample_constants.
  - discriminate.
  - reflexivity.
Defined.

(** X8, run on the result of a rejected [totalSupply] read. *)
Lemma failure_results_are_of_three_kinds_witness :
  (falsy (getChainFromName Sample.imports "sonic") = true /\
   calls Sample.imports "sonic" 1%nat 4 = [] /\
   caught (JsError "execution reverted") =
   toResult ("Network " ++ "sonic" ++ " not supported") true) \/
  (falsy (getChainFromName Sample.imports "sonic") = false /\
   "sonic" <> NETWORKS_SONIC Sample.imports /\
   calls Sample.imports "sonic" 1%nat 4 = [] /\
   caught (JsError "execution reverted") =
   toResult "This function is only supported on Sonic chain" true) \/
  (supported Sample.imports "sonic" /\
   enters_try (Sample.world_totalSupply_fails (JsError "execution reverted")) /\
   exists (e : JsThrown) (p : Provider) (k : nat),
     (2 <= k <= 7)%nat /\
     calls Sample.imports "sonic" 1%nat 4 = calls Sample.imports "sonic" p k /\
     caught (JsError "execution reverted") = caught e).
Proof.
  apply (failure_results_are_of_three_kinds
           Sample.imports "sonic" "0xabc"
           (Sample.world_totalSupply_fails (JsError "execution reverted"))).
  - reflexivity.
  - reflexivity.
Defined.

Lemma fractional_year_supported : supported Failing.imports_fractional_year "sonic".
Proof. split; reflexivity. Defined.

(** X9, run: a year of [31536000.5] seconds. *)
Lemma non_integer_constants_fail_witness :
  invoke Failing.imports_fractional_year "sonic" "0xabc" (Sample.world 1000000 1) =
  ([EvNotify "Checking ALP APR information...";
    EvGetProvider 146;
    EvNotify "Fetching total supply...";
    EvRead 1%nat "0xRewardTracker" "totalSupply";
    EvNotify "Fetching tokens per interval...";
    EvRead 1%nat "0xRewardDistributor" "tokensPerInterval"],
   inr (toResult "Failed to get ALP APR information: The number is not an integer" true)).
Proof.
  apply (proj1 (non_integer_constants_fail
           Failing.imports_fractional_year "sonic" "0xabc" (Sample.world 1000000 1)
           1%nat 1000000 1 fractional_year_supported ltac:(repeat split))
           (JsError "The number is not an integer")).
  vm_compute. reflexivity.
Defined.

(** X13, run: [totalSupply = 1_000_000] and [tokensPerInterval = 1]. *)
Lemma two_decimals_below_1e21_witness :
  is_fixed_decimal 2 (baseApr_string Sample.imports 31536000 Sample.precision 1000000 1) = true.
Proof.
  apply (two_decimals_below_1e21 Sample.imports 31536000 Sample.precision 1000000 1
           sample_constants).
  - lia.
  - split; [reflexivity|]. apply Z.leb_le. vm_compute. reflexivity.
  - unfold is_u256; lia.
  - discriminate.
  - unfold is_u256; lia.
  - apply Z.leb_le. vm_compute. reflexivity.
Defined.

(** X14, run: [totalSupply = 1] and [tokensPerInterval = 10^18]. *)
Lemma no_two_decimals_from_1e21_witness :
  is_fixed_decimal 2 (baseApr_string Sample.imports 31536000 Sample.precision 1 (10 ^ 18)) =
  false /\
  baseApr_string Sample.imports 31536000 Sample.precision 1 (10 ^ 18) =
  Number_toString
    (baseApr_of Sample.imports (Z.quot (10 ^ 18 * 31536000 * Sample.precision * 100) 1)).
Proof.
  apply (no_two_decimals_from_1e21 Sample.imports 31536000 Sample.precision 1 (10 ^ 18)
           sample_constants).
  - lia.
  - reflexivity.
  - unfold is_u256; lia.
  - discriminate.
  - unfold is_u256; lia.
  - apply Z.leb_le. vm_compute. reflexivity.
Defined.

(** X15, run on the same values as X13. *)
Lemma baseApr_is_a_finite_numeral_witness :
  exists v : Q,
    numeral_value (baseApr_string Sample.imports 31536000 Sample.precision 1000000 1) =
    Some (Rep_value v) /\ (0 <= v)%Q.
Proof.
  apply (baseApr_is_a_finite_numeral Sample.imports 31536000 Sample.precision 1000000 1
           sample_constants).
  - lia.
  - reflexivity.
  - apply Z.leb_le. vm_compute. reflexivity.
  - unfold is_u256; lia.
  - discriminate.
  - unfold is_u256; lia.
Defined.

(** X10, run: no emission at all. *)
Lemma rate_below_resolution_is_reported_as_zero_witness :
  invoke Sample.imports "sonic" "0xabc" (Sample.world 1000000 0) =
  (expected_trace Sample.imports 146 1%nat,
   inr (success_of "0.00" "0" "1000000" "0")).
Proof.
  apply (rate_below_resolution_is_reported_as_zero
           Sample.imports "sonic" "0xabc" (Sample.world 1000000 0) 1%nat 1000000 0
           31536000 Sample.precision
           sample_supported (sample_reads_succeed 1000000 0) eq_refl sample_constants).
  - reflexivity.
  - cbn. lia.
Defined.

(** X11, run: the largest [tokensPerInterval]; [yearlyRewards] has more than
    256 bits. *)
Lemma integer_fields_read_back_witness :
  exists (p : Provider) (totalSupply tokensPerInterval : Z) (b y t i : string),
    totalSupply_reply Sample.imports "sonic" (Sample.world 1 (2 ^ 256 - 1)) p =
    inr totalSupply /\
    tokensPerInterval_reply Sample.imports "sonic" (Sample.world 1 (2 ^ 256 - 1)) p =
    inr tokensPerInterval /\
    success_of "3.6516193261880035e+86"
      "3651619326188003538877734583233981862060722236415640827548334369273548456324990160000"
      "1"
      "115792089237316195423570985008687907853269984665640564039457584007913129639935" =
    success_of b y t i /\
    is_decimal_numeral t = true /\ digits_value t 0 = totalSupply /\
    is_decimal_numeral i = true /\ digits_value i 0 = tokensPerInterval /\
    is_decimal_numeral y = true /\ digits_value y 0 = tokensPerInterval * 31536000.
Proof.
  apply (integer_fields_read_back
           Sample.imports "sonic" "0xabc" (Sample.world 1 (2 ^ 256 - 1))
           (expected_trace Sample.imports 146 1%nat) _ 31536000 Sample.precision
           sample_constants).
  - lia.
  - apply sample_reads_are_u256; unfold is_u256; lia.
  - vm_compute. reflexivity.
  - reflexivity.
Defined.

(** X17, run on the success result of X13's values. *)
Lemma success_data_is_written_verbatim_witness :
  exists b y t i : string,
    success_of "3153.60" "31536000" "1000000" "1" = success_of b y t i /\
    plain b = true /\ plain y = true /\ plain t = true /\ plain i = true /\
    data (success_of "3153.60" "31536000" "1000000" "1") =
    "{" ++ quoted "baseApr" ++ ":" ++ quoted b ++ "," ++
    quoted "yearlyRewards" ++ ":" ++ quoted y ++ "," ++
    quoted "totalSupply" ++ ":" ++ quoted t ++ "," ++
    quoted "tokensPerInterval" ++ ":" ++ quoted i ++ "}".
Proof.
  apply (success_data_is_written_verbatim
           Sample.imports "sonic" "0xabc" (Sample.world 1000000 1)
           (expected_trace Sample.imports 146 1%nat)).
  - vm_compute. reflexivity.
  - reflexivity.
Defined.

(** X16, run: both values a thousand times larger. *)
Lemma baseApr_is_scale_invariant_witness :
  baseApr_string Sample.imports 31536000 Sample.precision (1000000 * 1000) (1 * 1000) =
  baseApr_string Sample.imports 31536000 Sample.precision 1000000 1.
Proof.
  apply (baseApr_is_scale_invariant Sample.imports 31536000 Sample.precision 1000000 1 1000);
    discriminate.
Defined.

(** C1, the claim as stated fails.  For [tokensPerInterval = 10^10] and
    [totalSupply = 8 * 3153600000 * 10^10 + 1] both reads succeed and the
    result is a success whose [baseApr] is [0.13], while the scaled quotient,
    scaled back down by the precision and rounded to two decimals, is [0.12].
    For [tokensPerInterval = 10^18] and [totalSupply = 1] the [baseApr] is
    [3.1536e+27], while the rounded rate is [3153600000000000000000000000.00]. *)
Lemma baseApr_is_not_the_rounded_quotient :
  supported Sample.imports "sonic" /\
  reads_succeed Sample.imports "sonic"
    (Sample.world 252288000000000000001 10000000000) 1%nat
    252288000000000000001 10000000000 /\
  invoke Sample.imports "sonic" "0xabc" (Sample.world 252288000000000000001 10000000000) =
  (expected_trace Sample.imports 146 1%nat,
   inr (success_of "0.13" "315360000000000000" "252288000000000000001" "10000000000")) /\
  spec_baseApr
    (Z.quot (10000000000 * 31536000 * Sample.precision * 100) 252288000000000000001)
    Sample.precision = "0.12" /\
  reads_succeed Sample.imports "sonic" (Sample.world 1 (10 ^ 18)) 1%nat 1 (10 ^ 18) /\
  invoke Sample.imports "sonic" "0xabc" (Sample.world 1 (10 ^ 18)) =
  (expected_trace Sample.imports 146 1%nat,
   inr (success_of "3.1536e+27" "31536000000000000000000000" "1" "1000000000000000000")) /\
  spec_baseApr (Z.quot (10 ^ 18 * 31536000 * Sample.precision * 100) 1) Sample.precision =
  "3153600000000000000000000000.00".
Proof.
  split; [exact sample_supported|].
  split; [apply sample_reads_succeed|].
  split; [vm_compute; reflexivity|].
  split; [vm_compute; reflexivity|].
  split; [apply sample_reads_succeed|].
  split; vm_compute; reflexivity.
Qed.

(** C1 (amended), run: [totalSupply = 1_000_000] and [tokensPerInterval = 1].
    The result holds [yearlyRewards = 31536000] and [baseApr = 3153.60], which
    is the scaled quotient, scaled back down and rounded to two decimals. *)
Lemma success_result_is_the_rounded_rate_witness :
  invoke Sample.imports "sonic" "0xabc" (Sample.world 1000000 1) =
  (expected_trace Sample.imports 146 1%nat,
   inr (success_of
          (spec_baseApr (Z.quot (1 * 31536000 * Sample.precision * 100) 1000000)
             Sample.precision)
          (BigInt_toString (1 * 31536000)) (BigInt_toString 1000000) (BigInt_toString 1))) /\
  spec_baseApr (Z.quot (1 * 31536000 * Sample.precision * 100) 1000000) Sample.precision =
  "3153.60" /\
  fixed_point_digits (nearest_scaled (exact_rate (1 * 31536000) 1000000) 2) 2 = "3153.60" /\
  BigInt_toString (1 * 31536000) = "31536000".
Proof.
  destruct (success_result_is_the_rounded_rate
              Sample.imports "sonic" "0xabc" (Sample.world 1000000 1) 1%nat 1000000 1
              31536000 Sample.precision
              sample_supported (sample_reads_succeed 1000000 1) eq_refl sample_constants)
    as (n & Hrun & _ & _ & _ & _ & _ & Hspec).
  - lia.
  - split; [reflexivity|]. apply Z.leb_le. vm_compute. reflexivity.
  - unfold is_u256; lia.
  - discriminate.
  - unfold is_u256; lia.
  - apply Z.leb_le. vm_compute. reflexivity.
  - rewrite Hspec in Hrun by (vm_compute; reflexivity).
    split; [exact Hrun|]. split; [|split]; vm_compute; reflexivity.
Defined.
